(** * AntSolver: a shallow embedding of [ant_solver.py]

    The solver colours the nodes of an undirected graph with a population of
    "ants" that walk along edges and recolour the node they reach.  The
    embedding follows the Python source function by function:

    - Python exceptions are the [Raise] results of an error monad [res];
    - numpy's global generator is a tape of raw draws threaded through the
      monad [M]; [perf_counter] is a tape of clock readings;
    - a networkx graph is a record of its node order, adjacency dictionary
      and the two node attributes the solver uses ([color] and [cost]); node
      names are Python integers of any size;
    - a numpy array built from Python integers takes the dtype numpy infers
      for them: the entries are kept exactly in an int64, uint64 or object
      array and rounded to doubles in a float64 array, and an int64 array
      refuses a value it cannot hold;
    - graph objects live in a store ([heap]) and the solver holds references
      to them, so that [copy] and in-place mutation are told apart. *)

From Stdlib Require Import ZArith QArith Lia.
From stdpp Require Import base option list gmap.

Local Open Scope Z_scope.

(** ** Exceptions and the two monads *)

(** The exceptions of the run-time and of the libraries, and the two the
    interface description names. *)
Inductive exn : Type :=
  | ValueError
  | KeyError
  | IndexError
  | NetworkXError
  | OverflowError
  | ZeroDivisionError
  | ConfigurationError
  | InvalidGraphError.

(** A value or a raised exception. *)
Inductive res (A : Type) : Type :=
  | Ok (a : A)
  | Raise (e : exn).
Arguments Ok {A} a.
Arguments Raise {A} e.

#[global] Instance res_ret : MRet res := λ A a, Ok a.
#[global] Instance res_bind : MBind res := λ A B f m,
  match m with Ok a => f a | Raise e => Raise e end.

(** numpy's generator: a tape of raw draws and the index of the next one. *)
Record RNG : Type := { tape : nat → Z; rpos : nat }.

(** Computations that draw from the generator and may raise. *)
Definition M (A : Type) : Type := RNG → res (A * RNG).

#[global] Instance M_ret : MRet M := λ A a r, Ok (a, r).
#[global] Instance M_bind : MBind M := λ A B f m r,
  match m r with Ok (a, r') => f a r' | Raise e => Raise e end.

(** A computation that draws nothing. *)
Definition lift {A} (x : res A) : M A := λ r,
  match x with Ok a => Ok (a, r) | Raise e => Raise e end.

(** The next raw draw. *)
Definition draw : M Z := λ r,
  Ok (tape r (rpos r), {| tape := tape r; rpos := S (rpos r) |}).

(** [a < b] on the rationals that stand for Python floats; the solver only
    compares them. *)
Definition Qltb (a b : Q) : bool := negb (Qle_bool b a).

(** [np.random.random()]: a float in [0, 1). *)
Definition random : M Q :=
  r ← draw; mret (Qmake (r mod 9007199254740992) 9007199254740992).

(** [np.random.choice(a)] on a one-dimensional [a]: an empty population is a
    ValueError, otherwise one uniformly drawn element. *)
Definition choice {A} (a : list A) : M A :=
  match a with
  | [] => lift (Raise ValueError)
  | x :: _ =>
      r ← draw;
      mret (default x (a !! Z.to_nat (r mod Z.of_nat (length a))))
  end.

(** [x[i], x[j] = x[j], x[i]] *)
Definition swap {A} (l : list A) (i j : nat) : list A :=
  match l !! i, l !! j with
  | Some x, Some y => <[i:=y]> (<[j:=x]> l)
  | _, _ => l
  end.

(** numpy's in-place shuffle: for i = n-1 down to 1, swap x[i] with x[j],
    j drawn in [0, i]. *)
Fixpoint shuffle {A} (i : nat) (l : list A) : M (list A) :=
  match i with
  | O => mret l
  | S i' =>
      r ← draw;
      shuffle i' (swap l i (Z.to_nat (r mod (Z.of_nat i + 1))))
  end.

(** [np.arange(n)] *)
Definition arange (n : Z) : list Z := Z.of_nat <$> seq 0 (Z.to_nat n).

(** [np.random.choice(a, size, replace=False)]: the first [size] entries of a
    random permutation of the population indices. *)
Definition choice_no_replace (a : list Z) (size : Z) : M (list Z) :=
  match a with
  | [] => lift (Raise ValueError)
  | _ :: _ =>
      if decide (size < 0) then lift (Raise ValueError)
      else if decide (Z.of_nat (length a) < size) then lift (Raise ValueError)
      else
        idx ← shuffle (length a - 1) (seq 0 (length a));
        mret (omap (λ i, a !! i) (take (Z.to_nat size) idx))
  end.

(** ** Graphs *)

(** Node identifiers. *)
Definition node : Type := Z.

(** A networkx graph: the node iteration order, the adjacency dictionary
    (each neighbour list in iteration order) and the node attributes
    'color' and 'cost'. *)
Record Graph : Type := {
  nodes : list node;
  adj : gmap node (list node);
  color : gmap node Z;
  cost : gmap node Z;
}.

#[global] Instance Graph_inhabited : Inhabited Graph :=
  populate {| nodes := []; adj := ∅; color := ∅; cost := ∅ |}.

(** [g.number_of_nodes()] *)
Definition number_of_nodes (g : Graph) : Z := Z.of_nat (length (nodes g)).

(** [nx.neighbors(g, n)] *)
Definition neighbors (g : Graph) (n : node) : res (list node) :=
  match adj g !! n with
  | Some l => Ok l
  | None => Raise NetworkXError
  end.

(** [nx.degree(g).values()]: a self-loop counts twice. *)
Definition degree_values (g : Graph) : list Z :=
  (λ n, let l := default [] (adj g !! n) in
        Z.of_nat (length l) + (if decide (n ∈ l) then 1 else 0)) <$> nodes g.

(** Python's [max] of a sequence. *)
Definition py_max (l : list Z) : res Z :=
  match l with
  | [] => Raise ValueError
  | x :: l' => Ok (foldl Z.max x l')
  end.

(** [g.node[n]['color']] *)
Definition get_color (g : Graph) (n : node) : res Z :=
  match color g !! n with Some c => Ok c | None => Raise KeyError end.

(** [g.node[n]['cost']] *)
Definition get_cost (g : Graph) (n : node) : res Z :=
  match cost g !! n with Some c => Ok c | None => Raise KeyError end.

(** [g.node[n]['color'] = c]; [g.node[n]] is a KeyError when [n] is not a
    node. *)
Definition set_color (g : Graph) (n : node) (c : Z) : res Graph :=
  match adj g !! n with
  | Some _ => Ok {| nodes := nodes g; adj := adj g;
                    color := <[n:=c]> (color g); cost := cost g |}
  | None => Raise KeyError
  end.

(** [g.node[n]['cost'] = c] *)
Definition set_cost (g : Graph) (n : node) (c : Z) : res Graph :=
  match adj g !! n with
  | Some _ => Ok {| nodes := nodes g; adj := adj g;
                    color := color g; cost := <[n:=c]> (cost g) |}
  | None => Raise KeyError
  end.

(** [g.subgraph(nbunch)]: the graph induced by the nodes of [nbunch].  The
    node attribute dictionaries are shared with [g], so the subgraph reads
    the colours and costs of [g].  A neighbour list of the subgraph has the
    neighbours networkx gives it, in the order of [g]; the solver only sums
    over these lists. *)
Definition subgraph (g : Graph) (nbunch : list node) : Graph :=
  {| nodes := reverse (remove_dups (reverse
                (filter (λ n, is_Some (adj g !! n)) nbunch)));
     adj := (λ l, filter (λ m, m ∈ nbunch) l)
              <$> filter (λ kv, kv.1 ∈ nbunch) (adj g);
     color := color g;
     cost := cost g |}.

(** Python's [sum] of a list of integers. *)
Definition zsum (l : list Z) : Z := foldr Z.add 0 l.

(** ** The solver's static methods *)

(** [g.node[n]['color'] == g.node[nei]['color']], as 0 or 1. *)
Definition same_color (g : Graph) (n nei : node) : res Z :=
  cn ← get_color g n;
  cc ← get_color g nei;
  mret (if decide (cn = cc) then 1 else 0).

(** [conflict_level(g, n)]: how many neighbours have the colour of [n]. *)
Definition conflict_level (g : Graph) (n : node) : res Z :=
  nbrs ← neighbors g n;
  flags ← mapM (same_color g n) nbrs;
  mret (zsum flags).

(** [local_potential(g, node)]: the conflicts of the node and of its
    neighbours. *)
Definition local_potential (g : Graph) (n : node) : res Z :=
  nbrs ← neighbors g n;
  ls ← mapM (conflict_level g) nbrs;
  own ← conflict_level g n;
  mret (own + zsum ls).

(** [for n in g.nodes_iter(): g.node[n]['color'] = np.random.choice(colors)] *)
Fixpoint color_nodes (g : Graph) (colors : list Z) (ns : list node) : M Graph :=
  match ns with
  | [] => mret g
  | n :: ns' =>
      c ← choice colors;
      g' ← lift (set_color g n c);
      color_nodes g' colors ns'
  end.

(** [random_node_coloring(g, n)]: the palette is [n] colours, or
    max degree + 1 when [n] is None or larger. *)
Definition random_node_coloring (g : Graph) (n : option Z) : M Graph :=
  m ← lift (py_max (degree_values g));
  let max_c := m + 1 in
  let n_colors :=
    match n with
    | None => max_c
    | Some k => if decide (k > max_c) then max_c else k
    end in
  color_nodes g (arange n_colors) (nodes g).

(** ** numpy's [argmax] and [argmin]: the first index of an extremal entry *)

(** The scan of [argmax]: [best_i] holds [best], the largest entry seen so
    far; [i] is the index of the head of [l]. *)
Fixpoint argmax_from (best_i : nat) (best : Z) (i : nat) (l : list Z) : nat :=
  match l with
  | [] => best_i
  | x :: l' =>
      if decide (best < x) then argmax_from i x (S i) l'
      else argmax_from best_i best (S i) l'
  end.

(** [a.argmax()] *)
Definition argmax (l : list Z) : res nat :=
  match l with
  | [] => Raise ValueError
  | x :: l' => Ok (argmax_from 0 x 1 l')
  end.

(** The scan of [argmin]. *)
Fixpoint argmin_from (best_i : nat) (best : Z) (i : nat) (l : list Z) : nat :=
  match l with
  | [] => best_i
  | x :: l' =>
      if decide (x < best) then argmin_from i x (S i) l'
      else argmin_from best_i best (S i) l'
  end.

(** [a.argmin()] *)
Definition argmin (l : list Z) : res nat :=
  match l with
  | [] => Raise ValueError
  | x :: l' => Ok (argmin_from 0 x 1 l')
  end.

(** ** numpy arrays built from Python integers *)

(** The values of a signed 64-bit integer. *)
Definition int64 (z : Z) : Prop := - 2 ^ 63 ≤ z < 2 ^ 63.

#[global] Instance int64_dec (z : Z) : Decision (int64 z).
Proof. unfold int64. apply _. Defined.

(** The dtype [np.array] infers for Python integers is float64 when every
    entry fits in int64 or in uint64, some entry fits in int64 and some other
    entry does not: numpy promotes int64 with uint64 to float64.  (Entries
    that all fit in int64 give an int64 array, entries that all need uint64 a
    uint64 array, and an entry beyond both an object array: those three hold
    the integers as they are.) *)
Definition is_float64 (xs : list Z) : Prop :=
  Forall (λ z, - 2 ^ 63 ≤ z < 2 ^ 64) xs
  ∧ Exists int64 xs
  ∧ Exists (λ z, ¬ int64 z) xs.

#[global] Instance is_float64_dec (xs : list Z) : Decision (is_float64 xs).
Proof. unfold is_float64. apply _. Defined.

(** The integer value of the double nearest to [z], ties going to the even
    53-bit mantissa. *)
Definition float64 (z : Z) : Z :=
  let a := Z.abs z in
  let e := Z.log2 a - 52 in
  if decide (e ≤ 0) then z
  else
    let q := a / 2 ^ e in
    let r := a mod 2 ^ e in
    let half := 2 ^ (e - 1) in
    let q' := if decide (r < half) then q
              else if decide (half < r) then q + 1
              else if Z.even q then q else q + 1 in
    Z.sgn z * (q' * 2 ^ e).

(** [np.array(xs)] for a list of Python integers: the entries as the array
    holds them. *)
Definition np_array (xs : list Z) : list Z :=
  if decide (is_float64 xs) then float64 <$> xs else xs.

(** [np.array(rows)] for a list of pairs of Python integers: one dtype for
    the whole two-column array. *)
Definition np_array2 (rows : list (node * Z)) : list (node * Z) :=
  if decide (is_float64 (rows.*1 ++ rows.*2))
  then prod_map float64 float64 <$> rows
  else rows.

(** [a[i] = v] on an int64 array: the value is converted to a C long. *)
Definition setitem_int64 (v : Z) : res Z :=
  if decide (int64 v) then Ok v else Raise OverflowError.

(** ** The solver object *)

(** The attributes set once by [__init__]. *)
Record Config : Type := {
  order_2 : bool;
  verbose : bool;
  max_time : Q;
  n_colors : Z;
  max_iters : Z;
  n_ants : Z;
  pc : Q;
  pn : Q;
}.

(** The solver: its configuration, the store of graph objects, the
    references [self.g] and [self.best] into it, and the mutable scalars. *)
Record AntSolver : Type := {
  cfg : Config;
  heap : list Graph;
  self_g : nat;
  self_best : nat;
  self_i : Z;
  self_ants : list Z;
  self_cost_best : Z;
  self_curr_cost : Z;
  self_first_best : Z;
  self_ant_i : Z;
}.

(** [x.copy()]: a deep copy, allocated as a new object of the store. *)
Definition copy (h : list Graph) (x : nat) : list Graph * nat :=
  (h ++ [h !!! x], length h).

(** The graph [self.g] refers to. *)
Definition live (s : AntSolver) : Graph := heap s !!! self_g s.

(** The graph [self.best] refers to. *)
Definition snapshot (s : AntSolver) : Graph := heap s !!! self_best s.

(** In-place mutation of the object behind [self.g]. *)
Definition set_live (s : AntSolver) (g : Graph) : AntSolver :=
  {| cfg := cfg s; heap := <[self_g s := g]> (heap s);
     self_g := self_g s; self_best := self_best s; self_i := self_i s;
     self_ants := self_ants s; self_cost_best := self_cost_best s;
     self_curr_cost := self_curr_cost s;
     self_first_best := self_first_best s; self_ant_i := self_ant_i s |}.

(** [self.ants = a] *)
Definition set_ants (s : AntSolver) (a : list Z) : AntSolver :=
  {| cfg := cfg s; heap := heap s;
     self_g := self_g s; self_best := self_best s; self_i := self_i s;
     self_ants := a; self_cost_best := self_cost_best s;
     self_curr_cost := self_curr_cost s;
     self_first_best := self_first_best s; self_ant_i := self_ant_i s |}.

(** [self._ant_i = k] *)
Definition set_ant_i (s : AntSolver) (k : Z) : AntSolver :=
  {| cfg := cfg s; heap := heap s;
     self_g := self_g s; self_best := self_best s; self_i := self_i s;
     self_ants := self_ants s; self_cost_best := self_cost_best s;
     self_curr_cost := self_curr_cost s;
     self_first_best := self_first_best s; self_ant_i := k |}.

(** [self.i = k] *)
Definition set_i (s : AntSolver) (k : Z) : AntSolver :=
  {| cfg := cfg s; heap := heap s;
     self_g := self_g s; self_best := self_best s; self_i := k;
     self_ants := self_ants s; self_cost_best := self_cost_best s;
     self_curr_cost := self_curr_cost s;
     self_first_best := self_first_best s; self_ant_i := self_ant_i s |}.

(** [self.curr_cost = c] *)
Definition set_curr_cost (s : AntSolver) (c : Z) : AntSolver :=
  {| cfg := cfg s; heap := heap s;
     self_g := self_g s; self_best := self_best s; self_i := self_i s;
     self_ants := self_ants s; self_cost_best := self_cost_best s;
     self_curr_cost := c;
     self_first_best := self_first_best s; self_ant_i := self_ant_i s |}.

(** [self.best = self.g.copy(); self.cost_best = c] *)
Definition record_best (s : AntSolver) (c : Z) : AntSolver :=
  let '(h, b) := copy (heap s) (self_g s) in
  {| cfg := cfg s; heap := h;
     self_g := self_g s; self_best := b; self_i := self_i s;
     self_ants := self_ants s; self_cost_best := c;
     self_curr_cost := self_curr_cost s;
     self_first_best := self_first_best s; self_ant_i := self_ant_i s |}.

(** ** Instance methods, on the graph behind [self.g] *)

(** [worst_adjacent_node(n, order_2)]: the rows (neighbour, metric) packed
    into one array, then the first entry of the row [argmax] selects in the
    second column.  Without rows the array is one-dimensional and the
    column index fails. *)
Definition worst_adjacent_node (g : Graph) (n : node) (order_2 : bool)
  : res node :=
  nbrs ← neighbors g n;
  rows ← mapM (λ nei,
            c ← (if order_2 then local_potential g nei
                 else get_cost g nei);
            mret (nei, c)) nbrs;
  let adj_nodes := np_array2 rows in
  match adj_nodes with
  | [] => Raise IndexError
  | _ :: _ =>
      k ← argmax (adj_nodes.*2);
      match adj_nodes !! k with
      | Some row => Ok row.1
      | None => Raise IndexError
      end
  end.

(** [total_cost()]: the sum of the cached costs. *)
Definition total_cost (g : Graph) : res Z :=
  cs ← mapM (get_cost g) (nodes g);
  mret (zsum cs).

(** [for n in ns: g.node[n]['cost'] = conflict_level(g, n)] *)
Fixpoint refresh_costs (g : Graph) (ns : list node) : res Graph :=
  match ns with
  | [] => Ok g
  | n :: ns' =>
      c ← conflict_level g n;
      g' ← set_cost g n c;
      refresh_costs g' ns'
  end.

(** The trial loop of [change_to_best].  [g_test] shares the attribute
    dictionary of [ant] with [self.g], so each trial colour is written to the
    live graph as well; the metric is read in the induced subgraph. *)
Fixpoint try_colors (g : Graph) (nbunch : list node) (ant : node)
    (order_2 : bool) (cs : list Z) : res (Graph * list Z) :=
  match cs with
  | [] => Ok (g, [])
  | c :: cs' =>
      g1 ← set_color g ant c;
      k ← (if order_2 then local_potential (subgraph g1 nbunch) ant
           else conflict_level (subgraph g1 nbunch) ant);
      '(g2, ks) ← try_colors g1 nbunch ant order_2 cs';
      mret (g2, k :: ks)
  end.

(** [change_to_best(ant, order_2)] *)
Definition change_to_best (g : Graph) (n_colors : Z) (ant : node)
    (order_2 : bool) : res Graph :=
  nbrs ← neighbors g ant;
  '(g', cost) ← try_colors g (ant :: nbrs) ant order_2 (arange n_colors);
  best ← argmin cost;
  set_color g' ant (Z.of_nat best).

(** [change_to_random(ant)] *)
Definition change_to_random (g : Graph) (n_colors : Z) (ant : node)
  : M Graph :=
  c ← choice (arange n_colors);
  lift (set_color g ant c).

(** ** Construction *)

(** [init_solver]: place the ants, compute every cached cost, record the
    first best snapshot. *)
Definition init_solver (s : AntSolver) : M AntSolver :=
  let n := n_ants (cfg s) in
  ants ← choice_no_replace (arange n) n;
  let s := set_ants s ants in
  g ← lift (refresh_costs (live s) (nodes (live s)));
  let s := set_live s g in
  let '(h, b) := copy (heap s) (self_g s) in
  c ← lift (total_cost (h !!! self_g s));
  mret {| cfg := cfg s; heap := h;
          self_g := self_g s; self_best := b; self_i := self_i s;
          self_ants := self_ants s; self_cost_best := c;
          self_curr_cost := c;
          self_first_best := c; self_ant_i := self_ant_i s |}.

(** [AntSolver(g, n_colors, n_ants, pre_colored, pc, pn, max_iters,
    max_time, order_2, verbose)].  The caller's graph is object 0 of the
    store; the solver works on copies of it. *)
Definition __init__ (g : Graph) (n_colors : option Z) (n_ants : Z)
    (pre_colored : bool) (pc pn : Q) (max_iters : Z) (max_time : Q)
    (order_2 verbose : bool) : M AntSolver :=
  let h0 := [g] in
  m ← lift (py_max (degree_values g));
  let max_c := m + 1 in
  let nc := from_option id max_c n_colors in
  let c := {| order_2 := order_2; verbose := verbose; max_time := max_time;
              n_colors := nc;
              max_iters := max_iters;
              n_ants := Z.min n_ants (number_of_nodes g);
              pc := pc; pn := pn |} in
  let '(h1, g1) := copy h0 0%nat in
  '(h2, g2) ← (if pre_colored then mret (h1, g1)
               else
                 g' ← random_node_coloring (h1 !!! g1) (Some nc);
                 mret (copy (<[g1:=g']> h1) g1));
  init_solver {| cfg := c; heap := h2; self_g := g2; self_best := g2;
                 self_i := 0; self_ants := []; self_cost_best := 0;
                 self_curr_cost := 0; self_first_best := 0;
                 self_ant_i := 0 |}.

(** ** The search loop *)

(** [print_status]: only the division can fail; nothing is written to the
    solver. *)
Definition print_status (s : AntSolver) : res unit :=
  if decide (self_first_best s = 0) then Raise ZeroDivisionError else Ok tt.

(** Movement and recolouring of one ant standing on [n0], with the refresh of
    the cached costs around its new node.  [np.random.choice] turns the list
    of neighbours into an array before it draws.  [self.ants[ant] = n1]
    converts [n1] for the int64 array [self.ants] here, before any colour is
    touched; [ant_step] records the new position. *)
Definition move_and_color (c : Config) (g : Graph) (n0 : node)
  : M (node * Graph) :=
  u ← random;
  n1 ← (if Qltb u (pc c)
        then lift (worst_adjacent_node g n0 (order_2 c))
        else nbrs ← lift (neighbors g n0); choice (np_array nbrs));
  n1 ← lift (setitem_int64 n1);
  v ← random;
  g ← (if Qltb v (pn c)
       then lift (change_to_best g (n_colors c) n1 (order_2 c))
       else change_to_random g (n_colors c) n1);
  k ← lift (conflict_level g n1);
  g ← lift (set_cost g n1 k);
  nbrs ← lift (neighbors g n1);
  g ← lift (refresh_costs g nbrs);
  mret (n1, g).

(** The body of [for ant in range(self.n_ants)].  The assignment
    [self.ants[ant] = n1] can fail: its conversion of [n1] to int64 is the
    [setitem_int64] of [move_and_color], at the place of the assignment in
    the source, and the position recorded here is the converted value. *)
Definition ant_step (s : AntSolver) (ant : nat) : M AntSolver :=
  _ ← lift (if verbose (cfg s) then print_status s else Ok tt);
  n0 ← lift (from_option Ok (Raise IndexError) (self_ants s !! ant));
  '(n1, g) ← move_and_color (cfg s) (live s) n0;
  let s := set_live (set_ants s (<[ant:=n1]> (self_ants s))) g in
  mret (set_ant_i s (self_ant_i s + 1)).

(** [for ant in range(self.n_ants): ...] *)
Fixpoint for_ants (s : AntSolver) (rng : list nat) : M AntSolver :=
  match rng with
  | [] => mret s
  | ant :: rng' => s' ← ant_step s ant; for_ants s' rng'
  end.

(** One pass of the while body up to the improvement check: all the ants,
    then the total cost and the strict-improvement replacement.  The source
    stores [float(self.curr_cost)], the same number for a cost below 2^53. *)
Definition sweep (s : AntSolver) : M AntSolver :=
  let s := set_ant_i s 0 in
  s ← for_ants s (seq 0 (Z.to_nat (n_ants (cfg s))));
  c ← lift (total_cost (live s));
  let s := set_curr_cost s c in
  mret (if decide (self_curr_cost s < self_cost_best s)
        then record_best s (self_curr_cost s)
        else s).

(** [perf_counter]: a tape of readings. *)
Record Clock : Type := { ticks : nat → Q; cpos : nat }.

(** One reading of the clock. *)
Definition perf_counter (k : Clock) : Q * Clock :=
  (ticks k (cpos k), {| ticks := ticks k; cpos := S (cpos k) |}).

(** How the loop ended: [solve] returned, an exception escaped, or the
    model ran out of fuel. *)
Inductive outcome : Type :=
  | Returned (s : AntSolver)
  | Raised (e : exn)
  | OutOfFuel.

(** The while loop of [solve].  The result is the list of solver states at
    the end of each completed sweep, and how the loop ended.  In the source
    [self.i += 1] follows [break] inside the same branch: it is never
    executed, and no other statement of the loop writes [self.i].  The loop
    need not end by itself (the clock may never reach the budget), so the
    model counts sweeps down from [fuel]. *)
Fixpoint solve_loop (fuel : nat) (tic : Q) (s : AntSolver) (r : RNG)
    (k : Clock) : list AntSolver * outcome :=
  match fuel with
  | O => ([], OutOfFuel)
  | S fuel' =>
      if negb (bool_decide (self_cost_best s > 0)) then ([], Returned s)
      else if negb (bool_decide (self_i s < max_iters (cfg s)))
      then ([], Returned s)
      else
        let '(now, k) := perf_counter k in
        if negb (Qltb (now - tic) (max_time (cfg s))) then ([], Returned s)
        else
          match sweep s r with
          | Raise e => ([], Raised e)
          | Ok (s, r) =>
              if bool_decide (self_cost_best s = 0) then ([s], Returned s)
              else
                let '(now, k) := perf_counter k in
                if Qltb (max_time (cfg s)) (now - tic)
                then ([s], Returned s)
                else
                  let '(tr, o) := solve_loop fuel' tic s r k in
                  (s :: tr, o)
          end
  end.

(** [solve()] *)
Definition solve (fuel : nat) (s : AntSolver) (r : RNG) (k : Clock)
  : list AntSolver * outcome :=
  let '(tic, k) := perf_counter k in
  solve_loop fuel tic (set_i s 0) r k.

(** * Vocabulary of the properties *)

(** [k] is the first index of [l] holding a maximal entry. *)
Definition first_max (l : list Z) (k : nat) : Prop :=
  ∃ v, l !! k = Some v
       ∧ (∀ j x, l !! j = Some x → x ≤ v)
       ∧ (∀ j x, (j < k)%nat → l !! j = Some x → x < v).

(** [k] is the first index of [l] holding a minimal entry. *)
Definition first_min (l : list Z) (k : nat) : Prop :=
  ∃ v, l !! k = Some v
       ∧ (∀ j x, l !! j = Some x → v ≤ x)
       ∧ (∀ j x, (j < k)%nat → l !! j = Some x → v < x).

(** The cost metric a neighbour is ranked by. *)
Definition metric (g : Graph) (order_2 : bool) (nei : node) : res Z :=
  if order_2 then local_potential g nei else get_cost g nei.

(** The names of the neighbours [nbrs] and their cost metrics fit in int64:
    the arrays numpy builds from them are int64 arrays. *)
Definition int64_rows (g : Graph) (order_2 : bool) (nbrs : list node)
  : Prop :=
  ∀ m : node,
    m ∈ nbrs → int64 m ∧ ∀ c, metric g order_2 m = Ok c → int64 c.

(** The graph [g] with node [n] recoloured to [c]. *)
Definition recolor (g : Graph) (n : node) (c : Z) : Graph :=
  {| nodes := nodes g; adj := adj g;
     color := <[n:=c]> (color g); cost := cost g |}.

(** The number of nodes of [nbrs] coloured [c] in [g]. *)
Definition colored_with (g : Graph) (nbrs : list node) (c : Z) : Z :=
  Z.of_nat (length (filter (λ m, color g !! m = Some c) nbrs)).

(** The invariants of a networkx [Graph]: the node dictionary and the
    adjacency dictionary have the same keys, a neighbour list has no
    repetition, and adjacency is symmetric. *)
Definition well_formed (g : Graph) : Prop :=
  NoDup (nodes g)
  ∧ dom (adj g) = list_to_set (nodes g)
  ∧ map_Forall (λ n l,
      NoDup l ∧ Forall (λ m, n ∈ default [] (adj g !! m)) l) (adj g).

#[global] Instance well_formed_dec (g : Graph) : Decision (well_formed g).
Proof. unfold well_formed. apply _. Defined.

(** A simple graph has no self-loop. *)
Definition simple (g : Graph) : Prop :=
  well_formed g ∧ map_Forall (λ n l, n ∉ l) (adj g).

#[global] Instance simple_dec (g : Graph) : Decision (simple g).
Proof. unfold simple. apply _. Defined.

(** Every node carries the attribute 'color'. *)
Definition coloured (g : Graph) : Prop :=
  Forall (λ n, is_Some (color g !! n)) (nodes g).

#[global] Instance coloured_dec (g : Graph) : Decision (coloured g).
Proof. unfold coloured. apply _. Defined.

(** The generator after one draw. *)
Definition next (r : RNG) : RNG := {| tape := tape r; rpos := S (rpos r) |}.

(** The number of neighbours of [n] whose colour is the colour of [n]. *)
Definition conflicts (g : Graph) (n : node) : Z :=
  Z.of_nat (length (filter (λ m, color g !! m = color g !! n)
                           (default [] (adj g !! n)))).

(** Both references point into the store, at different objects. *)
Definition valid (s : AntSolver) : Prop :=
  (self_g s < length (heap s))%nat
  ∧ (self_best s < length (heap s))%nat
  ∧ self_g s ≠ self_best s.

(** The palette [random_node_coloring] draws from. *)
Definition palette (d : Z) (n : option Z) : Z :=
  match n with
  | None => d + 1
  | Some k => if decide (k > d + 1) then d + 1 else k
  end.

(** What an ant step or a sequence of ant steps leaves unchanged. *)
Definition same_frame (s s' : AntSolver) : Prop :=
  cfg s' = cfg s ∧ self_g s' = self_g s ∧ self_best s' = self_best s
  ∧ self_i s' = self_i s ∧ self_cost_best s' = self_cost_best s
  ∧ self_first_best s' = self_first_best s
  ∧ length (heap s') = length (heap s)
  ∧ ∀ x, x ≠ self_g s → heap s' !! x = heap s !! x.

(** The states a run goes through are linked by sweeps. *)
Fixpoint sweeps_from (s : AntSolver) (tr : list AntSolver) : Prop :=
  match tr with
  | [] => True
  | s1 :: tr' => (∃ r r', sweep s r = Ok (s1, r')) ∧ sweeps_from s1 tr'
  end.

(** The state changes of a run: [solve] resets [self.i], a sweep resets
    [self._ant_i], runs the ant steps, and ends with the improvement
    check. *)
Inductive step : AntSolver → AntSolver → Prop :=
  | step_start (s : AntSolver) : step s (set_i s 0)
  | step_reset (s : AntSolver) : step s (set_ant_i s 0)
  | step_ant (s s' : AntSolver) (ant : nat) (r r' : RNG) :
      ant_step s ant r = Ok (s', r') → step s s'
  | step_sweep (s s' : AntSolver) (r r' : RNG) :
      sweep s r = Ok (s', r') → step s s'.

(** From [s] to [s'], [self.g] is the same reference, every object of the
    store other than the live graph is as it was, and the best reference and
    cost are the same unless the best cost went strictly down. *)
Definition extends (s s' : AntSolver) : Prop :=
  self_g s' = self_g s
  ∧ (length (heap s) ≤ length (heap s'))%nat
  ∧ (∀ x, x ≠ self_g s → (x < length (heap s))%nat →
          heap s' !!! x = heap s !!! x)
  ∧ (self_best s' = self_best s ∧ self_cost_best s' = self_cost_best s
     ∨ self_cost_best s' < self_cost_best s).

(** Construction followed by [solve], on one generator. *)
Definition run (fuel : nat) (g : Graph) (nc : option Z) (na : Z)
    (pre : bool) (p_c p_n : Q) (mi : Z) (mt : Q) (o2 vb : bool)
    (r : RNG) (k : Clock) : res (list AntSolver * outcome) :=
  '(s, r') ← __init__ g nc na pre p_c p_n mi mt o2 vb r;
  mret (solve fuel s r' k).




(** The exceptions of the library calls made at construction. *)
Definition library_error (e : exn) : Prop :=
  e = ValueError ∨ e = KeyError ∨ e = NetworkXError.

(** Every exception the computation can raise satisfies [P]. *)
Definition res_raises {A} (P : exn → Prop) (m : res A) : Prop :=
  ∀ e, m = Raise e → P e.

(** The same, for a computation that draws random numbers. *)
Definition M_raises {A} (P : exn → Prop) (m : M A) : Prop :=
  ∀ r e, m r = Raise e → P e.

(** A graph given by its node order, adjacency lists and colours, with no
    cached cost yet. *)
Definition mk_graph (ns : list node) (a : list (node * list node))
    (c : list (node * Z)) : Graph :=
  {| nodes := ns; adj := list_to_map a; color := list_to_map c; cost := ∅ |}.


(** The triangle on 0, 1, 2, coloured 0, 0, 1. *)
Definition triangle : Graph :=
  mk_graph [0; 1; 2] [(0, [1; 2]); (1, [0; 2]); (2, [0; 1])]
           [(0, 0); (1, 0); (2, 1)].

(** One edge between the nodes named 10 and 20. *)
Definition edge_10_20 : Graph :=
  mk_graph [10; 20] [(10, [20]); (20, [10])] [(10, 0); (20, 0)].

(** A generator whose raw draws are 3, 10, 17, ... *)
Definition rng0 : RNG := {| tape := λ n, Z.of_nat (7 * n + 3); rpos := 0 |}.

(** A clock whose successive readings are [step] seconds apart. *)
Definition clock_every (step : Z) : Clock :=
  {| ticks := λ n, inject_Z (step * Z.of_nat n); cpos := 0 |}.

(** A parameter outside the bounds the interface documents. *)
Definition out_of_bounds (nc : option Z) (na : Z) (p_c p_n : Q) : Prop :=
  (∃ k, nc = Some k ∧ k < 1)
  ∨ na < 1
  ∨ ¬ (0 < p_c ∧ p_c < 1)%Q
  ∨ ¬ (0 < p_n ∧ p_n < 1)%Q.

(** The neighbour list of [n], empty if [n] is not a node. *)
Definition nb (g : Graph) (n : node) : list node := default [] (adj g !! n).

(** [m] has the colour of [n]. *)
Abbreviation mono g n m := (color g !! m = color g !! n).

(** The number of neighbours of [n] outside [seen] sharing its colour. *)
Definition fresh_conflicts (g : Graph) (seen : list node) (n : node) : Z :=
  Z.of_nat (length (filter (λ m, (m ∉ seen) ∧ mono g n m) (nb g n))).

(** Every cached cost is the number of neighbours sharing the node's
    colour. *)
Definition costs_cached (g : Graph) : Prop :=
  ∀ n, n ∈ nodes g → cost g !! n = Some (conflicts g n).

(** The edges of the graph, each reported once, from the endpoint that comes
    first in the node order, as [g.edges()] does. *)
Fixpoint edges_from (g : Graph) (seen ns : list node) : list (node * node) :=
  match ns with
  | [] => []
  | n :: ns' =>
      ((λ m, (n, m)) <$> filter (λ m, m ∉ seen) (default [] (adj g !! n)))
      ++ edges_from g (n :: seen) ns'
  end.

(** [g.edges()] *)
Definition edges (g : Graph) : list (node * node) :=
  edges_from g [] (nodes g).

(** The number of edges whose endpoints have the same colour. *)
Definition conflicting_edges (g : Graph) : Z :=
  Z.of_nat (length (filter (λ e, color g !! e.2 = color g !! e.1) (edges g))).

(** The invariant of the live graph of a solver constructed on [g]. *)
Definition cost_inv (g : Graph) (s : AntSolver) : Prop :=
  valid s
  ∧ nodes (live s) = nodes g ∧ adj (live s) = adj g
  ∧ costs_cached (live s).

(** The triangle with the cached costs of its colouring. *)
Definition triangle_cached : Graph :=
  {| nodes := nodes triangle; adj := adj triangle; color := color triangle;
     cost := list_to_map [(0, 1); (1, 1); (2, 0)] |}.

(** The solver constructed on the triangle, and the generator after it. *)
Definition triangle_init : res (AntSolver * RNG) :=
  __init__ triangle (Some 2) 2 true (4 # 5) (4 # 5) 1 (5 # 1) false true rng0.

(** The constructed solver; the second branch is never taken
    ([triangle_init_Ok]). *)
Definition triangle_solver : AntSolver :=
  match triangle_init with
  | Ok (s, _) => s
  | Raise _ =>
      {| cfg := {| order_2 := false; verbose := false; max_time := 0;
                   n_colors := 0; max_iters := 0; n_ants := 0;
                   pc := 0; pn := 0 |};
         heap := []; self_g := 0; self_best := 0; self_i := 0;
         self_ants := []; self_cost_best := 0; self_curr_cost := 0;
         self_first_best := 0; self_ant_i := 0 |}
  end.

(** The generator as construction leaves it. *)
Definition triangle_rng : RNG :=
  match triangle_init with
  | Ok (_, r) => r
  | Raise _ => rng0
  end.

(** The solver after one sweep. *)
Definition triangle_swept : AntSolver :=
  match sweep triangle_solver triangle_rng with
  | Ok (s, _) => s
  | Raise _ => triangle_solver
  end.

(** The first random number an ant step draws. *)
Definition first_uniform (r : RNG) : Q :=
  Qmake (tape r (rpos r) mod 9007199254740992) 9007199254740992.

(** The best snapshot of a solver constructed on [g] is a graph on the
    nodes and edges of [g] whose cached costs are right and sum to
    [cost_best]. *)
Definition best_inv (g : Graph) (s : AntSolver) : Prop :=
  nodes (snapshot s) = nodes g ∧ adj (snapshot s) = adj g
  ∧ costs_cached (snapshot s)
  ∧ total_cost (snapshot s) = Ok (self_cost_best s).

(** Every node of [g] has a colour of [0, nc) in the live graph. *)
Definition colours_in_range (g : Graph) (nc : Z) (s : AntSolver) : Prop :=
  (self_g s < length (heap s))%nat
  ∧ n_colors (cfg s) = nc
  ∧ ∀ n, n ∈ nodes g →
         ∃ c, color (live s) !! n = Some c ∧ 0 ≤ c < nc.

(** There are [n_ants] ants and each stands on a node of [g]. *)
Definition ants_on_nodes (g : Graph) (s : AntSolver) : Prop :=
  (self_g s < length (heap s))%nat
  ∧ adj (live s) = adj g
  ∧ length (self_ants s) = Z.to_nat (n_ants (cfg s))
  ∧ Forall (λ a, is_Some (adj g !! a)) (self_ants s).



(** The exceptions an ant step can raise in a library call, an index or the
    conversion of a node name for the array of ants. *)
Definition step_error (e : exn) : Prop :=
  e = ValueError ∨ e = KeyError ∨ e = IndexError ∨ e = NetworkXError
  ∨ e = OverflowError.

(** The conflicts, among the neighbours [nbrs] of a node, between
    neighbours that are adjacent to each other: the part of the local
    potential that does not depend on the colour of the node. *)
Definition conflicts_among (g : Graph) (nbrs : list node) : Z :=
  zsum ((λ m, Z.of_nat (length
           (filter (λ x, x ∈ nbrs ∧ color g !! x = color g !! m) (nb g m))))
        <$> nbrs).

(** Node 0 has no neighbour; 1 and 2 are joined; only 2 has a colour. *)
Definition lonely : Graph :=
  mk_graph [0; 1; 2] [(0, []); (1, [2]); (2, [1])] [(2, 0)].

(** Two nodes and no edge. *)
Definition two_isolated : Graph :=
  mk_graph [0; 1] [(0, []); (1, [])] [(0, 0); (1, 0)].

(** A solver whose only ant stands on the node 0 of [lonely]. *)
Definition stranded : AntSolver :=
  {| cfg := {| order_2 := false; verbose := false; max_time := 5 # 1;
               n_colors := 2; max_iters := 10; n_ants := 1;
               pc := 4 # 5; pn := 4 # 5 |};
     heap := [lonely; lonely]; self_g := 0; self_best := 1; self_i := 0;
     self_ants := [0]; self_cost_best := 2; self_curr_cost := 2;
     self_first_best := 2; self_ant_i := 0 |}.

(** Two neighbours of node 0 whose names do not fit in one integer dtype:
    -1 and 2^63 + 1.  The colours are 0, 1, 0 and the cached costs are the
    conflict levels. *)
Definition wide_names : Graph :=
  {| nodes := [0; -1; 9223372036854775809];
     adj := list_to_map [(0, [-1; 9223372036854775809]); (-1, [0]);
                         (9223372036854775809, [0])];
     color := list_to_map [(0, 0); (-1, 1); (9223372036854775809, 0)];
     cost := list_to_map [(0, 1); (-1, 0); (9223372036854775809, 1)] |}.

(** One edge between the nodes named 0 and 2^63. *)
Definition big_name : Graph :=
  mk_graph [0; 9223372036854775808]
           [(0, [9223372036854775808]); (9223372036854775808, [0])]
           [(0, 0); (9223372036854775808, 0)].

(** * Properties *)

(** ** Reasoning in the two monads *)

Lemma res_bind_Ok {A B} (f : A → res B) (m : res A) (b : B) :
  m ≫= f = Ok b ↔ ∃ a, m = Ok a ∧ f a = Ok b.
Proof.
  destruct m as [a|e]; simpl; split.
  - intros Hf. by exists a.
  - by intros (a' & [= <-] & Hf).
  - done.
  - by intros (a' & [=] & _).
Qed.

Lemma M_bind_Ok {A B} (f : A → M B) (m : M A) (r r' : RNG) (b : B) :
  (m ≫= f) r = Ok (b, r') ↔ ∃ a r1, m r = Ok (a, r1) ∧ f a r1 = Ok (b, r').
Proof.
  unfold mbind, M_bind. destruct (m r) as [[a r1]|e]; split.
  - intros Hf. by exists a, r1.
  - by intros (a' & r1' & [= <- <-] & Hf).
  - done.
  - by intros (a' & r1' & [=] & _).
Qed.

Lemma lift_Ok {A} (x : res A) (r r' : RNG) (a : A) :
  lift x r = Ok (a, r') ↔ x = Ok a ∧ r' = r.
Proof.
  unfold lift. destruct x as [a'|e]; split.
  - by intros [= <- <-].
  - by intros [[= <-] ->].
  - done.
  - by intros [[=] _].
Qed.

Lemma M_ret_Ok {A} (a b : A) (r r' : RNG) :
  (mret a : M A) r = Ok (b, r') ↔ b = a ∧ r' = r.
Proof.
  unfold mret, M_ret. split; [by intros [= <- <-] | by intros [-> ->]].
Qed.

(** Decompose a successful monadic computation into its successful steps. *)
Ltac inv_ok :=
  repeat match goal with
  | H : _ ≫= _ = Ok _ |- _ =>
      apply res_bind_Ok in H; destruct H as (? & ? & H)
  | H : (_ ≫= _) _ = Ok _ |- _ =>
      apply M_bind_Ok in H; destruct H as (? & ? & ? & H)
  | H : lift _ _ = Ok _ |- _ =>
      apply lift_Ok in H; destruct H as [H ?]; subst
  | H : mret _ _ = Ok _ |- _ =>
      apply M_ret_Ok in H; destruct H as [? ?]; subst
  | H : mret _ = Ok _ |- _ => inversion H; subst; clear H
  | H : Ok _ = Ok _ |- _ => inversion H; subst; clear H
  | H : (_, _) = (_, _) |- _ => inversion H; subst; clear H
  | H : Raise _ = Ok _ |- _ => discriminate H
  end.

Lemma mapM_res_Ok {A B} (f : A → res B) (l : list A) (k : list B) :
  mapM f l = Ok k ↔ Forall2 (λ x y, f x = Ok y) l k.
Proof.
  revert k. induction l as [|x l IH]; intros k; simpl.
  - split; [intros Hk; inversion Hk; constructor | by inversion 1].
  - split.
    + intros H. inv_ok. constructor; [done|]. by apply IH.
    + inversion 1 as [|? y ? k' Hx Hl]; subst.
      rewrite Hx. simpl. apply IH in Hl. by rewrite Hl.
Qed.

Lemma mapM_res_total {A B} (f : A → res B) (v : A → B) (l : list A) :
  (∀ x, x ∈ l → f x = Ok (v x)) → mapM f l = Ok (v <$> l).
Proof.
  intros Hf. apply mapM_res_Ok. induction l as [|x l IH]; simpl; constructor.
  - apply Hf. by left.
  - apply IH. intros y Hy. apply Hf. by right.
Qed.

(** ** [argmax] and [argmin] return the first extremal index *)

Lemma argmax_from_spec (pre l : list Z) (bi : nat) (b : Z) :
  pre !! bi = Some b →
  (∀ j x, pre !! j = Some x → x ≤ b) →
  (∀ j x, (j < bi)%nat → pre !! j = Some x → x < b) →
  first_max (pre ++ l) (argmax_from bi b (length pre) l).
Proof.
  revert pre bi b. induction l as [|x l IH]; intros pre bi b Hb Hle Hlt; simpl.
  - rewrite app_nil_r. by exists b.
  - replace (pre ++ x :: l) with ((pre ++ [x]) ++ l) by by rewrite <- app_assoc.
    replace (S (length pre)) with (length (pre ++ [x]))
      by (rewrite length_app; simpl; lia).
    case_decide as Hx.
    + apply IH.
      * rewrite lookup_app_r by lia. by rewrite Nat.sub_diag.
      * intros j y Hj. apply lookup_app_Some in Hj as [Hj|[_ Hj]].
        -- specialize (Hle _ _ Hj). lia.
        -- apply list_lookup_singleton_Some in Hj as [_ <-]. lia.
      * intros j y Hlt' Hj.
        apply lookup_app_Some in Hj as [Hj|[Hge Hj]].
        -- specialize (Hle _ _ Hj). lia.
        -- apply list_lookup_singleton_Some in Hj as [? _]. lia.
    + apply IH.
      * apply lookup_app_l_Some. done.
      * intros j y Hj. apply lookup_app_Some in Hj as [Hj|[_ Hj]].
        -- by eapply Hle.
        -- apply list_lookup_singleton_Some in Hj as [_ <-]. lia.
      * intros j y Hlt' Hj. apply lookup_app_Some in Hj as [Hj|[Hge Hj]].
        -- by eapply Hlt.
        -- apply lookup_lt_Some in Hb. lia.
Qed.

Lemma argmax_spec (l : list Z) :
  l ≠ [] → ∃ k, argmax l = Ok k ∧ first_max l k.
Proof.
  destruct l as [|x l]; [done|]. intros _. eexists. split; [done|].
  apply (argmax_from_spec [x] l 0 x).
  - done.
  - intros j y Hj. apply list_lookup_singleton_Some in Hj as [_ <-]. lia.
  - intros; lia.
Qed.

Lemma argmin_from_spec (pre l : list Z) (bi : nat) (b : Z) :
  pre !! bi = Some b →
  (∀ j x, pre !! j = Some x → b ≤ x) →
  (∀ j x, (j < bi)%nat → pre !! j = Some x → b < x) →
  first_min (pre ++ l) (argmin_from bi b (length pre) l).
Proof.
  revert pre bi b. induction l as [|x l IH]; intros pre bi b Hb Hle Hlt; simpl.
  - rewrite app_nil_r. by exists b.
  - replace (pre ++ x :: l) with ((pre ++ [x]) ++ l) by by rewrite <- app_assoc.
    replace (S (length pre)) with (length (pre ++ [x]))
      by (rewrite length_app; simpl; lia).
    case_decide as Hx.
    + apply IH.
      * rewrite lookup_app_r by lia. by rewrite Nat.sub_diag.
      * intros j y Hj. apply lookup_app_Some in Hj as [Hj|[_ Hj]].
        -- specialize (Hle _ _ Hj). lia.
        -- apply list_lookup_singleton_Some in Hj as [_ <-]. lia.
      * intros j y Hlt' Hj.
        apply lookup_app_Some in Hj as [Hj|[Hge Hj]].
        -- specialize (Hle _ _ Hj). lia.
        -- apply list_lookup_singleton_Some in Hj as [? _]. lia.
    + apply IH.
      * apply lookup_app_l_Some. done.
      * intros j y Hj. apply lookup_app_Some in Hj as [Hj|[_ Hj]].
        -- by eapply Hle.
        -- apply list_lookup_singleton_Some in Hj as [_ <-]. lia.
      * intros j y Hlt' Hj. apply lookup_app_Some in Hj as [Hj|[Hge Hj]].
        -- by eapply Hlt.
        -- apply lookup_lt_Some in Hb. lia.
Qed.

Lemma argmin_spec (l : list Z) :
  l ≠ [] → ∃ k, argmin l = Ok k ∧ first_min l k.
Proof.
  destruct l as [|x l]; [done|]. intros _. eexists. split; [done|].
  apply (argmin_from_spec [x] l 0 x).
  - done.
  - intros j y Hj. apply list_lookup_singleton_Some in Hj as [_ <-]. lia.
  - intros; lia.
Qed.

(** ** numpy arrays of integers that fit in int64 *)

Lemma np_array_int64 (xs : list Z) : Forall int64 xs → np_array xs = xs.
Proof.
  intros Hall. unfold np_array. rewrite decide_False; [done|].
  intros (_ & _ & Hex). apply Exists_exists in Hex as (z & Hin & Hz).
  apply Hz. by eapply Forall_forall in Hall.
Qed.

Lemma np_array2_int64 (rows : list (node * Z)) :
  Forall int64 rows.*1 → Forall int64 rows.*2 → np_array2 rows = rows.
Proof.
  intros H1 H2. unfold np_array2. rewrite decide_False; [done|].
  intros (_ & _ & Hex). apply Exists_exists in Hex as (z & Hin & Hz).
  apply Hz. apply elem_of_app in Hin as [Hin|Hin].
  - by eapply Forall_forall in H1.
  - by eapply Forall_forall in H2.
Qed.

Lemma np_array_length (xs : list Z) : length (np_array xs) = length xs.
Proof. unfold np_array. case_decide; [by rewrite length_fmap|done]. Qed.


Lemma setitem_int64_Ok (v w : Z) :
  setitem_int64 v = Ok w → w = v ∧ int64 v.
Proof. unfold setitem_int64. case_decide; [|done]. by intros [= <-]. Qed.

(** ** [worst_adjacent_node] *)

Lemma worst_adjacent_node_rows (g : Graph) (o2 : bool) (nbrs : list node)
    (mval : node → Z) :
  (∀ m, m ∈ nbrs → metric g o2 m = Ok (mval m)) →
  mapM (λ nei, c ← (if o2 then local_potential g nei else get_cost g nei);
               mret (nei, c)) nbrs
  = Ok ((λ m, (m, mval m)) <$> nbrs).
Proof.
  intros Hm. apply mapM_res_total. intros m Hin.
  specialize (Hm m Hin). unfold metric in Hm. by rewrite Hm.
Qed.

Lemma worst_adjacent_node_exact (nbrs : list node) (mval : node → Z) :
  (∀ m, m ∈ nbrs → int64 m ∧ int64 (mval m)) →
  np_array2 ((λ m, (m, mval m)) <$> nbrs) = (λ m, (m, mval m)) <$> nbrs.
Proof.
  intros Hfit. apply np_array2_int64.
  - rewrite <- list_fmap_compose. apply Forall_fmap, Forall_forall.
    intros m Hm. by apply Hfit.
  - rewrite <- list_fmap_compose. apply Forall_fmap, Forall_forall.
    intros m Hm. by apply Hfit.
Qed.

(** C7 fails as stated: on [wide_names] the rows (-1, 0) and (2^63 + 1, 1)
    make a float64 array, and [worst_adjacent_node] returns 2^63 (the double
    nearest to 2^63 + 1), which is no neighbour of node 0. *)
Lemma C7_counterexample :
  ¬ (∀ (g : Graph) (n0 : node) (o2 : bool) (nbrs : list node)
       (mval : node → Z),
       adj g !! n0 = Some nbrs →
       nbrs ≠ [] →
       (∀ m, m ∈ nbrs → metric g o2 m = Ok (mval m)) →
       ∃ (k : nat) (n1 : node),
         worst_adjacent_node g n0 o2 = Ok n1
         ∧ nbrs !! k = Some n1
         ∧ (∀ m, m ∈ nbrs → mval m ≤ mval n1)
         ∧ (∀ j m, (j < k)%nat → nbrs !! j = Some m → mval m < mval n1)).
Proof.
  intros Hclaim.
  destruct (Hclaim wide_names 0 false [-1; 9223372036854775809]
              (λ m, default 0 (cost wide_names !! m)))
    as (k & n1 & Hres & Hk & _).
  - reflexivity.
  - discriminate.
  - intros m Hm.
    apply elem_of_cons in Hm as [-> | Hm]; [reflexivity|].
    apply elem_of_cons in Hm as [-> | Hm]; [reflexivity|].
    by apply elem_of_nil in Hm.
  - vm_compute in Hres. injection Hres as <-.
    destruct k as [|[|k]]; simpl in Hk; discriminate Hk.
Qed.

(** C7, as the code has it: for a node with a non-empty neighbour list whose
    neighbours all have a cost metric (the cached cost, or the local
    potential in order-2 mode), when the names of the neighbours and their
    metrics fit in int64, [worst_adjacent_node] returns the neighbour at the
    first position, in iteration order, at which the metric is maximal. *)
Theorem C7_worst_adjacent_node_first_max (g : Graph) (n0 : node) (o2 : bool)
    (nbrs : list node) (mval : node → Z) :
  adj g !! n0 = Some nbrs →
  nbrs ≠ [] →
  (∀ m, m ∈ nbrs → metric g o2 m = Ok (mval m)) →
  (∀ m, m ∈ nbrs → int64 m ∧ int64 (mval m)) →
  ∃ (k : nat) (n1 : node),
    worst_adjacent_node g n0 o2 = Ok n1
    ∧ nbrs !! k = Some n1
    ∧ (∀ m, m ∈ nbrs → mval m ≤ mval n1)
    ∧ (∀ j m, (j < k)%nat → nbrs !! j = Some m → mval m < mval n1).
Proof.
  intros Hadj Hne Hm Hfit.
  unfold worst_adjacent_node, neighbors. rewrite Hadj. simpl.
  rewrite (worst_adjacent_node_rows g o2 nbrs mval Hm).
  unfold mbind at 1, res_bind at 1. cbv zeta.
  rewrite (worst_adjacent_node_exact nbrs mval Hfit).
  destruct (argmax_spec (mval <$> nbrs)) as (k & Hk & v & Hv & Hmax & Hfirst).
  { by destruct nbrs. }
  apply list_lookup_fmap_Some in Hv as (n1 & -> & Hn1).
  exists k, n1.
  assert (((λ m : node, (m, mval m)) <$> nbrs).*2 = mval <$> nbrs) as Hsnd.
  { rewrite <- list_fmap_compose. done. }
  split; [|split; [done|split]].
  - unfold node in *. rewrite Hsnd, Hk. unfold mbind, res_bind.
    rewrite list_lookup_fmap, Hn1. by destruct nbrs.
  - intros m Hin. apply list_elem_of_lookup in Hin as [j Hj].
    apply (Hmax j). by rewrite list_lookup_fmap, Hj.
  - intros j m Hlt Hj. apply (Hfirst j); [done|].
    by rewrite list_lookup_fmap, Hj.
Qed.

(** ** [change_to_best] *)

Lemma filter_all {A} (P : A → Prop) `{∀ x, Decision (P x)} (l : list A) :
  (∀ x, x ∈ l → P x) → filter P l = l.
Proof.
  induction l as [|x l IH]; intros HP; [done|].
  rewrite filter_cons_True by (apply HP; by left).
  f_equal. apply IH. intros y Hy. apply HP. by right.
Qed.

Lemma filter_ext_elem {A} (P Q : A → Prop)
    `{∀ x, Decision (P x)} `{∀ x, Decision (Q x)} (l : list A) :
  (∀ x, x ∈ l → P x ↔ Q x) → filter P l = filter Q l.
Proof.
  induction l as [|x l IH]; intros HPQ; [done|].
  assert (filter P l = filter Q l) as Hl.
  { apply IH. intros y Hy. apply HPQ. by right. }
  destruct (decide (P x)) as [HP|HP].
  - rewrite !filter_cons_True; [by rewrite Hl | | done].
    apply HPQ; [by left | done].
  - rewrite !filter_cons_False; [done | | done].
    intros HQ. apply HP. apply HPQ; [by left | done].
Qed.

Lemma zsum_indicator {A} (P : A → Prop) `{∀ x, Decision (P x)} (l : list A) :
  zsum ((λ x, if decide (P x) then 1 else 0) <$> l)
  = Z.of_nat (length (filter P l)).
Proof.
  induction l as [|x l IH]; [done|].
  rewrite fmap_cons. simpl zsum. rewrite IH.
  destruct (decide (P x)).
  - rewrite filter_cons_True by done. simpl length. lia.
  - rewrite filter_cons_False by done. lia.
Qed.

Lemma set_color_recolor (g : Graph) (n : node) (c : Z) :
  is_Some (adj g !! n) → set_color g n c = Ok (recolor g n c).
Proof. intros [l Hl]. unfold set_color. by rewrite Hl. Qed.

Lemma recolor_recolor (g : Graph) (n : node) (c c' : Z) :
  recolor (recolor g n c) n c' = recolor g n c'.
Proof. unfold recolor. simpl. by rewrite insert_insert_eq. Qed.

Lemma subgraph_adj_self (g : Graph) (ant : node) (nbrs : list node) :
  adj g !! ant = Some nbrs →
  adj (subgraph g (ant :: nbrs)) !! ant = Some nbrs.
Proof.
  intros Hadj. unfold subgraph. simpl.
  rewrite lookup_fmap.
  rewrite (map_lookup_filter_Some_2 _ (adj g) ant nbrs Hadj).
  - simpl. f_equal. apply filter_all. intros m Hm. by right.
  - simpl. by left.
Qed.

Lemma conflict_level_trial (g : Graph) (ant : node) (nbrs : list node)
    (c : Z) :
  adj g !! ant = Some nbrs →
  ant ∉ nbrs →
  (∀ m, m ∈ nbrs → is_Some (color g !! m)) →
  conflict_level (subgraph (recolor g ant c) (ant :: nbrs)) ant
  = Ok (colored_with g nbrs c).
Proof.
  intros Hadj Hself Hcol. unfold conflict_level, neighbors.
  rewrite (subgraph_adj_self (recolor g ant c) ant nbrs Hadj). simpl.
  rewrite (mapM_res_total _
             (λ m, if decide (color g !! m = Some c) then 1 else 0)).
  - simpl. unfold colored_with. by rewrite zsum_indicator.
  - intros m Hm. unfold same_color, get_color. simpl.
    rewrite lookup_insert_eq. simpl.
    rewrite lookup_insert_ne by (intros ->; done).
    destruct (Hcol m Hm) as [cm Hcm]. rewrite Hcm. simpl.
    f_equal. repeat case_decide; congruence.
Qed.

Lemma colored_with_recolor (g : Graph) (ant : node) (nbrs : list node)
    (c c' : Z) :
  ant ∉ nbrs → colored_with (recolor g ant c) nbrs c' = colored_with g nbrs c'.
Proof.
  intros Hself. unfold colored_with. f_equal. f_equal.
  apply filter_ext_elem. intros m Hm. simpl.
  rewrite lookup_insert_ne by (intros ->; done). done.
Qed.

Lemma res_bind_ok_l {A B} (f : A → res B) (a : A) : Ok a ≫= f = f a.
Proof. done. Qed.

Lemma try_colors_cons (g : Graph) (nbunch : list node) (ant : node)
    (o2 : bool) (c : Z) (cs : list Z) :
  try_colors g nbunch ant o2 (c :: cs)
  = (g1 ← set_color g ant c;
     k ← (if o2 then local_potential (subgraph g1 nbunch) ant
          else conflict_level (subgraph g1 nbunch) ant);
     '(g2, ks) ← try_colors g1 nbunch ant o2 cs;
     mret (g2, k :: ks)).
Proof. done. Qed.

Lemma last_cons_default {A} (l : list A) (x d : A) :
  List.last (x :: l) d = List.last l x.
Proof.
  revert x d. induction l as [|y l IH]; intros x d; [done|].
  change (List.last (x :: y :: l) d) with (List.last (y :: l) d).
  rewrite IH. symmetry. apply IH.
Qed.

Lemma try_colors_conflicts (g : Graph) (ant : node) (nbrs : list node)
    (c0 : Z) (cs : list Z) :
  adj g !! ant = Some nbrs →
  ant ∉ nbrs →
  (∀ m, m ∈ nbrs → is_Some (color g !! m)) →
  try_colors g (ant :: nbrs) ant false (c0 :: cs)
  = Ok (recolor g ant (List.last cs c0), colored_with g nbrs <$> (c0 :: cs)).
Proof.
  revert g c0. induction cs as [|c1 cs IH]; intros g c0 Hadj Hself Hcol.
  - rewrite try_colors_cons, set_color_recolor by (by rewrite Hadj).
    rewrite res_bind_ok_l, conflict_level_trial by done. done.
  - rewrite try_colors_cons, set_color_recolor by (by rewrite Hadj).
    rewrite res_bind_ok_l, conflict_level_trial by done.
    rewrite res_bind_ok_l, IH; [| done | done |].
    + rewrite res_bind_ok_l. unfold mret, res_ret.
      rewrite recolor_recolor, last_cons_default. do 2 f_equal.
      rewrite !fmap_cons. f_equal.
      rewrite colored_with_recolor by done. f_equal.
      apply list_fmap_ext. intros _ c _. by rewrite colored_with_recolor.
    + intros m Hm. simpl. rewrite lookup_insert_ne by (intros ->; done).
      by apply Hcol.
Qed.

Lemma arange_lookup (n : Z) (j : nat) (x : Z) :
  arange n !! j = Some x ↔ x = Z.of_nat j ∧ (j < Z.to_nat n)%nat.
Proof.
  unfold arange. rewrite list_lookup_fmap_Some. split.
  - intros (i & -> & Hi). apply lookup_seq in Hi as [-> Hlt]. done.
  - intros [-> Hlt]. exists j. split; [done|]. by apply lookup_seq.
Qed.

Lemma arange_elem_of (n x : Z) : x ∈ arange n ↔ 0 ≤ x < n.
Proof.
  rewrite list_elem_of_lookup. split.
  - intros [j Hj]. apply arange_lookup in Hj as [-> Hlt]. lia.
  - intros Hx. exists (Z.to_nat x). apply arange_lookup. lia.
Qed.

Lemma arange_cons (n : Z) :
  1 ≤ n → arange n = 0 :: (Z.of_nat <$> seq 1 (Z.to_nat n - 1)).
Proof.
  intros Hn. unfold arange.
  replace (Z.to_nat n) with (S (Z.to_nat n - 1)) at 1 by lia. done.
Qed.

(** C6: with order-2 mode disabled, on a node [ant] that is not its own
    neighbour and whose neighbours are all coloured, [change_to_best] with
    [n_colors >= 1] recolours [ant], and nothing else, with the smallest
    colour [c] of [0, n_colors) minimising the number of neighbours that
    have colour [c] in the graph as it was before the trials. *)
Theorem C6_change_to_best_smallest_minimizer (g : Graph) (n_colors : Z)
    (ant : node) (nbrs : list node) :
  1 ≤ n_colors →
  adj g !! ant = Some nbrs →
  ant ∉ nbrs →
  (∀ m, m ∈ nbrs → is_Some (color g !! m)) →
  ∃ c : Z,
    change_to_best g n_colors ant false = Ok (recolor g ant c)
    ∧ 0 ≤ c < n_colors
    ∧ (∀ c', 0 ≤ c' < n_colors →
             colored_with g nbrs c ≤ colored_with g nbrs c')
    ∧ (∀ c', 0 ≤ c' < c →
             colored_with g nbrs c < colored_with g nbrs c').
Proof.
  intros Hn Hadj Hself Hcol.
  destruct (argmin_spec (colored_with g nbrs <$> arange n_colors))
    as (k & Hk & v & Hv & Hmin & Hfirst).
  { rewrite arange_cons by done. done. }
  apply list_lookup_fmap_Some in Hv as (c & -> & Hc).
  apply arange_lookup in Hc as [-> Hlt].
  exists (Z.of_nat k). split; [|split; [lia|split]].
  - unfold change_to_best, neighbors. rewrite Hadj, res_bind_ok_l.
    rewrite arange_cons at 1 by done.
    rewrite try_colors_conflicts by done.
    rewrite <- arange_cons by done.
    rewrite res_bind_ok_l. cbv beta iota. rewrite Hk, res_bind_ok_l.
    rewrite set_color_recolor by (simpl; by rewrite Hadj).
    by rewrite recolor_recolor.
  - intros c' Hc'. apply (Hmin (Z.to_nat c')).
    apply list_lookup_fmap_Some. exists c'. split; [done|].
    apply arange_lookup. lia.
  - intros c' Hc'. apply (Hfirst (Z.to_nat c')); [lia|].
    apply list_lookup_fmap_Some. exists c'. split; [done|].
    apply arange_lookup. lia.
Qed.

(** ** Well-formed graphs *)

Lemma well_formed_node (g : Graph) (n : node) :
  well_formed g → n ∈ nodes g ↔ is_Some (adj g !! n).
Proof.
  intros (_ & Hdom & _). rewrite <- elem_of_dom, Hdom.
  by rewrite elem_of_list_to_set.
Qed.

Lemma well_formed_sym (g : Graph) (n m : node) (l : list node) :
  well_formed g → adj g !! n = Some l → m ∈ l →
  ∃ l', adj g !! m = Some l' ∧ n ∈ l'.
Proof.
  intros (_ & _ & Hall) Hn Hm.
  destruct (Hall n l Hn) as [_ Hsym].
  rewrite Forall_forall in Hsym. specialize (Hsym m Hm).
  destruct (adj g !! m) as [l'|]; simpl in Hsym.
  - by exists l'.
  - by apply elem_of_nil in Hsym.
Qed.

Lemma well_formed_nbr_node (g : Graph) (n m : node) (l : list node) :
  well_formed g → adj g !! n = Some l → m ∈ l → m ∈ nodes g.
Proof.
  intros Hwf Hn Hm. apply well_formed_node; [done|].
  destruct (well_formed_sym g n m l Hwf Hn Hm) as (l' & -> & _). done.
Qed.

Lemma well_formed_nbrs_NoDup (g : Graph) (n : node) (l : list node) :
  well_formed g → adj g !! n = Some l → NoDup l.
Proof. intros (_ & _ & Hall) Hn. by destruct (Hall n l Hn). Qed.

(** ** The random source *)

Lemma choice_in {A} (a : list A) (r : RNG) :
  a ≠ [] → ∃ x, choice a r = Ok (x, next r) ∧ x ∈ a.
Proof.
  destruct a as [|x0 a']; [done|]. intros _.
  set (a := x0 :: a').
  assert (0 < Z.of_nat (length a)) as Hlen by (unfold a; simpl; lia).
  pose proof (Z.mod_pos_bound (tape r (rpos r)) (Z.of_nat (length a)) Hlen)
    as Hmod.
  destruct (lookup_lt_is_Some_2 a
              (Z.to_nat (tape r (rpos r) mod Z.of_nat (length a))))
    as [x Hx]; [lia|].
  exists x. split.
  - unfold choice, a, mbind, M_bind, draw. fold a. simpl.
    change (S (length a')) with (length a). rewrite Hx. done.
  - by eapply list_elem_of_lookup_2.
Qed.

Lemma py_max_spec (l : list Z) (d : Z) :
  py_max l = Ok d → d ∈ l ∧ ∀ x, x ∈ l → x ≤ d.
Proof.
  destruct l as [|x l]; [done|]. simpl. intros [= <-].
  revert x. induction l as [|y l IH]; intros x.
  - simpl. split; [by left|]. intros z Hz.
    apply list_elem_of_singleton in Hz as ->. lia.
  - simpl. destruct (IH (Z.max x y)) as [Hin Hle]. split.
    + apply elem_of_cons in Hin as [Heq|Hin].
      * rewrite Heq. destruct (Z.max_spec x y) as [[_ ->]|[_ ->]].
        -- right. by left.
        -- by left.
      * right. by right.
    + intros z Hz.
      assert (Z.max x y ≤ foldl Z.max (Z.max x y) l) as Hm
        by (apply Hle; by left).
      apply elem_of_cons in Hz as [->|Hz]; [lia|].
      apply elem_of_cons in Hz as [->|Hz]; [lia|].
      apply Hle. by right.
Qed.

Lemma py_max_total (l : list Z) : l ≠ [] → ∃ d, py_max l = Ok d.
Proof. destruct l; [done|]. intros _. by eexists. Qed.

Lemma degree_values_nonneg (g : Graph) (d : Z) :
  d ∈ degree_values g → 0 ≤ d.
Proof.
  unfold degree_values. intros (n & -> & _)%list_elem_of_fmap.
  simpl. case_decide; lia.
Qed.

(** ** [random_node_coloring] *)

Lemma color_nodes_spec (colors : list Z) (ns : list node) (g : Graph)
    (r : RNG) :
  colors ≠ [] →
  (∀ n, n ∈ ns → is_Some (adj g !! n)) →
  ∃ g' r',
    color_nodes g colors ns r = Ok (g', r')
    ∧ nodes g' = nodes g ∧ adj g' = adj g ∧ cost g' = cost g
    ∧ (∀ n, n ∈ ns → ∃ c, color g' !! n = Some c ∧ c ∈ colors)
    ∧ (∀ n, n ∉ ns → color g' !! n = color g !! n).
Proof.
  intros Hne. revert g r. induction ns as [|n ns IH]; intros g r Hadj.
  - exists g, r. repeat split; try done. intros n Hn. by apply elem_of_nil in Hn.
  - destruct (choice_in colors r Hne) as (c & Hc & Hin).
    destruct (IH (recolor g n c) (next r)) as
      (g' & r' & Hrun & Hn' & Ha' & Hc' & Hcol & Hrest).
    { intros m Hm. simpl. apply Hadj. by right. }
    exists g', r'. split; [|repeat split; try done].
    + simpl. unfold mbind at 1, M_bind. rewrite Hc.
      unfold mbind at 1, M_bind.
      rewrite set_color_recolor by (apply Hadj; by left). simpl. done.
    + intros m Hm. destruct (decide (m ∈ ns)) as [Hns|Hns].
      * by apply Hcol.
      * apply elem_of_cons in Hm as [->|Hm]; [|done].
        exists c. rewrite (Hrest n Hns). simpl.
        by rewrite lookup_insert_eq.
    + intros m Hm. apply not_elem_of_cons in Hm as [Hne' Hm].
      rewrite (Hrest m Hm). simpl. by rewrite lookup_insert_ne.
Qed.

Lemma random_node_coloring_capped (g : Graph) (n d : Z) (r : RNG) :
  well_formed g →
  py_max (degree_values g) = Ok d →
  n > d + 1 →
  ∃ g' r',
    random_node_coloring g (Some n) r = Ok (g', r')
    ∧ nodes g' = nodes g ∧ adj g' = adj g ∧ cost g' = cost g
    ∧ ∀ v, v ∈ nodes g → ∃ c, color g' !! v = Some c ∧ 0 ≤ c < d + 1.
Proof.
  intros Hwf Hd Hn.
  destruct (py_max_spec _ _ Hd) as [Hin _].
  apply degree_values_nonneg in Hin.
  destruct (color_nodes_spec (arange (d + 1)) (nodes g) g r)
    as (g' & r' & Hrun & Hn' & Ha' & Hc' & Hcol & _).
  { rewrite arange_cons by lia. done. }
  { intros v Hv. by apply well_formed_node. }
  exists g', r'. split; [|repeat split; try done].
  - unfold random_node_coloring, mbind at 1, M_bind. rewrite Hd. simpl.
    rewrite decide_True by done. done.
  - intros v Hv. destruct (Hcol v Hv) as (c & Hc & Hrange).
    exists c. split; [done|]. by apply arange_elem_of.
Qed.

(** ** [conflict_level] counts the neighbours sharing the node's colour *)

Lemma same_color_Ok (g : Graph) (n m : node) (f : Z) :
  same_color g n m = Ok f →
  is_Some (color g !! n) ∧ is_Some (color g !! m)
  ∧ f = (if decide (color g !! m = color g !! n) then 1 else 0).
Proof.
  unfold same_color, get_color. intros H.
  destruct (color g !! n) as [cn|]; [|done].
  destruct (color g !! m) as [cm|]; [|done].
  simpl in H. inv_ok. repeat split; try done.
  repeat case_decide; congruence.
Qed.

Lemma mapM_same_color_Ok (g : Graph) (n : node) (l : list node)
    (flags : list Z) :
  mapM (same_color g n) l = Ok flags →
  zsum flags
  = Z.of_nat (length (filter (λ m, color g !! m = color g !! n) l)).
Proof.
  intros H%mapM_res_Ok. rewrite <- zsum_indicator.
  induction H as [|m f l flags Hm _ IH]; [done|].
  rewrite fmap_cons. simpl zsum. rewrite IH. f_equal.
  by apply same_color_Ok in Hm as (_ & _ & ->).
Qed.

Lemma conflict_level_Ok (g : Graph) (n : node) (k : Z) :
  conflict_level g n = Ok k → k = conflicts g n.
Proof.
  unfold conflict_level, neighbors, conflicts. intros H.
  destruct (adj g !! n) as [l|]; [|done].
  rewrite res_bind_ok_l in H. inv_ok. simpl.
  by apply mapM_same_color_Ok.
Qed.

Lemma conflict_level_total (g : Graph) (n : node) (l : list node) :
  adj g !! n = Some l →
  (l ≠ [] → is_Some (color g !! n)) →
  (∀ m, m ∈ l → is_Some (color g !! m)) →
  conflict_level g n = Ok (conflicts g n).
Proof.
  intros Hadj Hn Hl.
  assert (∃ k, conflict_level g n = Ok k) as [k Hk].
  { unfold conflict_level, neighbors. rewrite Hadj, res_bind_ok_l.
    rewrite (mapM_res_total _
               (λ m, if decide (color g !! m = color g !! n) then 1 else 0)).
    - by eexists.
    - intros m Hm. unfold same_color, get_color.
      destruct Hn as [cn Hcn]; [intros ->; by apply elem_of_nil in Hm|].
      destruct (Hl m Hm) as [cm Hcm]. rewrite Hcn, Hcm. simpl.
      f_equal. repeat case_decide; congruence. }
  rewrite Hk. f_equal. by apply conflict_level_Ok.
Qed.

Lemma conflict_level_coloured (g : Graph) (n : node) :
  well_formed g → coloured g → n ∈ nodes g →
  conflict_level g n = Ok (conflicts g n).
Proof.
  intros Hwf Hcol Hn. unfold coloured in Hcol. rewrite Forall_forall in Hcol.
  destruct (proj1 (well_formed_node g n Hwf) Hn) as [l Hl].
  apply (conflict_level_total g n l Hl).
  - intros _. by apply Hcol.
  - intros m Hm. apply Hcol. by eapply well_formed_nbr_node.
Qed.

Lemma conflict_level_ext (g1 g2 : Graph) (n : node) :
  adj g1 = adj g2 → color g1 = color g2 →
  conflict_level g1 n = conflict_level g2 n.
Proof.
  destruct g1, g2. simpl. intros -> ->. reflexivity.
Qed.

Lemma conflicts_ext (g1 g2 : Graph) (n : node) :
  adj g1 = adj g2 → color g1 = color g2 → conflicts g1 n = conflicts g2 n.
Proof. unfold conflicts. by intros -> ->. Qed.

(** ** Refreshing cached costs *)

Lemma set_cost_Ok (g g' : Graph) (n : node) (k : Z) :
  set_cost g n k = Ok g' →
  nodes g' = nodes g ∧ adj g' = adj g ∧ color g' = color g
  ∧ cost g' = <[n:=k]> (cost g).
Proof.
  unfold set_cost. destruct (adj g !! n); [|done]. by intros [= <-].
Qed.

Lemma set_color_Ok (g g' : Graph) (n : node) (c : Z) :
  set_color g n c = Ok g' → g' = recolor g n c ∧ is_Some (adj g !! n).
Proof.
  unfold set_color. destruct (adj g !! n); [|done]. by intros [= <-].
Qed.

Lemma refresh_costs_Ok (ns : list node) (g g' : Graph) :
  refresh_costs g ns = Ok g' →
  nodes g' = nodes g ∧ adj g' = adj g ∧ color g' = color g
  ∧ (∀ n, n ∈ ns → cost g' !! n = Some (conflicts g n))
  ∧ (∀ n, n ∉ ns → cost g' !! n = cost g !! n).
Proof.
  revert g. induction ns as [|n ns IH]; intros g H.
  - simpl in H. inv_ok. repeat split; try done.
    intros n Hn. by apply elem_of_nil in Hn.
  - simpl in H. inv_ok.
    match goal with Hc : conflict_level _ _ = _ |- _ =>
      apply conflict_level_Ok in Hc as -> end.
    match goal with Hs : set_cost _ _ _ = _ |- _ =>
      apply set_cost_Ok in Hs as (Hn1 & Ha1 & Hc1 & Hk1) end.
    apply IH in H as (Hn2 & Ha2 & Hc2 & Hin & Hout).
    repeat split; try congruence.
    + intros m Hm. destruct (decide (m ∈ ns)) as [Hns|Hns].
      * rewrite (Hin m Hns). f_equal. by apply conflicts_ext.
      * apply elem_of_cons in Hm as [->|Hm]; [|done].
        rewrite (Hout n Hns), Hk1. by rewrite lookup_insert_eq.
    + intros m Hm. apply not_elem_of_cons in Hm as [Hne Hm].
      rewrite (Hout m Hm), Hk1. by rewrite lookup_insert_ne.
Qed.

Lemma refresh_costs_total (ns : list node) (g : Graph) :
  (∀ n, n ∈ ns → ∃ k, conflict_level g n = Ok k) →
  ∃ g', refresh_costs g ns = Ok g'.
Proof.
  revert g. induction ns as [|n ns IH]; intros g Hall; [by eexists|].
  destruct (Hall n) as [k Hk]; [by left|].
  assert (is_Some (adj g !! n)) as [l Hl].
  { unfold conflict_level, neighbors in Hk.
    destruct (adj g !! n); [done|discriminate]. }
  simpl. rewrite Hk, res_bind_ok_l. unfold set_cost. rewrite Hl.
  rewrite res_bind_ok_l. apply IH. intros m Hm.
  destruct (Hall m) as [k' Hk']; [by right|]. exists k'.
  rewrite <- Hk'. by apply conflict_level_ext.
Qed.

Lemma total_cost_cached (g : Graph) :
  (∀ n, n ∈ nodes g → cost g !! n = Some (conflicts g n)) →
  total_cost g = Ok (zsum (conflicts g <$> nodes g)).
Proof.
  intros Hc. unfold total_cost.
  rewrite (mapM_res_total _ (conflicts g)); [done|].
  intros n Hn. unfold get_cost. by rewrite (Hc n Hn).
Qed.

Lemma choice_Ok {A} (a : list A) (r r' : RNG) (x : A) :
  choice a r = Ok (x, r') → x ∈ a ∧ r' = next r.
Proof.
  intros H. destruct a as [|x0 a']; [done|].
  destruct (choice_in (x0 :: a') r) as (y & Hy & Hin); [done|].
  rewrite Hy in H. by injection H as <- <-.
Qed.

Lemma color_nodes_Ok (colors : list Z) (ns : list node) (g g' : Graph)
    (r r' : RNG) :
  color_nodes g colors ns r = Ok (g', r') →
  nodes g' = nodes g ∧ adj g' = adj g ∧ cost g' = cost g
  ∧ (∀ n, n ∈ ns → ∃ c, color g' !! n = Some c ∧ c ∈ colors)
  ∧ (∀ n, n ∉ ns → color g' !! n = color g !! n).
Proof.
  revert g r. induction ns as [|n ns IH]; intros g r H.
  - simpl in H. inv_ok. repeat split; try done.
    intros n Hn. by apply elem_of_nil in Hn.
  - simpl in H. inv_ok.
    match goal with Hc : choice _ _ = _ |- _ =>
      apply choice_Ok in Hc as [Hin ->] end.
    match goal with Hs : set_color _ _ _ = _ |- _ =>
      apply set_color_Ok in Hs as [-> _] end.
    apply IH in H as (Hn' & Ha' & Hc' & Hcol & Hrest).
    repeat split; try done.
    + intros m Hm. destruct (decide (m ∈ ns)) as [Hns|Hns].
      * by apply Hcol.
      * apply elem_of_cons in Hm as [->|Hm]; [|done].
        eexists. rewrite (Hrest n Hns). simpl.
        by rewrite lookup_insert_eq.
    + intros m Hm. apply not_elem_of_cons in Hm as [Hne' Hm].
      rewrite (Hrest m Hm). simpl. by rewrite lookup_insert_ne.
Qed.

(** ** Placement of the ants *)

Lemma swap_Permutation {A} (l : list A) (i j : nat) : swap l i j ≡ₚ l.
Proof.
  unfold swap. destruct (l !! i) as [x|] eqn:Hi; [|done].
  destruct (l !! j) as [y|] eqn:Hj; [|done].
  by apply Permutation_insert_swap.
Qed.

Lemma shuffle_Permutation {A} (i : nat) (l : list A) (r : RNG) :
  ∃ l' r', shuffle i l r = Ok (l', r') ∧ l' ≡ₚ l.
Proof.
  revert l r. induction i as [|i IH]; intros l r.
  - exists l, r. done.
  - destruct (IH (swap l (S i)
                    (Z.to_nat (tape r (rpos r) `mod` (Z.of_nat (S i) + 1))))
                 (next r)) as (l' & r' & Hrun & Hperm).
    exists l', r'. split.
    + rewrite <- Hrun. reflexivity.
    + rewrite Hperm. apply swap_Permutation.
Qed.

Lemma omap_lookup_arange (n : Z) (idx : list nat) :
  (∀ i, i ∈ idx → (i < Z.to_nat n)%nat) →
  omap (λ i, arange n !! i) idx = Z.of_nat <$> idx.
Proof.
  induction idx as [|i idx IH]; intros Hlt; [done|].
  rewrite fmap_cons. simpl.
  assert (arange n !! i = Some (Z.of_nat i)) as ->.
  { apply arange_lookup. split; [done|]. apply Hlt. by left. }
  f_equal. apply IH. intros j Hj. apply Hlt. by right.
Qed.

Lemma length_arange (n : Z) : length (arange n) = Z.to_nat n.
Proof. unfold arange. by rewrite length_fmap, length_seq. Qed.

Lemma choice_no_replace_arange (n : Z) (r : RNG) :
  1 ≤ n →
  ∃ l r', choice_no_replace (arange n) n r = Ok (l, r') ∧ l ≡ₚ arange n.
Proof.
  intros Hn.
  destruct (shuffle_Permutation (length (arange n) - 1)
              (seq 0 (length (arange n))) r) as (idx & r' & Hrun & Hperm).
  exists (Z.of_nat <$> idx), r'. split.
  - unfold choice_no_replace.
    destruct (arange n) as [|x a'] eqn:Ha.
    { rewrite arange_cons in Ha by lia. done. }
    rewrite <- Ha in *.
    rewrite decide_False by lia.
    rewrite decide_False by (rewrite length_arange; lia).
    unfold mbind, M_bind. rewrite Hrun. unfold mret, M_ret. do 2 f_equal.
    rewrite take_ge.
    + apply omap_lookup_arange. intros i Hi. rewrite Hperm in Hi.
      apply elem_of_seq in Hi. rewrite length_arange in Hi. lia.
    + apply Permutation_length in Hperm.
      rewrite Hperm, length_seq, length_arange. lia.
  - rewrite Hperm, length_arange. done.
Qed.

(** ** The store of graph objects *)

Lemma live_set_live (s : AntSolver) (g : Graph) :
  (self_g s < length (heap s))%nat → live (set_live s g) = g.
Proof. intros Hg. unfold live. simpl. by apply list_lookup_total_insert_eq. Qed.

Lemma snapshot_set_live (s : AntSolver) (g : Graph) :
  self_g s ≠ self_best s → snapshot (set_live s g) = snapshot s.
Proof.
  intros Hne. unfold snapshot. simpl. by apply list_lookup_total_insert_ne.
Qed.

Lemma valid_set_live (s : AntSolver) (g : Graph) :
  valid s → valid (set_live s g).
Proof. unfold valid. simpl. by rewrite length_insert. Qed.

Lemma live_record_best (s : AntSolver) (c : Z) :
  (self_g s < length (heap s))%nat → live (record_best s c) = live s.
Proof. intros Hg. unfold live. simpl. by apply lookup_total_app_l. Qed.

Lemma snapshot_record_best (s : AntSolver) (c : Z) :
  snapshot (record_best s c) = live s.
Proof.
  unfold snapshot, live. simpl. by apply list_lookup_total_middle.
Qed.

Lemma valid_record_best (s : AntSolver) (c : Z) :
  valid s → valid (record_best s c).
Proof.
  unfold valid. simpl. rewrite length_app. simpl. lia.
Qed.

Lemma init_solver_Ok (s s' : AntSolver) (r r' : RNG) :
  init_solver s r = Ok (s', r') →
  (self_g s < length (heap s))%nat →
  ∃ ants g' c,
    choice_no_replace (arange (n_ants (cfg s))) (n_ants (cfg s)) r
      = Ok (ants, r')
    ∧ refresh_costs (live s) (nodes (live s)) = Ok g'
    ∧ total_cost g' = Ok c
    ∧ s' = {| cfg := cfg s;
              heap := <[self_g s := g']> (heap s) ++ [g'];
              self_g := self_g s; self_best := length (heap s);
              self_i := self_i s; self_ants := ants;
              self_cost_best := c; self_curr_cost := c;
              self_first_best := c; self_ant_i := self_ant_i s |}.
Proof.
  intros H Hg. unfold init_solver, copy in H. inv_ok.
  match goal with Hc : choice_no_replace _ _ _ = Ok (?a, _) |- _ =>
    exists a end.
  match goal with Hc : refresh_costs _ _ = Ok ?g |- _ =>
    exists g; rename Hc into Hrefresh end.
  match goal with Hc : total_cost _ = Ok ?c |- _ =>
    exists c; rename Hc into Htotal end.
  simpl in *. rewrite length_insert in *.
  rewrite lookup_total_app_l in Htotal by (by rewrite length_insert).
  rewrite list_lookup_total_insert_eq in Htotal by done.
  rewrite list_lookup_total_insert_eq by done.
  repeat split; done.
Qed.

Lemma init_solver_total (s : AntSolver) (r : RNG) :
  (self_g s < length (heap s))%nat →
  1 ≤ n_ants (cfg s) →
  well_formed (live s) →
  coloured (live s) →
  ∃ s' r', init_solver s r = Ok (s', r').
Proof.
  intros Hg Hants Hwf Hcol.
  destruct (choice_no_replace_arange (n_ants (cfg s)) r Hants)
    as (ants & r' & Hants' & _).
  destruct (refresh_costs_total (nodes (live s)) (live s)) as [g' Hg'].
  { intros n Hn. eexists. by apply conflict_level_coloured. }
  destruct (refresh_costs_Ok _ _ _ Hg') as (Hn' & Ha' & Hc' & Hin & _).
  assert (total_cost g' = Ok (zsum (conflicts g' <$> nodes g'))) as Htot.
  { apply total_cost_cached. intros n Hn. rewrite Hn' in Hn.
    rewrite (Hin n Hn). f_equal. symmetry. by apply conflicts_ext. }
  eexists _, r'. unfold init_solver, copy.
  unfold mbind at 1, M_bind. rewrite Hants'.
  unfold mbind at 1, M_bind. unfold live in Hg'. simpl. unfold live.
  change (heap (set_ants s ants)) with (heap s).
  change (self_g (set_ants s ants)) with (self_g s).
  rewrite Hg'. simpl.
  unfold mbind at 1, M_bind.
  rewrite lookup_total_app_l by (by rewrite length_insert).
  rewrite list_lookup_total_insert_eq by done.
  rewrite Htot. simpl. reflexivity.
Qed.

(** ** Construction *)

(** What a successful construction has done. *)
Lemma init_Ok (g : Graph) (nc : option Z) (na : Z) (pre : bool) (p_c p_n : Q)
    (mi : Z) (mt : Q) (o2 vb : bool) (r r' : RNG) (s : AntSolver) :
  __init__ g nc na pre p_c p_n mi mt o2 vb r = Ok (s, r') →
  ∃ d g1 g2 c,
    py_max (degree_values g) = Ok d
    ∧ (if pre then g1 = g
       else ∃ r1, random_node_coloring g (Some (from_option id (d + 1) nc)) r
                  = Ok (g1, r1))
    ∧ refresh_costs g1 (nodes g1) = Ok g2
    ∧ total_cost g2 = Ok c
    ∧ (∃ r0, choice_no_replace (arange (Z.min na (number_of_nodes g)))
               (Z.min na (number_of_nodes g)) r0 = Ok (self_ants s, r'))
    ∧ cfg s = {| order_2 := o2; verbose := vb; max_time := mt;
                 n_colors := from_option id (d + 1) nc; max_iters := mi;
                 n_ants := Z.min na (number_of_nodes g);
                 pc := p_c; pn := p_n |}
    ∧ live s = g2 ∧ snapshot s = g2 ∧ valid s
    ∧ self_i s = 0
    ∧ self_cost_best s = c ∧ self_curr_cost s = c ∧ self_first_best s = c.
Proof.
  intros H. unfold __init__, copy in H. inv_ok.
  match goal with Hd : py_max _ = Ok ?d |- _ => exists d end.
  destruct pre; inv_ok.
  - apply init_solver_Ok in H as (ants & g2 & c & Hants & Href & Htot & ->);
      [|simpl; lia].
    exists g, g2, c. unfold live, snapshot, valid in *. simpl in *.
    repeat split; try done; try lia. by eexists.
  - apply init_solver_Ok in H as (ants & g2 & c & Hants & Href & Htot & ->);
      [|simpl; lia].
    match goal with Hc : random_node_coloring _ _ _ = Ok (?g1, _) |- _ =>
      exists g1 end.
    exists g2, c. unfold live, snapshot, valid in *. simpl in *.
    repeat split; try done; try lia; by eexists.
Qed.

Lemma well_formed_ext (g1 g2 : Graph) :
  nodes g1 = nodes g2 → adj g1 = adj g2 → well_formed g1 → well_formed g2.
Proof. unfold well_formed. by intros -> ->. Qed.

Lemma random_node_coloring_total (g : Graph) (n : option Z) (d : Z)
    (r : RNG) :
  well_formed g →
  py_max (degree_values g) = Ok d →
  1 ≤ palette d n →
  ∃ g' r',
    random_node_coloring g n r = Ok (g', r')
    ∧ nodes g' = nodes g ∧ adj g' = adj g ∧ cost g' = cost g
    ∧ ∀ v, v ∈ nodes g → ∃ c, color g' !! v = Some c ∧ 0 ≤ c < palette d n.
Proof.
  intros Hwf Hd Hn.
  destruct (color_nodes_spec (arange (palette d n)) (nodes g) g r)
    as (g' & r' & Hrun & Hn' & Ha' & Hc' & Hcol & _).
  { rewrite arange_cons by lia. done. }
  { intros v Hv. by apply well_formed_node. }
  exists g', r'. split; [|repeat split; try done].
  - unfold random_node_coloring, mbind at 1, M_bind. rewrite Hd. done.
  - intros v Hv. destruct (Hcol v Hv) as (c & Hc & Hrange).
    exists c. split; [done|]. by apply arange_elem_of.
Qed.

Lemma degree_values_nonempty (g : Graph) :
  nodes g ≠ [] → degree_values g ≠ [].
Proof. unfold degree_values. by destruct (nodes g). Qed.

Lemma init_total_pre_colored (g : Graph) (nc : option Z) (na : Z)
    (p_c p_n : Q) (mi : Z) (mt : Q) (o2 vb : bool) (r : RNG) :
  well_formed g → coloured g → nodes g ≠ [] → 1 ≤ na →
  ∃ s r', __init__ g nc na true p_c p_n mi mt o2 vb r = Ok (s, r').
Proof.
  intros Hwf Hcol Hne Hna.
  destruct (py_max_total (degree_values g)) as [d Hd];
    [by apply degree_values_nonempty|].
  unfold __init__, copy. unfold mbind at 1, M_bind. rewrite Hd. simpl.
  apply init_solver_total; simpl; try done; try lia.
  unfold number_of_nodes. destruct (nodes g); [done|]. simpl length. lia.
Qed.

Lemma init_total_random (g : Graph) (nc : option Z) (na : Z)
    (p_c p_n : Q) (mi : Z) (mt : Q) (o2 vb : bool) (r : RNG) :
  well_formed g → nodes g ≠ [] → 1 ≤ na →
  (∀ k, nc = Some k → 1 ≤ k) →
  ∃ s r', __init__ g nc na false p_c p_n mi mt o2 vb r = Ok (s, r').
Proof.
  intros Hwf Hne Hna Hnc.
  destruct (py_max_total (degree_values g)) as [d Hd];
    [by apply degree_values_nonempty|].
  assert (0 ≤ d) as Hd0.
  { destruct (py_max_spec _ _ Hd) as [Hin _].
    by apply degree_values_nonneg in Hin. }
  destruct (random_node_coloring_total g (Some (from_option id (d + 1) nc))
              d r Hwf Hd)
    as (g1 & r1 & Hrun & Hn1 & Ha1 & Hc1 & Hcol).
  { simpl. destruct nc as [k|]; simpl.
    - specialize (Hnc k eq_refl). case_decide; lia.
    - case_decide; lia. }
  unfold __init__, copy. unfold mbind at 1, M_bind. rewrite Hd. simpl.
  unfold mbind at 1, M_bind. unfold mbind at 1, M_bind.
  rewrite Hrun. simpl.
  apply init_solver_total; simpl; try done; try lia.
  - unfold number_of_nodes. destruct (nodes g); [done|]. simpl length. lia.
  - by apply (well_formed_ext g).
  - unfold coloured, live. simpl. rewrite Hn1. apply Forall_forall.
    intros v Hv. destruct (Hcol v Hv) as (c & -> & _). done.
Qed.

(** C10: when the requested number of colours [n] exceeds
    [max degree + 1], [random_node_coloring] colours every node below
    [max degree + 1]; a solver constructed with [pre_colored = False] and
    such an [n] starts from a colouring below [max degree + 1] while its
    [n_colors] attribute is the requested [n]. *)
Theorem C10_palette_capped (g : Graph) (n d : Z) :
  well_formed g →
  py_max (degree_values g) = Ok d →
  n > d + 1 →
  (∀ r, ∃ g' r',
      random_node_coloring g (Some n) r = Ok (g', r')
      ∧ ∀ v, v ∈ nodes g → ∃ c, color g' !! v = Some c ∧ 0 ≤ c < d + 1)
  ∧ (∀ na p_c p_n mi mt o2 vb r, 1 ≤ na →
      ∃ s r',
        __init__ g (Some n) na false p_c p_n mi mt o2 vb r = Ok (s, r')
        ∧ n_colors (cfg s) = n
        ∧ ∀ v, v ∈ nodes g →
               ∃ c, color (live s) !! v = Some c ∧ 0 ≤ c < d + 1).
Proof.
  intros Hwf Hd Hn.
  assert (0 ≤ d) as Hd0.
  { destruct (py_max_spec _ _ Hd) as [Hin _].
    by apply degree_values_nonneg in Hin. }
  assert (palette d (Some n) = d + 1) as Hpal.
  { simpl. by rewrite decide_True. }
  assert (∀ r, ∃ g' r',
      random_node_coloring g (Some n) r = Ok (g', r')
      ∧ ∀ v, v ∈ nodes g → ∃ c, color g' !! v = Some c ∧ 0 ≤ c < d + 1)
    as Hrand.
  { intros r.
    destruct (random_node_coloring_total g (Some n) d r Hwf Hd)
      as (g' & r' & Hrun & _ & _ & _ & Hcol); [lia|].
    rewrite Hpal in Hcol. by exists g', r'. }
  split; [done|].
  intros na p_c p_n mi mt o2 vb r Hna.
  assert (nodes g ≠ []) as Hne.
  { intros Hnil. unfold degree_values in Hd. by rewrite Hnil in Hd. }
  destruct (init_total_random g (Some n) na p_c p_n mi mt o2 vb r Hwf Hne Hna)
    as (s & r' & Hs).
  { intros k [= <-]. lia. }
  exists s, r'. split; [done|].
  apply init_Ok in Hs
    as (d' & g1 & g2 & c & Hd' & [r1 Hg1] & Href & _ & _ & Hcfg & Hlive & _).
  rewrite Hd in Hd'. injection Hd' as <-. simpl in Hg1.
  split; [by rewrite Hcfg|].
  destruct (Hrand r) as (g' & r'' & Hrun & Hcol).
  rewrite Hrun in Hg1. injection Hg1 as <- <-.
  apply refresh_costs_Ok in Href as (_ & _ & Hc2 & _).
  rewrite Hlive, Hc2. done.
Qed.

(** ** One ant step, one sweep *)

Lemma ant_step_Ok (s s' : AntSolver) (ant : nat) (r r' : RNG) :
  ant_step s ant r = Ok (s', r') →
  ∃ n0 n1 g',
    self_ants s !! ant = Some n0
    ∧ move_and_color (cfg s) (live s) n0 r = Ok ((n1, g'), r')
    ∧ s' = set_ant_i (set_live (set_ants s (<[ant:=n1]> (self_ants s))) g')
                     (self_ant_i s + 1).
Proof.
  intros H. unfold ant_step in H. inv_ok.
  match goal with Hm : move_and_color _ _ _ _ = Ok (?p, _) |- _ =>
    destruct p as [n1 g'] end.
  inv_ok.
  match goal with Hf : from_option _ _ _ = Ok ?n |- _ =>
    rename Hf into Hidx end.
  destruct (self_ants s !! ant) as [n0|] eqn:Hn0; simpl in *; [|done].
  inv_ok. eexists _, n1, g'. by repeat split.
Qed.

Lemma same_frame_refl (s : AntSolver) : same_frame s s.
Proof. by repeat split. Qed.

Lemma same_frame_trans (s1 s2 s3 : AntSolver) :
  same_frame s1 s2 → same_frame s2 s3 → same_frame s1 s3.
Proof.
  intros (Hc & Hg & Hb & Hi & Hcb & Hfb & Hl & Hh)
         (Hc' & Hg' & Hb' & Hi' & Hcb' & Hfb' & Hl' & Hh').
  repeat split; try congruence.
  intros x Hx. rewrite Hh' by congruence. by apply Hh.
Qed.

Lemma ant_step_frame (s s' : AntSolver) (ant : nat) (r r' : RNG) :
  ant_step s ant r = Ok (s', r') → same_frame s s'.
Proof.
  intros (n0 & n1 & g' & _ & _ & ->)%ant_step_Ok.
  repeat split; simpl; try done.
  - by rewrite length_insert.
  - intros x Hx. by rewrite list_lookup_insert_ne.
Qed.

Lemma for_ants_frame (rng : list nat) (s s' : AntSolver) (r r' : RNG) :
  for_ants s rng r = Ok (s', r') → same_frame s s'.
Proof.
  revert s r. induction rng as [|ant rng IH]; intros s r H.
  - simpl in H. inv_ok. apply same_frame_refl.
  - simpl in H. inv_ok.
    eapply same_frame_trans; [by eapply ant_step_frame | by eapply IH].
Qed.

Lemma sweep_Ok (s s' : AntSolver) (r r' : RNG) :
  sweep s r = Ok (s', r') →
  ∃ s1 c,
    for_ants (set_ant_i s 0) (seq 0 (Z.to_nat (n_ants (cfg s)))) r
      = Ok (s1, r')
    ∧ total_cost (live s1) = Ok c
    ∧ s' = (if decide (c < self_cost_best s1)
            then record_best (set_curr_cost s1 c) c
            else set_curr_cost s1 c).
Proof.
  intros H. unfold sweep in H. inv_ok.
  match goal with Hf : for_ants _ _ _ = Ok (?s1, _) |- _ => exists s1 end.
  match goal with Hf : total_cost _ = Ok ?c |- _ => exists c end.
  by repeat split.
Qed.

Lemma solve_loop_sweeps (fuel : nat) (tic : Q) (s : AntSolver) (r : RNG)
    (k : Clock) (tr : list AntSolver) (o : outcome) :
  solve_loop fuel tic s r k = (tr, o) → sweeps_from s tr.
Proof.
  revert s r k tr o. induction fuel as [|fuel IH]; intros s r k tr o H.
  - simpl in H. by injection H as <- <-.
  - simpl in H.
    destruct (negb (bool_decide (self_cost_best s > 0)));
      [by injection H as <- <-|].
    destruct (negb (bool_decide (self_i s < max_iters (cfg s))));
      [by injection H as <- <-|].
    destruct (negb (Qltb _ _)); [by injection H as <- <-|].
    destruct (sweep s r) as [[s1 r1]|e] eqn:Hsweep;
      [|by injection H as <- <-].
    destruct (bool_decide (self_cost_best s1 = 0)).
    { injection H as <- <-. simpl. split; [by eexists _, _|done]. }
    destruct (Qltb _ _).
    { injection H as <- <-. simpl. split; [by eexists _, _|done]. }
    destruct (solve_loop fuel tic s1 r1 _) as [tr' o'] eqn:Hrec.
    injection H as <- <-. simpl. split; [by eexists _, _|].
    by eapply IH.
Qed.

Lemma solve_sweeps (fuel : nat) (s : AntSolver) (r : RNG) (k : Clock)
    (tr : list AntSolver) (o : outcome) :
  solve fuel s r k = (tr, o) → sweeps_from (set_i s 0) tr.
Proof. unfold solve. simpl. apply solve_loop_sweeps. Qed.

(** What a completed sweep does to the solver. *)
Lemma sweep_step (s s' : AntSolver) (r r' : RNG) :
  sweep s r = Ok (s', r') →
  valid s →
  valid s'
  ∧ cfg s' = cfg s ∧ self_g s' = self_g s ∧ self_i s' = self_i s
  ∧ total_cost (live s') = Ok (self_curr_cost s')
  ∧ (∀ x, x ≠ self_g s → (x < length (heap s))%nat →
          heap s' !!! x = heap s !!! x)
  ∧ (if decide (self_curr_cost s' < self_cost_best s)
     then self_cost_best s' = self_curr_cost s'
          ∧ snapshot s' = live s'
          ∧ self_best s' = length (heap s)
     else self_cost_best s' = self_cost_best s
          ∧ self_best s' = self_best s).
Proof.
  intros (s1 & c & Hants & Htot & ->)%sweep_Ok (Hg & Hb & Hne).
  apply for_ants_frame in Hants
    as (Hc1 & Hg1 & Hb1 & Hi1 & Hcb1 & _ & Hl1 & Hh1).
  simpl in *.
  assert (valid s1) as Hv1 by (unfold valid; rewrite Hg1, Hb1, Hl1; done).
  assert (∀ x, x ≠ self_g s → (x < length (heap s))%nat →
               heap s1 !!! x = heap s !!! x) as Hold.
  { intros x Hx Hlt. rewrite !list_lookup_total_alt. by rewrite Hh1. }
  rewrite Hcb1. destruct (decide (c < self_cost_best s)) as [Hlt|Hge].
  - split; [by apply valid_record_best|].
    rewrite live_record_best by (simpl; apply Hv1).
    rewrite snapshot_record_best. simpl.
    rewrite decide_True by done. repeat split; try done.
    intros x Hx Hlt'. rewrite lookup_total_app_l by lia. by apply Hold.
  - unfold set_curr_cost, valid, live in *. simpl.
    rewrite decide_False by done. repeat split; try done; apply Hv1.
Qed.

Lemma sweep_snapshot_tie (s s' : AntSolver) (r r' : RNG) :
  sweep s r = Ok (s', r') →
  valid s →
  ¬ self_curr_cost s' < self_cost_best s →
  snapshot s' = snapshot s.
Proof.
  intros Hs Hv Hge.
  destruct (sweep_step s s' r r' Hs Hv) as (_ & _ & _ & _ & _ & Hold & Hcase).
  rewrite decide_False in Hcase by done. destruct Hcase as [_ Hb].
  destruct Hv as (_ & Hlt & Hne).
  unfold snapshot. rewrite Hb. apply Hold; [congruence | done].
Qed.

Lemma sweeps_from_lookup (tr : list AntSolver) (s sj : AntSolver) (j : nat) :
  sweeps_from s tr → tr !! j = Some sj →
  ∃ prev r r', (s :: tr) !! j = Some prev ∧ sweep prev r = Ok (sj, r').
Proof.
  revert s j. induction tr as [|s1 tr IH]; intros s j Hch Hj; [done|].
  destruct Hch as [(r & r' & Hs) Hch]. destruct j as [|j].
  - injection Hj as <-. by exists s, r, r'.
  - simpl in Hj. destruct (IH s1 j Hch Hj) as (prev & r0 & r0' & Hp & Hs0).
    by exists prev, r0, r0'.
Qed.

Lemma sweeps_from_valid (tr : list AntSolver) (s : AntSolver) :
  sweeps_from s tr → valid s → Forall valid (s :: tr).
Proof.
  revert s. induction tr as [|s1 tr IH]; intros s Hch Hv.
  - constructor; [done | constructor].
  - destruct Hch as [(r & r' & Hs) Hch]. constructor; [done|].
    apply IH; [done|]. by destruct (sweep_step s s1 r r' Hs Hv).
Qed.

Lemma sweeps_from_running_min (tr : list AntSolver) (s sj : AntSolver)
    (j : nat) :
  sweeps_from s tr → valid s → tr !! j = Some sj →
  self_cost_best sj
  = foldl Z.min (self_cost_best s) (self_curr_cost <$> take (S j) tr).
Proof.
  revert s j. induction tr as [|s1 tr IH]; intros s j Hch Hv Hj; [done|].
  destruct Hch as [(r & r' & Hs) Hch].
  destruct (sweep_step s s1 r r' Hs Hv) as (Hv1 & _ & _ & _ & _ & _ & Hcase).
  assert (self_cost_best s1 = Z.min (self_cost_best s) (self_curr_cost s1))
    as Hmin.
  { case_decide; destruct Hcase as [-> _]; lia. }
  destruct j as [|j].
  - injection Hj as <-. simpl. by rewrite Hmin.
  - simpl in Hj. rewrite (IH s1 j Hch Hv1 Hj), Hmin. done.
Qed.

(** ** The retained best *)

(** C5: in a run started on a constructed solver, each sweep ends with
    [curr_cost] equal to the total cost of the live graph; the best snapshot
    is replaced exactly when that cost is strictly below the retained best
    cost and is kept on a tie or a worse cost; so [cost_best] never
    increases from one sweep to the next and is the minimum of the total
    cost at initialization and of the total costs at the end of the sweeps
    completed so far. *)
Theorem C5_cost_best_running_minimum (g : Graph) (nc : option Z) (na : Z)
    (pre : bool) (p_c p_n : Q) (mi : Z) (mt : Q) (o2 vb : bool)
    (r0 r1 r : RNG) (s0 : AntSolver) (fuel : nat) (k : Clock)
    (tr : list AntSolver) (o : outcome) :
  __init__ g nc na pre p_c p_n mi mt o2 vb r0 = Ok (s0, r1) →
  solve fuel s0 r k = (tr, o) →
  total_cost (live s0) = Ok (self_cost_best s0)
  ∧ ∀ j sj, tr !! j = Some sj →
      ∃ prev, (s0 :: tr) !! j = Some prev
      ∧ total_cost (live sj) = Ok (self_curr_cost sj)
      ∧ (if decide (self_curr_cost sj < self_cost_best prev)
         then self_cost_best sj = self_curr_cost sj
              ∧ snapshot sj = live sj
         else self_cost_best sj = self_cost_best prev
              ∧ self_best sj = self_best prev
              ∧ snapshot sj = snapshot prev)
      ∧ self_cost_best sj ≤ self_cost_best prev
      ∧ self_cost_best sj
        = foldl Z.min (self_cost_best s0) (self_curr_cost <$> take (S j) tr).
Proof.
  intros Hinit Hsolve.
  apply init_Ok in Hinit
    as (d & g1 & g2 & c & _ & _ & _ & Htot & _ & _ & Hlive & _ & Hv & _
        & Hcb & _).
  split; [by rewrite Hlive, Hcb|].
  apply solve_sweeps in Hsolve.
  assert (valid (set_i s0 0)) as Hv0 by done.
  intros j sj Hj.
  pose proof (sweeps_from_running_min tr _ sj j Hsolve Hv0 Hj) as Hmin.
  pose proof (sweeps_from_valid tr _ Hsolve Hv0) as Hvalid.
  rewrite Forall_lookup in Hvalid.
  destruct (sweeps_from_lookup tr _ sj j Hsolve Hj)
    as (prev & rp & rp' & Hprev & Hsweep).
  pose proof (Hvalid j prev Hprev) as Hvp.
  destruct (sweep_step prev sj rp rp' Hsweep Hvp)
    as (_ & _ & _ & _ & Htotj & _ & Hcase).
  assert (∃ prev0, (s0 :: tr) !! j = Some prev0
            ∧ self_cost_best prev0 = self_cost_best prev
            ∧ self_best prev0 = self_best prev
            ∧ snapshot prev0 = snapshot prev) as (prev0 & Hp0 & Hcb0 & Hb0 & Hs0).
  { destruct j as [|j'].
    - injection Hprev as <-. by exists s0.
    - by exists prev. }
  exists prev0. rewrite Hcb0, Hb0, Hs0.
  split; [done|]. split; [done|]. split; [|split; [|done]].
  - case_decide.
    + by destruct Hcase as (? & ? & _).
    + destruct Hcase as (? & ?). repeat split; try done.
      by eapply sweep_snapshot_tie.
  - case_decide; destruct Hcase as [-> _]; lia.
Qed.

(** ** Reachable states *)

Lemma extends_refl (s : AntSolver) : extends s s.
Proof. repeat split; try done. by left. Qed.

Lemma extends_trans (s1 s2 s3 : AntSolver) :
  extends s1 s2 → extends s2 s3 → extends s1 s3.
Proof.
  intros (Hg & Hl & Hh & Hb) (Hg' & Hl' & Hh' & Hb').
  repeat split.
  - congruence.
  - lia.
  - intros x Hx Hlt. rewrite Hh' by (try congruence; lia). by apply Hh.
  - destruct Hb as [[Hb1 Hb2]|Hb], Hb' as [[Hb1' Hb2']|Hb'].
    + left. split; congruence.
    + right. lia.
    + right. lia.
    + right. lia.
Qed.

Lemma same_frame_extends (s s' : AntSolver) : same_frame s s' → extends s s'.
Proof.
  intros (_ & Hg & Hb & _ & Hcb & _ & Hl & Hh). repeat split.
  - done.
  - lia.
  - intros x Hx _. rewrite !list_lookup_total_alt. by rewrite Hh.
  - by left.
Qed.

Lemma same_frame_valid (s s' : AntSolver) :
  same_frame s s' → valid s → valid s'.
Proof.
  intros (_ & Hg & Hb & _ & _ & _ & Hl & _). unfold valid.
  by rewrite Hg, Hb, Hl.
Qed.

Lemma step_extends (s s' : AntSolver) :
  step s s' → valid s → valid s' ∧ extends s s'.
Proof.
  intros Hstep Hv. destruct Hstep as [s|s|s s' ant r r' Hant|s s' r r' Hsw].
  - split; [done | repeat split; try done; by left].
  - split; [done | repeat split; try done; by left].
  - apply ant_step_frame in Hant.
    split; [by eapply same_frame_valid | by apply same_frame_extends].
  - destruct (sweep_step s s' r r' Hsw Hv)
      as (Hv' & _ & Hg & _ & _ & Hold & Hcase).
    split; [done|]. repeat split; try done.
    + apply sweep_Ok in Hsw as (s1 & c & Hants & _ & ->).
      apply for_ants_frame in Hants as (_ & _ & _ & _ & _ & _ & Hl & _).
      simpl in Hl. case_decide; simpl; [rewrite length_app|]; lia.
    + case_decide.
      * right. destruct Hcase as (-> & _). done.
      * left. destruct Hcase as (-> & ->). done.
Qed.

Lemma rtc_step_extends (s s' : AntSolver) :
  rtc step s s' → valid s → valid s' ∧ extends s s'.
Proof.
  induction 1 as [s|s s1 s2 Hstep _ IH]; intros Hv.
  - split; [done | apply extends_refl].
  - destruct (step_extends s s1 Hstep Hv) as [Hv1 He1].
    destruct (IH Hv1) as [Hv2 He2].
    split; [done | by eapply extends_trans].
Qed.

Lemma sweeps_from_reachable (tr : list AntSolver) (s : AntSolver) :
  sweeps_from s tr → Forall (rtc step s) tr.
Proof.
  revert s. induction tr as [|s1 tr IH]; intros s Hch; [constructor|].
  destruct Hch as [(r & r' & Hs) Hch].
  assert (step s s1) as Hstep by by eapply step_sweep.
  constructor; [by apply rtc_once|].
  eapply Forall_impl; [by apply IH|].
  intros s2 Hs2. by eapply rtc_l.
Qed.

(** Every state at the end of a sweep of a run is reachable. *)
Lemma solve_trace_reachable (fuel : nat) (s : AntSolver) (r : RNG)
    (k : Clock) (tr : list AntSolver) (o : outcome) :
  solve fuel s r k = (tr, o) → Forall (rtc step s) tr.
Proof.
  intros Hch%solve_sweeps%sweeps_from_reachable.
  eapply Forall_impl; [done|].
  intros s2 Hs2. eapply rtc_l; [apply step_start | done].
Qed.

(** C9: once a best snapshot is recorded, at construction or at any
    reachable state [s], no later state [s'] of the solver, whatever ant
    steps and sweeps lead to it, changes the graph object recorded as best at
    [s] (its colours and its costs), and [self.best] and [self.cost_best]
    are those of [s] unless the best cost has strictly decreased in
    between. *)
Theorem C9_best_snapshot_frame (g : Graph) (nc : option Z) (na : Z)
    (pre : bool) (p_c p_n : Q) (mi : Z) (mt : Q) (o2 vb : bool)
    (r0 r1 : RNG) (s0 s s' : AntSolver) :
  __init__ g nc na pre p_c p_n mi mt o2 vb r0 = Ok (s0, r1) →
  rtc step s0 s →
  rtc step s s' →
  heap s' !!! self_best s = snapshot s
  ∧ (self_best s' = self_best s ∧ self_cost_best s' = self_cost_best s
     ∨ self_cost_best s' < self_cost_best s).
Proof.
  intros Hinit Hs Hs'.
  apply init_Ok in Hinit
    as (d & g1 & g2 & c & _ & _ & _ & _ & _ & _ & _ & _ & Hv & _).
  destruct (rtc_step_extends s0 s Hs Hv) as [Hvs _].
  destruct (rtc_step_extends s s' Hs' Hvs) as [_ (_ & _ & Hold & Hbest)].
  split; [|done].
  destruct Hvs as (_ & Hlt & Hne). unfold snapshot. apply Hold; [congruence|done].
Qed.

(** ** Runs from the same generator state *)







(** ** Which exceptions construction can raise *)

Lemma res_raises_ok {A} (P : exn → Prop) (a : A) : res_raises P (Ok a).
Proof. by intros e. Qed.

Lemma res_raises_raise {A} (P : exn → Prop) (e : exn) :
  P e → res_raises P (Raise e : res A).
Proof. by intros He e' [= <-]. Qed.

Lemma res_raises_bind {A B} (P : exn → Prop) (m : res A) (f : A → res B) :
  res_raises P m → (∀ a, res_raises P (f a)) → res_raises P (m ≫= f).
Proof.
  intros Hm Hf e. destruct m as [a|e']; simpl.
  - apply Hf.
  - intros [= <-]. by apply Hm.
Qed.

Lemma M_raises_ret {A} (P : exn → Prop) (a : A) : M_raises P (mret a).
Proof. by intros r e. Qed.

Lemma M_raises_lift {A} (P : exn → Prop) (x : res A) :
  res_raises P x → M_raises P (lift x).
Proof. intros Hx r e. unfold lift. destruct x; [done|]. intros [= <-]. by apply Hx. Qed.

Lemma M_raises_bind {A B} (P : exn → Prop) (m : M A) (f : A → M B) :
  M_raises P m → (∀ a, M_raises P (f a)) → M_raises P (m ≫= f).
Proof.
  intros Hm Hf r e. unfold mbind, M_bind.
  destruct (m r) as [[a r1]|e'] eqn:Hmr.
  - apply Hf.
  - intros [= <-]. by eapply Hm.
Qed.

Lemma res_raises_mapM {A B} (P : exn → Prop) (f : A → res B) (l : list A) :
  (∀ x, res_raises P (f x)) → res_raises P (mapM f l).
Proof.
  intros Hf. induction l as [|x l IH]; simpl.
  - apply res_raises_ok.
  - apply res_raises_bind; [done|]. intros y.
    apply res_raises_bind; [done|]. intros k. apply res_raises_ok.
Qed.

Create HintDb raises.
#[local] Hint Resolve res_raises_ok res_raises_bind res_raises_mapM
  M_raises_ret M_raises_lift M_raises_bind : raises.
#[local] Hint Extern 1 (res_raises library_error (Raise _)) =>
  apply res_raises_raise; unfold library_error; tauto : raises.

Lemma neighbors_raises (g : Graph) (n : node) :
  res_raises library_error (neighbors g n).
Proof. unfold neighbors. destruct (adj g !! n); auto with raises. Qed.

Lemma get_color_raises (g : Graph) (n : node) :
  res_raises library_error (get_color g n).
Proof. unfold get_color. destruct (color g !! n); auto with raises. Qed.

Lemma get_cost_raises (g : Graph) (n : node) :
  res_raises library_error (get_cost g n).
Proof. unfold get_cost. destruct (cost g !! n); auto with raises. Qed.

Lemma set_color_raises (g : Graph) (n : node) (c : Z) :
  res_raises library_error (set_color g n c).
Proof. unfold set_color. destruct (adj g !! n); auto with raises. Qed.

Lemma set_cost_raises (g : Graph) (n : node) (c : Z) :
  res_raises library_error (set_cost g n c).
Proof. unfold set_cost. destruct (adj g !! n); auto with raises. Qed.

Lemma py_max_raises (l : list Z) : res_raises library_error (py_max l).
Proof. unfold py_max. destruct l; auto with raises. Qed.

#[local] Hint Resolve neighbors_raises get_color_raises get_cost_raises
  set_color_raises set_cost_raises py_max_raises : raises.

Lemma conflict_level_raises (g : Graph) (n : node) :
  res_raises library_error (conflict_level g n).
Proof.
  unfold conflict_level. apply res_raises_bind; [auto with raises|].
  intros nbrs. apply res_raises_bind; [|auto with raises].
  apply res_raises_mapM. intros m. unfold same_color.
  auto 6 with raises.
Qed.

Lemma refresh_costs_raises (ns : list node) (g : Graph) :
  res_raises library_error (refresh_costs g ns).
Proof.
  revert g. induction ns as [|n ns IH]; intros g; simpl.
  - auto with raises.
  - apply res_raises_bind; [apply conflict_level_raises|]. intros k.
    apply res_raises_bind; [auto with raises|]. intros g'. apply IH.
Qed.

Lemma total_cost_raises (g : Graph) : res_raises library_error (total_cost g).
Proof. unfold total_cost. auto 6 with raises. Qed.

Lemma choice_raises {A} (a : list A) : M_raises library_error (choice a).
Proof.
  destruct a as [|x a']; simpl.
  - auto with raises.
  - intros r e. destruct (choice_in (x :: a') r) as (y & Hy & _); [done|].
    simpl in Hy. by rewrite Hy.
Qed.

Lemma color_nodes_raises (colors : list Z) (ns : list node) (g : Graph) :
  M_raises library_error (color_nodes g colors ns).
Proof.
  revert g. induction ns as [|n ns IH]; intros g; simpl.
  - auto with raises.
  - apply M_raises_bind; [apply choice_raises|]. intros c.
    apply M_raises_bind; [auto with raises|]. intros g'. apply IH.
Qed.

Lemma random_node_coloring_raises (g : Graph) (n : option Z) :
  M_raises library_error (random_node_coloring g n).
Proof.
  unfold random_node_coloring. apply M_raises_bind; [auto with raises|].
  intros m. apply color_nodes_raises.
Qed.

Lemma choice_no_replace_raises (a : list Z) (size : Z) :
  M_raises library_error (choice_no_replace a size).
Proof.
  unfold choice_no_replace. destruct a as [|x a']; [auto with raises|].
  repeat case_decide; [auto with raises..|].
  intros r e.
  destruct (shuffle_Permutation (length (x :: a') - 1)
              (seq 0 (length (x :: a'))) r) as (idx & r' & Hrun & _).
  unfold mbind, M_bind. by rewrite Hrun.
Qed.

Lemma init_solver_raises (s : AntSolver) :
  M_raises library_error (init_solver s).
Proof.
  unfold init_solver, copy.
  apply M_raises_bind; [apply choice_no_replace_raises|]. intros ants.
  apply M_raises_bind; [apply M_raises_lift, refresh_costs_raises|].
  intros g. apply M_raises_bind; [apply M_raises_lift, total_cost_raises|].
  intros c. auto with raises.
Qed.

Lemma init_raises (g : Graph) (nc : option Z) (na : Z) (pre : bool)
    (p_c p_n : Q) (mi : Z) (mt : Q) (o2 vb : bool) :
  M_raises library_error (__init__ g nc na pre p_c p_n mi mt o2 vb).
Proof.
  unfold __init__, copy.
  apply M_raises_bind; [auto with raises|]. intros m.
  apply M_raises_bind.
  - destruct pre; [auto with raises|].
    apply M_raises_bind; [apply random_node_coloring_raises|].
    auto with raises.
  - intros [h2 g2]. apply init_solver_raises.
Qed.

(** ** The iteration counter *)

Lemma sweep_keeps_i (s s' : AntSolver) (r r' : RNG) :
  sweep s r = Ok (s', r') → self_i s' = self_i s.
Proof.
  intros (s1 & c & Hants & _ & ->)%sweep_Ok.
  apply for_ants_frame in Hants as (_ & _ & _ & Hi & _).
  simpl in Hi. by case_decide.
Qed.

(** No sweep of a run advances [self.i]: it is 0 at the end of each. *)
Lemma solve_never_advances_i (fuel : nat) (s : AntSolver) (r : RNG)
    (k : Clock) (tr : list AntSolver) (o : outcome) :
  solve fuel s r k = (tr, o) → Forall (λ t, self_i t = 0) tr.
Proof.
  intros Hch%solve_sweeps.
  assert (self_i (set_i s 0) = 0) as Hi by done.
  revert Hch Hi. generalize (set_i s 0). clear s.
  induction tr as [|s1 tr IH]; intros s Hch Hi; [constructor|].
  destruct Hch as [(r1 & r1' & Hs) Hch].
  apply sweep_keeps_i in Hs. rewrite Hi in Hs.
  constructor; [done|]. by eapply IH.
Qed.

(** C1, at a failing input: on the triangle with two colours, [max_iters = 1]
    and a five second budget read by a clock ticking every second, the run
    completes two sweeps, and [self.i] is 0 at the end of both. *)
Theorem C1_counter_not_advanced :
  ∃ tr s,
    run 10 triangle (Some 2) 2 true (4 # 5) (4 # 5) 1 (5 # 1) false true
        rng0 (clock_every 1) = Ok (tr, Returned s)
    ∧ max_iters (cfg s) = 1
    ∧ length tr = 2%nat
    ∧ self_i <$> tr = [0; 0].
Proof.
  eexists _, _. split; [vm_compute; reflexivity|]. by vm_compute.
Qed.

(** C3, at a failing input: on the graph whose two nodes are named 10 and
    20, construction places the two ants on 0 and 1, which are not nodes of
    the graph, and the first ant step of [solve] fails in
    [nx.neighbors]. *)
Theorem C3_ants_placed_off_graph :
  ∃ s r,
    __init__ edge_10_20 (Some 2) 2 true (4 # 5) (4 # 5) 1 (5 # 1) false
             true rng0 = Ok (s, r)
    ∧ nodes (live s) = [10; 20]
    ∧ self_ants s = [0; 1]
    ∧ (solve 10 s r (clock_every 1)).2 = Raised NetworkXError.
Proof.
  eexists _, _. split; [vm_compute; reflexivity|]. by vm_compute.
Qed.

(** The ants of a constructed solver are the integers below [n_ants], in
    some order: distinct, but node identifiers only if the nodes happen to
    be named [0 .. n_ants - 1]. *)
Lemma init_ants_permutation (g : Graph) (nc : option Z) (na : Z) (pre : bool)
    (p_c p_n : Q) (mi : Z) (mt : Q) (o2 vb : bool) (r r' : RNG)
    (s : AntSolver) :
  __init__ g nc na pre p_c p_n mi mt o2 vb r = Ok (s, r') →
  n_ants (cfg s) = Z.min na (number_of_nodes g)
  ∧ self_ants s ≡ₚ arange (n_ants (cfg s))
  ∧ NoDup (self_ants s).
Proof.
  intros (d & g1 & g2 & c & _ & _ & _ & _ & [r0 Hants] & Hcfg & _)%init_Ok.
  rewrite Hcfg. simpl. split; [done|].
  set (n := Z.min na (number_of_nodes g)) in *.
  destruct (decide (1 ≤ n)) as [Hn|Hn].
  - destruct (choice_no_replace_arange n r0 Hn) as (l & r1 & Hl & Hperm).
    rewrite Hl in Hants. injection Hants as <- <-.
    split; [done|]. rewrite Hperm. unfold arange.
    apply NoDup_fmap_2; [apply _ | apply NoDup_seq].
  - unfold choice_no_replace in Hants.
    replace (arange n) with (@nil Z) in Hants; [done|].
    unfold arange. by replace (Z.to_nat n) with 0%nat by lia.
Qed.

(** ** Construction checks nothing *)

(** C2 fails as stated: on the triangle, construction with [n_colors = 0],
    [pc = 2] and [pn = -1] returns a solver. *)
Lemma C2_counterexample :
  ¬ (∀ g nc na pre p_c p_n mi mt o2 vb r,
       out_of_bounds nc na p_c p_n →
       __init__ g nc na pre p_c p_n mi mt o2 vb r
       = Raise ConfigurationError).
Proof.
  intros Hclaim.
  specialize (Hclaim triangle (Some 0) 2 true (2 # 1) (-1 # 1) 1 (5 # 1)
                false true rng0).
  assert (out_of_bounds (Some 0) 2 (2 # 1) (-1 # 1)) as Hout.
  { left. exists 0. split; [done | lia]. }
  specialize (Hclaim Hout). vm_compute in Hclaim. discriminate Hclaim.
Qed.

(** C2, as the code has it: construction never raises a ConfigurationError,
    whatever the parameters; when it fails, it fails in a library call, with
    a ValueError, a KeyError or a NetworkXError.  On a non-empty well-formed
    graph whose nodes are all coloured, with [pre_colored = True] and
    [n_ants >= 1], it returns a solver for every [n_colors], [pc] and
    [pn]. *)
Theorem C2_construction_unchecked :
  (∀ g nc na pre p_c p_n mi mt o2 vb r,
     __init__ g nc na pre p_c p_n mi mt o2 vb r ≠ Raise ConfigurationError)
  ∧ (∀ g nc na pre p_c p_n mi mt o2 vb r e,
       __init__ g nc na pre p_c p_n mi mt o2 vb r = Raise e →
       e = ValueError ∨ e = KeyError ∨ e = NetworkXError)
  ∧ (∀ g nc na p_c p_n mi mt o2 vb r,
       well_formed g → coloured g → nodes g ≠ [] → 1 ≤ na →
       ∃ s r', __init__ g nc na true p_c p_n mi mt o2 vb r = Ok (s, r')).
Proof.
  split; [|split].
  - intros g nc na pre p_c p_n mi mt o2 vb r H.
    apply init_raises in H as [H|[H|H]]; discriminate H.
  - intros g nc na pre p_c p_n mi mt o2 vb r e H.
    by apply init_raises in H.
  - intros. by apply init_total_pre_colored.
Qed.

(** ** The wall clock decides how long a run lasts *)


(** ** An ant step recolours one node and refreshes the costs around it *)

Lemma try_colors_Ok (cs : list Z) (g g' : Graph) (nbunch : list node)
    (ant : node) (o2 : bool) (ks : list Z) :
  try_colors g nbunch ant o2 cs = Ok (g', ks) →
  length ks = length cs ∧ (g' = g ∨ ∃ c, g' = recolor g ant c).
Proof.
  revert g ks. induction cs as [|c cs IH]; intros g ks H.
  - simpl in H. inv_ok. split; [done | by left].
  - rewrite try_colors_cons in H. inv_ok.
    match goal with Hs : set_color _ _ _ = _ |- _ =>
      apply set_color_Ok in Hs as [-> _] end.
    match goal with Ht : try_colors _ _ _ _ _ = Ok ?p |- _ =>
      destruct p as [g2 ks2]; rename Ht into Htry end.
    simpl in H. inv_ok. apply IH in Htry as [Hlen Hg2].
    split; [simpl; lia|]. right.
    destruct Hg2 as [->|[c' ->]]; [by exists c|].
    exists c'. apply recolor_recolor.
Qed.

Lemma change_to_best_Ok (g g' : Graph) (nc : Z) (ant : node) (o2 : bool) :
  change_to_best g nc ant o2 = Ok g' →
  is_Some (adj g !! ant) ∧ ∃ c, g' = recolor g ant c.
Proof.
  intros H. unfold change_to_best in H. inv_ok.
  match goal with Ht : try_colors _ _ _ _ _ = Ok ?p |- _ =>
    destruct p as [g1 ks]; apply try_colors_Ok in Ht as [_ Hg1] end.
  simpl in H. inv_ok.
  apply set_color_Ok in H as [-> Hadj].
  destruct Hg1 as [->|[c' ->]].
  - split; [done | by eexists].
  - split; [done|]. eexists. apply recolor_recolor.
Qed.

Lemma change_to_random_Ok (g g' : Graph) (nc : Z) (ant : node) (r r' : RNG) :
  change_to_random g nc ant r = Ok (g', r') →
  is_Some (adj g !! ant) ∧ ∃ c, g' = recolor g ant c.
Proof.
  intros H. unfold change_to_random in H. inv_ok.
  match goal with Hs : set_color _ _ _ = _ |- _ =>
    apply set_color_Ok in Hs as [-> Hadj] end.
  split; [done | by eexists].
Qed.

Lemma move_and_color_Ok (c : Config) (g g' : Graph) (n0 n1 : node)
    (r r' : RNG) :
  move_and_color c g n0 r = Ok ((n1, g'), r') →
  ∃ col nbrs,
    adj g !! n1 = Some nbrs
    ∧ nodes g' = nodes g ∧ adj g' = adj g
    ∧ color g' = <[n1:=col]> (color g)
    ∧ (∀ m, m ∈ n1 :: nbrs → cost g' !! m = Some (conflicts g' m))
    ∧ (∀ m, m ∉ n1 :: nbrs → cost g' !! m = cost g !! m).
Proof.
  intros H. unfold move_and_color in H. inv_ok.
  match goal with |- ∃ _ _, adj g !! ?n = _ ∧ nodes ?gg = _ ∧ _ =>
    rename n into n1; rename gg into g' end.
  match goal with Hc : (if Qltb _ (pn c) then _ else _) _ = Ok (?g1, _) |- _ =>
    assert (is_Some (adj g !! n1) ∧ ∃ col, g1 = recolor g n1 col)
      as [[nbrs Hadj] [col ->]];
    [destruct (Qltb _ (pn c)); inv_ok;
       [by eapply change_to_best_Ok | by eapply change_to_random_Ok]
    | clear Hc] end.
  match goal with Hk : conflict_level _ _ = Ok ?k |- _ =>
    apply conflict_level_Ok in Hk; rename Hk into Hk1 end.
  match goal with Hs : set_cost _ _ _ = Ok ?g2 |- _ =>
    apply set_cost_Ok in Hs as (Hn2 & Ha2 & Hc2 & Hk2) end.
  match goal with Hn : neighbors _ _ = Ok ?l |- _ =>
    unfold neighbors in Hn; rewrite Ha2 in Hn; simpl in Hn;
    rewrite Hadj in Hn; injection Hn as <- end.
  match goal with Hr : refresh_costs _ _ = Ok _ |- _ =>
    apply refresh_costs_Ok in Hr as (Hn3 & Ha3 & Hc3 & Hin & Hout) end.
  exists col, nbrs. split; [done|].
  split; [by rewrite Hn3, Hn2|]. split; [by rewrite Ha3, Ha2|].
  split; [by rewrite Hc3, Hc2|]. split.
  - intros m Hm. destruct (decide (m ∈ nbrs)) as [Hnb|Hnb].
    + rewrite (Hin m Hnb). f_equal. apply conflicts_ext; congruence.
    + apply elem_of_cons in Hm as [->|Hm]; [|done].
      rewrite (Hout n1 Hnb), Hk2, lookup_insert_eq, Hk1. f_equal.
      apply conflicts_ext; congruence.
  - intros m Hm. apply not_elem_of_cons in Hm as [Hne Hm].
    rewrite (Hout m Hm), Hk2. by rewrite lookup_insert_ne.
Qed.

(** ** Cached costs and conflicting edges *)

Section double_counting.
Variable g : Graph.
Hypothesis Hsimple : simple g.

Lemma nb_NoDup (n : node) : NoDup (nb g n).
Proof.
  unfold nb. destruct (adj g !! n) as [l|] eqn:Hl; simpl.
  - eapply well_formed_nbrs_NoDup; [apply Hsimple | done].
  - constructor.
Qed.

Lemma nb_sym (n m : node) : m ∈ nb g n → n ∈ nb g m.
Proof.
  unfold nb. destruct (adj g !! n) as [l|] eqn:Hl; simpl.
  - intros Hm.
    destruct (well_formed_sym g n m l (proj1 Hsimple) Hl Hm)
      as (l' & -> & Hn). done.
  - intros Hm. by apply elem_of_nil in Hm.
Qed.

Lemma nb_irrefl (n : node) : n ∉ nb g n.
Proof.
  unfold nb. destruct (adj g !! n) as [l|] eqn:Hl; simpl.
  - by apply (proj2 Hsimple n l).
  - apply not_elem_of_nil.
Qed.

Lemma nb_node (n m : node) : m ∈ nb g n → m ∈ nodes g.
Proof.
  unfold nb. destruct (adj g !! n) as [l|] eqn:Hl; simpl.
  - by eapply well_formed_nbr_node; [apply Hsimple|].
  - intros Hm. by apply elem_of_nil in Hm.
Qed.

Lemma fresh_conflicts_split (seen : list node) (n x : node) :
  x ∉ seen →
  fresh_conflicts g seen n
  = fresh_conflicts g (x :: seen) n
    + (if decide (x ∈ nb g n ∧ mono g n x) then 1 else 0).
Proof.
  intros Hx. unfold fresh_conflicts.
  pose proof (nb_NoDup n) as Hnd. revert Hnd.
  generalize (nb g n). intros l Hnd.
  induction l as [|y l IH].
  - rewrite decide_False; [done|]. intros [Hin _]. by apply elem_of_nil in Hin.
  - apply NoDup_cons in Hnd as [Hy Hnd]. specialize (IH Hnd).
    destruct (decide (y = x)) as [->|Hne].
    + rewrite (filter_cons_False (λ m, (m ∉ x :: seen) ∧ mono g n m))
        by (intros [Hn _]; apply Hn; by left).
      assert (filter (λ m, (m ∉ seen) ∧ mono g n m) l
              = filter (λ m, (m ∉ x :: seen) ∧ mono g n m) l) as Hl.
      { apply filter_ext_elem. intros m Hm.
        rewrite not_elem_of_cons. split; [|tauto].
        intros [Hs Hc]. repeat split; try done. by intros ->. }
      destruct (decide (mono g n x)) as [Hm|Hm].
      * rewrite filter_cons_True by done.
        rewrite decide_True by (split; [by left | done]).
        simpl length. rewrite Hl. lia.
      * rewrite filter_cons_False by tauto.
        rewrite decide_False by tauto. rewrite Hl. lia.
    + assert ((x ∈ y :: l ∧ mono g n x) ↔ (x ∈ l ∧ mono g n x)) as Hiff.
      { rewrite elem_of_cons. split; [|tauto].
        intros [[->|Hin] Hc]; [done|tauto]. }
      rewrite (decide_ext _ _ _ _ Hiff).
      destruct (decide ((y ∉ seen) ∧ mono g n y)) as [Hy'|Hy'].
      * rewrite filter_cons_True by done.
        rewrite (filter_cons_True (λ m, (m ∉ x :: seen) ∧ mono g n m))
          by (rewrite not_elem_of_cons; tauto).
        simpl length. lia.
      * rewrite filter_cons_False by done.
        rewrite (filter_cons_False (λ m, (m ∉ x :: seen) ∧ mono g n m))
          by (rewrite not_elem_of_cons; tauto).
        lia.
Qed.

Lemma zsum_plus {A} (f h : A → Z) (l : list A) :
  zsum ((λ x, f x + h x) <$> l) = zsum (f <$> l) + zsum (h <$> l).
Proof.
  induction l as [|x l IH]; [done|].
  rewrite !fmap_cons. simpl zsum. lia.
Qed.

Lemma edges_from_conflicts (seen : list node) (n : node) :
  filter (λ e, color g !! e.2 = color g !! e.1)
         ((λ m, (n, m)) <$> filter (λ m, m ∉ seen) (nb g n))
  = (λ m, (n, m)) <$> filter (λ m, (m ∉ seen) ∧ mono g n m) (nb g n).
Proof.
  generalize (nb g n). intros l. induction l as [|y l IH]; [done|].
  destruct (decide (y ∉ seen)) as [Hy|Hy].
  - rewrite (filter_cons_True (λ m, m ∉ seen)) by done.
    rewrite fmap_cons.
    destruct (decide (mono g n y)) as [Hm|Hm].
    + rewrite filter_cons_True by done.
      rewrite (filter_cons_True (λ m, (m ∉ seen) ∧ mono g n m)) by done.
      rewrite fmap_cons. by rewrite IH.
    + rewrite filter_cons_False by done.
      rewrite (filter_cons_False (λ m, (m ∉ seen) ∧ mono g n m)) by tauto.
      done.
  - rewrite (filter_cons_False (λ m, m ∉ seen)) by done.
    rewrite (filter_cons_False (λ m, (m ∉ seen) ∧ mono g n m)) by tauto.
    done.
Qed.

Lemma double_counting (ns seen : list node) :
  NoDup ns →
  (∀ n, n ∈ ns → n ∉ seen) →
  (∀ n m, n ∈ ns → m ∈ nb g n → m ∈ seen ∨ m ∈ ns) →
  zsum (fresh_conflicts g seen <$> ns)
  = 2 * Z.of_nat (length (filter (λ e, color g !! e.2 = color g !! e.1)
                                 (edges_from g seen ns))).
Proof.
  revert seen. induction ns as [|n ns IH]; intros seen Hnd Hseen Hclosed;
    [done|].
  apply NoDup_cons in Hnd as [Hn Hnd].
  assert (n ∉ seen) as Hns by (apply Hseen; by left).
  simpl edges_from. fold (nb g n).
  rewrite filter_app, length_app, edges_from_conflicts, length_fmap.
  rewrite fmap_cons. simpl zsum.
  rewrite (list_fmap_ext (fresh_conflicts g seen)
             (λ n', fresh_conflicts g (n :: seen) n'
                    + (if decide (n ∈ nb g n' ∧ mono g n' n) then 1 else 0)))
    by (intros _ n' _; by apply fresh_conflicts_split).
  rewrite zsum_plus, zsum_indicator.
  rewrite (IH (n :: seen)); [|done| |].
  - assert (filter (λ n', n ∈ nb g n' ∧ mono g n' n) ns
            ≡ₚ filter (λ m, (m ∉ seen) ∧ mono g n m) (nb g n)) as Hperm.
    { apply NoDup_Permutation.
      - by apply NoDup_filter.
      - apply NoDup_filter, nb_NoDup.
      - intros m. rewrite !list_elem_of_filter. split.
        + intros [[Hin Hc] Hm]. repeat split.
          * apply Hseen. by right.
          * congruence.
          * by apply nb_sym.
        + intros [[Hs Hc] Hm]. repeat split.
          * by apply nb_sym.
          * congruence.
          * destruct (Hclosed n m) as [Hin|Hin]; [by left|done|done|].
            apply elem_of_cons in Hin as [->|Hin]; [|done].
            by apply nb_irrefl in Hm. }
    unfold fresh_conflicts at 1. rewrite Hperm. rewrite Nat2Z.inj_add. lia.
  - intros n' Hn'. rewrite not_elem_of_cons. split.
    + by intros ->.
    + apply Hseen. by right.
  - intros n' m Hn' Hm.
    destruct (Hclosed n' m) as [Hin|Hin]; [by right|done| |].
    + left. by right.
    + apply elem_of_cons in Hin as [->|Hin]; [left; by left|by right].
Qed.

Lemma total_conflicts_even :
  zsum (conflicts g <$> nodes g) = 2 * conflicting_edges g.
Proof.
  unfold conflicting_edges, edges.
  rewrite <- (double_counting (nodes g) []).
  - f_equal. apply list_fmap_ext. intros _ n _.
    unfold conflicts, fresh_conflicts. do 2 f_equal.
    apply list_filter_iff. intros m.
    split; [intros Hm; split; [apply not_elem_of_nil | done] | tauto].
  - apply Hsimple.
  - intros n _. apply not_elem_of_nil.
  - intros n m _ Hm. right. by eapply nb_node.
Qed.
End double_counting.

Lemma costs_cached_move (c : Config) (g g' : Graph) (n0 n1 : node)
    (r r' : RNG) :
  well_formed g →
  costs_cached g →
  move_and_color c g n0 r = Ok ((n1, g'), r') →
  nodes g' = nodes g ∧ adj g' = adj g ∧ costs_cached g'.
Proof.
  intros Hwf Hinv (col & nbrs & Hadj & Hn & Ha & Hc & Hin & Hout)%move_and_color_Ok.
  split; [done|]. split; [done|].
  intros m Hm. rewrite Hn in Hm.
  destruct (decide (m ∈ n1 :: nbrs)) as [Hnear|Hfar]; [by apply Hin|].
  rewrite (Hout m Hfar), (Hinv m Hm). f_equal.
  apply not_elem_of_cons in Hfar as [Hne Hfar].
  unfold conflicts. rewrite Ha, Hc.
  rewrite (lookup_insert_ne (color g) n1 m col) by done.
  do 2 f_equal. apply filter_ext_elem. intros x Hx.
  rewrite lookup_insert_ne; [done|]. intros <-.
  apply Hfar.
  destruct (adj g !! m) as [l|] eqn:Hl; simpl in Hx;
    [|by apply elem_of_nil in Hx].
  destruct (well_formed_sym g m n1 l Hwf Hl Hx) as (l' & Hl' & Hin').
  rewrite Hadj in Hl'. by injection Hl' as <-.
Qed.

Lemma random_node_coloring_Ok (g g' : Graph) (n : option Z) (r r' : RNG) :
  random_node_coloring g n r = Ok (g', r') →
  nodes g' = nodes g ∧ adj g' = adj g.
Proof.
  intros H. unfold random_node_coloring in H. inv_ok.
  apply color_nodes_Ok in H as (Hn & Ha & _). done.
Qed.

Lemma init_cost_inv (g : Graph) (nc : option Z) (na : Z) (pre : bool)
    (p_c p_n : Q) (mi : Z) (mt : Q) (o2 vb : bool) (r r' : RNG)
    (s : AntSolver) :
  __init__ g nc na pre p_c p_n mi mt o2 vb r = Ok (s, r') → cost_inv g s.
Proof.
  intros (d & g1 & g2 & c & _ & Hg1 & Href & _ & _ & _ & Hlive & _ & Hv & _)
           %init_Ok.
  assert (nodes g1 = nodes g ∧ adj g1 = adj g) as [Hn1 Ha1].
  { destruct pre; [by subst|]. destruct Hg1 as [r1 Hg1].
    by eapply random_node_coloring_Ok. }
  apply refresh_costs_Ok in Href as (Hn2 & Ha2 & Hc2 & Hin & _).
  rewrite <- Hlive in *.
  split; [done|]. split; [congruence|]. split; [congruence|].
  intros n Hn. rewrite Hn2 in Hn. rewrite (Hin n Hn). f_equal.
  by apply conflicts_ext.
Qed.

Lemma ant_step_cost_inv (g : Graph) (s s' : AntSolver) (ant : nat)
    (r r' : RNG) :
  well_formed g → cost_inv g s → ant_step s ant r = Ok (s', r') →
  cost_inv g s'.
Proof.
  intros Hwf (Hv & Hn & Ha & Hc) Hstep.
  pose proof (ant_step_frame _ _ _ _ _ Hstep) as Hframe.
  apply ant_step_Ok in Hstep as (n0 & n1 & g' & _ & Hmove & ->).
  apply costs_cached_move in Hmove as (Hn' & Ha' & Hc');
    [|by eapply well_formed_ext|done].
  split; [by eapply same_frame_valid|].
  assert (live (set_ant_i
             (set_live (set_ants s (<[ant:=n1]> (self_ants s))) g')
             (self_ant_i s + 1)) = g') as ->.
  { unfold live. simpl. apply list_lookup_total_insert_eq. apply Hv. }
  split; [congruence | split; [congruence | done]].
Qed.

Lemma for_ants_cost_inv (g : Graph) (rng : list nat) (s s' : AntSolver)
    (r r' : RNG) :
  well_formed g → cost_inv g s → for_ants s rng r = Ok (s', r') →
  cost_inv g s'.
Proof.
  intros Hwf. revert s r. induction rng as [|ant rng IH]; intros s r Hinv H.
  - simpl in H. by inv_ok.
  - simpl in H. inv_ok. eapply IH; [|done].
    by eapply ant_step_cost_inv.
Qed.

Lemma step_cost_inv (g : Graph) (s s' : AntSolver) :
  well_formed g → cost_inv g s → step s s' → cost_inv g s'.
Proof.
  intros Hwf Hinv Hstep.
  destruct Hstep as [s|s|s s' ant r r' Hant|s s' r r' Hsw].
  - done.
  - done.
  - by eapply ant_step_cost_inv.
  - apply sweep_Ok in Hsw as (s1 & c & Hants & _ & ->).
    apply for_ants_cost_inv with (g := g) in Hants; [|done|done].
    destruct Hants as (Hv & Hn & Ha & Hc).
    case_decide.
    + split; [by apply valid_record_best|].
      rewrite live_record_best by apply Hv. done.
    + done.
Qed.

(** On a graph that is not simple the parity fails: a single node with a
    self-loop has total cost 1. *)
Example self_loop_total_cost_odd :
  ∃ s r, __init__ (mk_graph [0] [(0, [0])] [(0, 0)]) (Some 2) 1 true
                  (4 # 5) (4 # 5) 1 (5 # 1) false true rng0 = Ok (s, r)
         ∧ total_cost (live s) = Ok 1.
Proof. eexists _, _. split; [vm_compute; reflexivity|]. by vm_compute. Qed.

(** C4: in every state reachable from the construction of a solver on a
    simple graph (after initialization, after each ant step, after each
    sweep), the cached cost of every node is the number of its neighbours
    that currently share its colour, and [total_cost()] returns twice the
    number of edges whose endpoints currently share a colour. *)
Theorem C4_cost_parity (g : Graph) (nc : option Z) (na : Z) (pre : bool)
    (p_c p_n : Q) (mi : Z) (mt : Q) (o2 vb : bool) (r0 r1 : RNG)
    (s0 s : AntSolver) :
  simple g →
  __init__ g nc na pre p_c p_n mi mt o2 vb r0 = Ok (s0, r1) →
  rtc step s0 s →
  (∀ n, n ∈ nodes (live s) → cost (live s) !! n = Some (conflicts (live s) n))
  ∧ total_cost (live s) = Ok (2 * conflicting_edges (live s)).
Proof.
  intros Hsimple Hinit Hreach.
  apply init_cost_inv in Hinit.
  assert (cost_inv g s) as (_ & Hn & Ha & Hc).
  { induction Hreach as [s|s s1 s2 Hstep _ IH]; [done|].
    apply IH. eapply step_cost_inv; [apply Hsimple|done|done]. }
  split; [done|].
  rewrite (total_cost_cached _ Hc). f_equal.
  apply total_conflicts_even.
  unfold simple, well_formed. rewrite Hn, Ha. apply Hsimple.
Qed.

(** ** The theorems at concrete inputs *)

Lemma triangle_init_Ok : triangle_init = Ok (triangle_solver, triangle_rng).
Proof. vm_compute. reflexivity. Defined.

Lemma triangle_swept_reachable : rtc step triangle_solver triangle_swept.
Proof.
  apply rtc_once.
  apply (step_sweep triangle_solver triangle_swept triangle_rng
           (match sweep triangle_solver triangle_rng with
            | Ok (_, r) => r
            | Raise _ => rng0
            end)).
  vm_compute. reflexivity.
Defined.

Lemma triangle_simple : simple triangle.
Proof. apply (bool_decide_unpack _). vm_compute. exact I. Defined.

Lemma triangle_coloured : coloured triangle.
Proof. apply (bool_decide_unpack _). vm_compute. exact I. Defined.

Lemma C7_witness :
  ∃ (k : nat) (n1 : node),
    worst_adjacent_node triangle_cached 0 false = Ok n1
    ∧ [1; 2] !! k = Some n1
    ∧ (∀ m, m ∈ [1; 2] →
            default 0 (cost triangle_cached !! m)
            ≤ default 0 (cost triangle_cached !! n1))
    ∧ (∀ j m, (j < k)%nat → [1; 2] !! j = Some m →
              default 0 (cost triangle_cached !! m)
              < default 0 (cost triangle_cached !! n1)).
Proof.
  apply (C7_worst_adjacent_node_first_max triangle_cached 0 false [1; 2]
           (λ m, default 0 (cost triangle_cached !! m))).
  - reflexivity.
  - discriminate.
  - intros m Hm.
    apply elem_of_cons in Hm as [->|Hm]; [reflexivity|].
    apply elem_of_cons in Hm as [->|Hm]; [reflexivity|].
    by apply elem_of_nil in Hm.
  - intros m Hm.
    apply elem_of_cons in Hm as [->|Hm]; [by vm_compute|].
    apply elem_of_cons in Hm as [->|Hm]; [by vm_compute|].
    by apply elem_of_nil in Hm.
Defined.

Lemma C6_witness :
  ∃ c : Z,
    change_to_best triangle 2 0 false = Ok (recolor triangle 0 c)
    ∧ 0 ≤ c < 2
    ∧ (∀ c', 0 ≤ c' < 2 →
             colored_with triangle [1; 2] c ≤ colored_with triangle [1; 2] c')
    ∧ (∀ c', 0 ≤ c' < c →
             colored_with triangle [1; 2] c < colored_with triangle [1; 2] c').
Proof.
  apply (C6_change_to_best_smallest_minimizer triangle 2 0 [1; 2]).
  - lia.
  - reflexivity.
  - apply (bool_decide_unpack _). vm_compute. exact I.
  - intros m Hm.
    apply elem_of_cons in Hm as [-> | Hm]; [by eexists|].
    apply elem_of_cons in Hm as [-> | Hm]; [by eexists|].
    by apply elem_of_nil in Hm.
Defined.

Lemma C10_witness :
  (∀ r, ∃ g' r',
      random_node_coloring triangle (Some 5) r = Ok (g', r')
      ∧ ∀ v, v ∈ nodes triangle → ∃ c, color g' !! v = Some c ∧ 0 ≤ c < 2 + 1)
  ∧ (∀ na p_c p_n mi mt o2 vb r, 1 ≤ na →
      ∃ s r',
        __init__ triangle (Some 5) na false p_c p_n mi mt o2 vb r = Ok (s, r')
        ∧ n_colors (cfg s) = 5
        ∧ ∀ v, v ∈ nodes triangle →
               ∃ c, color (live s) !! v = Some c ∧ 0 ≤ c < 2 + 1).
Proof.
  apply (C10_palette_capped triangle 5 2).
  - apply triangle_simple.
  - reflexivity.
  - lia.
Defined.

Lemma C2_witness :
  ∃ s r',
    __init__ triangle (Some 0) 2 true (2 # 1) (-1 # 1) 1 (5 # 1) false true
             rng0 = Ok (s, r').
Proof.
  apply (proj2 (proj2 C2_construction_unchecked)).
  - apply triangle_simple.
  - apply triangle_coloured.
  - discriminate.
  - lia.
Defined.

Lemma C4_witness :
  (∀ n, n ∈ nodes (live triangle_swept) →
        cost (live triangle_swept) !! n
        = Some (conflicts (live triangle_swept) n))
  ∧ total_cost (live triangle_swept)
    = Ok (2 * conflicting_edges (live triangle_swept)).
Proof.
  apply (C4_cost_parity triangle (Some 2) 2 true (4 # 5) (4 # 5) 1 (5 # 1)
           false true rng0 triangle_rng triangle_solver triangle_swept).
  - apply triangle_simple.
  - apply triangle_init_Ok.
  - apply triangle_swept_reachable.
Defined.

Lemma C9_witness :
  heap triangle_swept !!! self_best triangle_solver = snapshot triangle_solver
  ∧ (self_best triangle_swept = self_best triangle_solver
     ∧ self_cost_best triangle_swept = self_cost_best triangle_solver
     ∨ self_cost_best triangle_swept < self_cost_best triangle_solver).
Proof.
  apply (C9_best_snapshot_frame triangle (Some 2) 2 true (4 # 5) (4 # 5) 1
           (5 # 1) false true rng0 triangle_rng triangle_solver
           triangle_solver triangle_swept).
  - apply triangle_init_Ok.
  - apply rtc_refl.
  - apply triangle_swept_reachable.
Defined.

Lemma C5_witness :
  let tr := (solve 10 triangle_solver triangle_rng (clock_every 1)).1 in
  total_cost (live triangle_solver) = Ok (self_cost_best triangle_solver)
  ∧ ∀ j sj, tr !! j = Some sj →
      ∃ prev, (triangle_solver :: tr) !! j = Some prev
      ∧ total_cost (live sj) = Ok (self_curr_cost sj)
      ∧ (if decide (self_curr_cost sj < self_cost_best prev)
         then self_cost_best sj = self_curr_cost sj
              ∧ snapshot sj = live sj
         else self_cost_best sj = self_cost_best prev
              ∧ self_best sj = self_best prev
              ∧ snapshot sj = snapshot prev)
      ∧ self_cost_best sj ≤ self_cost_best prev
      ∧ self_cost_best sj
        = foldl Z.min (self_cost_best triangle_solver)
                (self_curr_cost <$> take (S j) tr).
Proof.
  apply (C5_cost_best_running_minimum triangle (Some 2) 2 true (4 # 5)
           (4 # 5) 1 (5 # 1) false true rng0 triangle_rng triangle_rng
           triangle_solver 10 (clock_every 1)
           (solve 10 triangle_solver triangle_rng (clock_every 1)).1
           (solve 10 triangle_solver triangle_rng (clock_every 1)).2).
  - apply triangle_init_Ok.
  - apply surjective_pairing.
Defined.



(** * Further properties of the code *)

(** ** [conflict_level] and [local_potential] *)


(** X1.  A conflict level lies between 0 and the number of neighbours. *)
Theorem X1_conflict_level_bounds (g : Graph) (n : node) (k : Z) :
  conflict_level g n = Ok k →
  ∃ nbrs, adj g !! n = Some nbrs ∧ 0 ≤ k ≤ Z.of_nat (length nbrs).
Proof.
  intros H. pose proof (conflict_level_Ok g n k H) as ->.
  unfold conflict_level, neighbors in H.
  destruct (adj g !! n) as [l|] eqn:Hl; [|done].
  exists l. split; [done|]. unfold conflicts. rewrite Hl. simpl.
  pose proof (length_filter (λ m, color g !! m = color g !! n) l). lia.
Qed.

(** X2.  The edge cases of [conflict_level]: a name that is not a node is a
    NetworkXError; a node without neighbours has level 0, coloured or not; a
    node with a neighbour and no colour is a KeyError, and so is a coloured
    node whose first neighbour has no colour. *)
Theorem X2_conflict_level_edge_cases (g : Graph) (n : node) :
  (adj g !! n = None → conflict_level g n = Raise NetworkXError)
  ∧ (adj g !! n = Some [] → conflict_level g n = Ok 0)
  ∧ (∀ m l, adj g !! n = Some (m :: l) → color g !! n = None →
            conflict_level g n = Raise KeyError)
  ∧ (∀ m l, adj g !! n = Some (m :: l) → color g !! m = None →
            conflict_level g n = Raise KeyError).
Proof.
  unfold conflict_level, neighbors. repeat split.
  - by intros ->.
  - by intros ->.
  - intros m l -> Hc. simpl. unfold same_color, get_color. by rewrite Hc.
  - intros m l -> Hc. simpl. unfold same_color, get_color. rewrite Hc.
    by destruct (color g !! n).
Qed.

Lemma conflicts_sym_pos (g : Graph) (n m : node) (l : list node) :
  well_formed g → adj g !! n = Some l → m ∈ l →
  color g !! m = color g !! n → 1 ≤ conflicts g m.
Proof.
  intros Hwf Hl Hm Hc.
  destruct (well_formed_sym g n m l Hwf Hl Hm) as (l' & Hl' & Hn).
  unfold conflicts. rewrite Hl'. simpl.
  assert (n ∈ filter (λ x, color g !! x = color g !! m) l') as Hin.
  { apply list_elem_of_filter. split; [congruence|done]. }
  destruct (filter _ l'); [by apply elem_of_nil in Hin|]. simpl. lia.
Qed.

Lemma neighbours_conflicts_lower (g : Graph) (n : node) (l sub : list node)
    (ls : list Z) :
  well_formed g → adj g !! n = Some l → (∀ m, m ∈ sub → m ∈ l) →
  Forall2 (λ m c, conflict_level g m = Ok c) sub ls →
  Z.of_nat (length (filter (λ m, color g !! m = color g !! n) sub))
  ≤ zsum ls.
Proof.
  intros Hwf Hl Hsub H.
  induction H as [|m c sub ls Hm _ IH]; [done|].
  apply conflict_level_Ok in Hm as ->.
  assert (Z.of_nat (length (filter (λ m, color g !! m = color g !! n) sub))
          ≤ zsum ls) as IH'.
  { apply IH. intros x Hx. apply Hsub. by right. }
  simpl zsum.
  assert (0 ≤ conflicts g m) as Hpos by (unfold conflicts; lia).
  destruct (decide (color g !! m = color g !! n)) as [Hc|Hc].
  - rewrite filter_cons_True by done. simpl length.
    pose proof (conflicts_sym_pos g n m l Hwf Hl
                  (Hsub m (list_elem_of_here m sub)) Hc).
    lia.
  - rewrite filter_cons_False by done. lia.
Qed.

(** X3.  On a graph with symmetric adjacency the local potential of a node is
    at least twice its conflict level: every neighbour that shares its colour
    counts the node in its own level. *)
Theorem X3_local_potential_lower_bound (g : Graph) (n : node) (p k : Z) :
  well_formed g →
  local_potential g n = Ok p →
  conflict_level g n = Ok k →
  2 * k ≤ p.
Proof.
  intros Hwf Hp Hk. unfold local_potential, neighbors in Hp.
  destruct (adj g !! n) as [l|] eqn:Hl; [|done].
  rewrite res_bind_ok_l in Hp. inv_ok.
  match goal with Hls : mapM _ _ = Ok ?ls |- _ =>
    apply mapM_res_Ok in Hls;
    pose proof (neighbours_conflicts_lower g n l l ls Hwf Hl
                  (λ m Hm, Hm) Hls) as Hlow end.
  match goal with Hown : conflict_level g n = Ok ?own, Hk : conflict_level g n = Ok k |- _ =>
    rewrite Hown in Hk; injection Hk as ->;
    apply conflict_level_Ok in Hown end.
  subst k. unfold conflicts at 1 2. rewrite Hl. simpl.
  unfold conflicts in Hlow. lia.
Qed.

(** ** Degenerate inputs *)

Lemma arange_nonpos (n : Z) : n ≤ 0 → arange n = [].
Proof. intros Hn. unfold arange. by replace (Z.to_nat n) with 0%nat by lia. Qed.

(** X4.  With no colour to choose from ([n_colors <= 0]) both recolouring
    policies fail with a ValueError on a node of the graph: [argmin] of an
    empty array in [change_to_best] (in either mode), [np.random.choice] of
    an empty array in [change_to_random]. *)
Theorem X4_empty_palette_ValueError (g : Graph) (n_colors : Z) (ant : node)
    (o2 : bool) (r : RNG) :
  n_colors ≤ 0 →
  is_Some (adj g !! ant) →
  change_to_best g n_colors ant o2 = Raise ValueError
  ∧ change_to_random g n_colors ant r = Raise ValueError.
Proof.
  intros Hn [l Hl]. split.
  - unfold change_to_best, neighbors. rewrite Hl, res_bind_ok_l.
    by rewrite arange_nonpos.
  - unfold change_to_random. by rewrite arange_nonpos.
Qed.

(** X5.  An ant that stands on a node without neighbours stops the run: the step
    raises an IndexError when it moves to the worst neighbour (the array of
    neighbours is empty) and a ValueError when it moves at random
    ([np.random.choice] of an empty list); an ant that stands on a name
    that is not a node raises a NetworkXError. *)
Theorem X5_ant_step_without_neighbours (s : AntSolver) (ant : nat)
    (n0 : node) (r : RNG) :
  self_ants s !! ant = Some n0 →
  (verbose (cfg s) = true → self_first_best s ≠ 0) →
  (adj (live s) !! n0 = Some [] →
   ant_step s ant r
   = Raise (if Qltb (first_uniform r) (pc (cfg s)) then IndexError
            else ValueError))
  ∧ (adj (live s) !! n0 = None → ant_step s ant r = Raise NetworkXError).
Proof.
  intros Hant Hverb.
  assert ((if verbose (cfg s) then print_status s else Ok ()) = Ok ())
    as Hprint.
  { destruct (verbose (cfg s)); [|done]. unfold print_status.
    by rewrite decide_False by by apply Hverb. }
  split; intros Hadj.
  - unfold ant_step, mbind at 1, M_bind. rewrite Hprint. simpl.
    unfold mbind at 1, M_bind. rewrite Hant. simpl.
    unfold mbind at 1, M_bind, move_and_color.
    unfold mbind at 1, M_bind. simpl. fold (first_uniform r).
    destruct (Qltb (first_uniform r) (pc (cfg s))).
    + unfold mbind at 1, M_bind, worst_adjacent_node, neighbors.
      by rewrite Hadj.
    + unfold mbind at 1, M_bind. unfold mbind at 1, M_bind, neighbors.
      by rewrite Hadj.
  - unfold ant_step, mbind at 1, M_bind. rewrite Hprint. simpl.
    unfold mbind at 1, M_bind. rewrite Hant. simpl.
    unfold mbind at 1, M_bind, move_and_color.
    unfold mbind at 1, M_bind. simpl. fold (first_uniform r).
    destruct (Qltb (first_uniform r) (pc (cfg s))).
    + unfold mbind at 1, M_bind, worst_adjacent_node, neighbors.
      by rewrite Hadj.
    + unfold mbind at 1, M_bind. unfold mbind at 1, M_bind, neighbors.
      by rewrite Hadj.
Qed.

(** X6.  Construction on a graph without nodes fails with a ValueError ([max] of
    an empty sequence of degrees), whatever the other arguments. *)
Theorem X6_empty_graph_ValueError (g : Graph) (nc : option Z) (na : Z)
    (pre : bool) (p_c p_n : Q) (mi : Z) (mt : Q) (o2 vb : bool) (r : RNG) :
  nodes g = [] →
  __init__ g nc na pre p_c p_n mi mt o2 vb r = Raise ValueError.
Proof.
  intros Hg. unfold __init__, mbind at 1, M_bind, degree_values.
  by rewrite Hg.
Qed.

(** ** When [solve] stops *)

(** X7.  [solve] completes no sweep, and returns the solver as it was with
    [self.i] reset, when the best cost is already 0, when [max_iters] is not
    positive, or when the first elapsed-time reading is not below
    [max_time]. *)
Theorem X7_solve_no_sweep (fuel : nat) (s : AntSolver) (r : RNG)
    (k : Clock) :
  self_cost_best s ≤ 0
  ∨ max_iters (cfg s) ≤ 0
  ∨ (max_time (cfg s) <= ticks k (S (cpos k)) - ticks k (cpos k))%Q →
  solve (S fuel) s r k = ([], Returned (set_i s 0)).
Proof.
  intros H. unfold solve. simpl.
  destruct (bool_decide (self_cost_best s > 0)) eqn:Hc; simpl; [|done].
  destruct (bool_decide (0 < max_iters (cfg s))) eqn:Hi; simpl; [|done].
  apply bool_decide_eq_true in Hc. apply bool_decide_eq_true in Hi.
  destruct H as [H|[H|H]]; [lia | lia |].
  unfold Qltb. apply Qle_bool_iff in H. by rewrite H.
Qed.

(** X8.  A graph without edges converges at once: the constructed solver has
    best cost 0 and [solve] completes no sweep. *)
Theorem X8_edgeless_graph_converged (g : Graph) (nc : option Z) (na : Z)
    (pre : bool) (p_c p_n : Q) (mi : Z) (mt : Q) (o2 vb : bool)
    (r0 r1 r : RNG) (s : AntSolver) (fuel : nat) (k : Clock) :
  (∀ n l, adj g !! n = Some l → l = []) →
  __init__ g nc na pre p_c p_n mi mt o2 vb r0 = Ok (s, r1) →
  self_cost_best s = 0
  ∧ solve (S fuel) s r k = ([], Returned (set_i s 0)).
Proof.
  intros Hedgeless Hinit.
  pose proof (init_cost_inv _ _ _ _ _ _ _ _ _ _ _ _ _ Hinit)
    as (_ & Hn & Ha & Hc).
  apply init_Ok in Hinit
    as (d & g1 & g2 & c & _ & _ & _ & Htot & _ & _ & Hlive & _ & _ & _
        & Hcb & _).
  assert (self_cost_best s = 0) as Hzero.
  { rewrite Hcb. rewrite <- Hlive, (total_cost_cached _ Hc) in Htot.
    injection Htot as <-.
    assert (∀ ns, zsum (conflicts (live s) <$> ns) = 0) as Hsum.
    { induction ns as [|n ns IH]; [done|].
      rewrite fmap_cons. simpl zsum. rewrite IH.
      unfold conflicts. rewrite Ha.
      destruct (adj g !! n) as [l|] eqn:Hl; [|done].
      by rewrite (Hedgeless n l Hl). }
    apply Hsum. }
  split; [done|]. unfold solve. simpl.
  rewrite bool_decide_eq_false_2 by lia. done.
Qed.

Ltac trace_end :=
  repeat split;
  first [ done
        | by intros ? [= <-]
        | by intros ? ? ?
        | intros; simpl in *; lia ].

Lemma solve_loop_stops_at_zero (fuel : nat) (tic : Q) (s : AntSolver)
    (r : RNG) (k : Clock) (tr : list AntSolver) (o : outcome) :
  solve_loop fuel tic s r k = (tr, o) →
  (tr ≠ [] → 0 < self_cost_best s)
  ∧ (∀ j sj, tr !! j = Some sj → (S j < length tr)%nat →
             0 < self_cost_best sj)
  ∧ (∀ s', o = Returned s' → s' = List.last tr s).
Proof.
  revert s r k tr o. induction fuel as [|fuel IH]; intros s r k tr o H.
  - simpl in H. injection H as <- <-. trace_end.
  - simpl in H.
    destruct (bool_decide (self_cost_best s > 0)) eqn:Hc; simpl in H;
      [|injection H as <- <-; trace_end].
    apply bool_decide_eq_true in Hc.
    destruct (negb (bool_decide (self_i s < max_iters (cfg s))));
      [injection H as <- <-; trace_end|].
    destruct (negb (Qltb _ _)); [injection H as <- <-; trace_end|].
    destruct (sweep s r) as [[s1 r1]|e] eqn:Hsweep;
      [|injection H as <- <-; trace_end].
    destruct (bool_decide (self_cost_best s1 = 0));
      [injection H as <- <-; trace_end|].
    destruct (Qltb _ _); [injection H as <- <-; trace_end|].
    destruct (solve_loop fuel tic s1 r1 _) as [tr' o'] eqn:Hrec.
    injection H as <- <-.
    destruct (IH _ _ _ _ _ Hrec) as (Hfirst & Hrest & Hlast).
    repeat split.
    + intros _. lia.
    + intros j sj Hj Hlt. destruct j as [|j].
      * injection Hj as <-. apply Hfirst. simpl in Hlt.
        destruct tr'; [simpl in Hlt; lia | done].
      * simpl in Hj, Hlt. apply (Hrest j); [done | lia].
    + intros s' Ho. rewrite last_cons_default. by apply Hlast.
Qed.

(** X9.  Convergence ends the run: every sweep of a run but the last ends with a
    positive best cost, every sweep starts from a positive best cost, and a
    run that returns hands back the solver as the last completed sweep left
    it. *)
Theorem X9_zero_cost_is_terminal (fuel : nat) (s : AntSolver) (r : RNG)
    (k : Clock) (tr : list AntSolver) (o : outcome) :
  solve fuel s r k = (tr, o) →
  (tr ≠ [] → 0 < self_cost_best s)
  ∧ (∀ j sj, tr !! j = Some sj → (S j < length tr)%nat →
             0 < self_cost_best sj)
  ∧ (∀ s', o = Returned s' → s' = List.last tr (set_i s 0)).
Proof.
  unfold solve. simpl. intros H.
  by apply solve_loop_stops_at_zero in H.
Qed.

(** ** What a run keeps *)

Lemma same_frame_snapshot (s s' : AntSolver) :
  same_frame s s' → valid s → snapshot s' = snapshot s.
Proof.
  intros (_ & _ & Hb & _ & _ & _ & _ & Hh) (_ & _ & Hne).
  unfold snapshot. rewrite Hb, !list_lookup_total_alt. by rewrite Hh.
Qed.

Lemma init_best_inv (g : Graph) (nc : option Z) (na : Z) (pre : bool)
    (p_c p_n : Q) (mi : Z) (mt : Q) (o2 vb : bool) (r r' : RNG)
    (s : AntSolver) :
  __init__ g nc na pre p_c p_n mi mt o2 vb r = Ok (s, r') → best_inv g s.
Proof.
  intros Hinit.
  pose proof (init_cost_inv _ _ _ _ _ _ _ _ _ _ _ _ _ Hinit)
    as (_ & Hn & Ha & Hc).
  apply init_Ok in Hinit
    as (d & g1 & g2 & c & _ & _ & _ & Htot & _ & _ & Hlive & Hsnap & _ & _
        & Hcb & _).
  unfold best_inv. rewrite Hsnap, <- Hlive, Hcb. rewrite <- Hlive in Htot.
  done.
Qed.

Lemma step_best_inv (g : Graph) (s s' : AntSolver) :
  well_formed g → cost_inv g s → best_inv g s → step s s' → best_inv g s'.
Proof.
  intros Hwf Hinv Hbest Hstep.
  destruct Hstep as [s|s|s s' ant r r' Hant|s s' r r' Hsw].
  - done.
  - done.
  - apply ant_step_frame in Hant.
    pose proof (same_frame_snapshot s s' Hant (proj1 Hinv)) as Hsnap.
    destruct Hant as (_ & _ & _ & _ & Hcb & _).
    unfold best_inv. by rewrite Hsnap, Hcb.
  - apply sweep_Ok in Hsw as (s1 & c & Hants & Htot & ->).
    assert (cost_inv g (set_ant_i s 0)) as Hinv0 by done.
    pose proof (for_ants_cost_inv g _ _ _ _ _ Hwf Hinv0 Hants)
      as (Hv1 & Hn1 & Ha1 & Hc1).
    apply for_ants_frame in Hants.
    pose proof (same_frame_snapshot _ s1 Hants (proj1 Hinv0)) as Hsnap.
    destruct Hants as (_ & _ & _ & _ & Hcb & _). simpl in Hcb.
    case_decide.
    + unfold best_inv. rewrite snapshot_record_best. simpl.
      change (live (set_curr_cost s1 c)) with (live s1). done.
    + unfold best_inv.
      change (snapshot (set_curr_cost s1 c)) with (snapshot s1).
      change (self_cost_best (set_curr_cost s1 c)) with (self_cost_best s1).
      rewrite Hsnap, Hcb. apply Hbest.
Qed.

Lemma rtc_step_invs (g : Graph) (s0 s : AntSolver) :
  well_formed g → cost_inv g s0 → best_inv g s0 → rtc step s0 s →
  cost_inv g s ∧ best_inv g s.
Proof.
  intros Hwf Hc Hb Hreach. induction Hreach as [s|s s1 s2 Hstep _ IH]; [done|].
  apply IH.
  - by eapply step_cost_inv.
  - by eapply step_best_inv.
Qed.

(** X10.  In every state reachable from construction on a simple graph, the best
    snapshot is consistent with the best cost: the cached costs of the
    snapshot are right, their sum is [cost_best], and [cost_best] is twice
    the number of edges of the snapshot whose endpoints share a colour. *)
Theorem X10_cost_best_is_cost_of_best (g : Graph) (nc : option Z) (na : Z)
    (pre : bool) (p_c p_n : Q) (mi : Z) (mt : Q) (o2 vb : bool)
    (r0 r1 : RNG) (s0 s : AntSolver) :
  simple g →
  __init__ g nc na pre p_c p_n mi mt o2 vb r0 = Ok (s0, r1) →
  rtc step s0 s →
  total_cost (snapshot s) = Ok (self_cost_best s)
  ∧ self_cost_best s = 2 * conflicting_edges (snapshot s)
  ∧ (∀ n, n ∈ nodes (snapshot s) →
          cost (snapshot s) !! n = Some (conflicts (snapshot s) n)).
Proof.
  intros Hsimple Hinit Hreach.
  destruct (rtc_step_invs g s0 s (proj1 Hsimple)
              (init_cost_inv _ _ _ _ _ _ _ _ _ _ _ _ _ Hinit)
              (init_best_inv _ _ _ _ _ _ _ _ _ _ _ _ _ Hinit) Hreach)
    as [_ (Hn & Ha & Hc & Htot)].
  split; [done|]. split; [|done].
  rewrite (total_cost_cached _ Hc) in Htot. injection Htot as <-.
  apply total_conflicts_even.
  unfold simple, well_formed. rewrite Hn, Ha. apply Hsimple.
Qed.

Lemma init_caller_object (g : Graph) (nc : option Z) (na : Z) (pre : bool)
    (p_c p_n : Q) (mi : Z) (mt : Q) (o2 vb : bool) (r r' : RNG)
    (s : AntSolver) :
  __init__ g nc na pre p_c p_n mi mt o2 vb r = Ok (s, r') →
  heap s !!! 0%nat = g ∧ self_g s ≠ 0%nat ∧ (0 < length (heap s))%nat.
Proof.
  intros H. unfold __init__, copy in H. inv_ok.
  destruct pre; inv_ok.
  - apply init_solver_Ok in H as (ants & g2 & c & _ & _ & _ & ->);
      [|simpl; lia].
    simpl. repeat split; [done | lia].
  - apply init_solver_Ok in H as (ants & g2 & c & _ & _ & _ & ->);
      [|simpl; lia].
    simpl. repeat split; [done | lia].
Qed.

Lemma step_cfg (s s' : AntSolver) : step s s' → cfg s' = cfg s.
Proof.
  intros Hstep. destruct Hstep as [s|s|s s' ant r r' Hant|s s' r r' Hsw].
  - done.
  - done.
  - by apply ant_step_frame in Hant as (? & _).
  - apply sweep_Ok in Hsw as (s1 & c & Hants & _ & ->).
    apply for_ants_frame in Hants as (Hc & _). simpl in Hc.
    by case_decide.
Qed.

Lemma rtc_step_cfg (s s' : AntSolver) : rtc step s s' → cfg s' = cfg s.
Proof.
  induction 1 as [s|s s1 s2 Hstep _ IH]; [done|].
  rewrite IH. by apply step_cfg.
Qed.

(** X11.  The solver works on copies: in every state reachable from construction
    on [g], the graph object the caller passed in is as it was (no colour or
    cost is written to it), the live graph has the nodes and adjacency of
    [g], and the configuration is the one set at construction. *)
Theorem X11_caller_graph_untouched (g : Graph) (nc : option Z) (na : Z)
    (pre : bool) (p_c p_n : Q) (mi : Z) (mt : Q) (o2 vb : bool)
    (r0 r1 : RNG) (s0 s : AntSolver) :
  well_formed g →
  __init__ g nc na pre p_c p_n mi mt o2 vb r0 = Ok (s0, r1) →
  rtc step s0 s →
  heap s !!! 0%nat = g
  ∧ nodes (live s) = nodes g ∧ adj (live s) = adj g
  ∧ cfg s = cfg s0.
Proof.
  intros Hwf Hinit Hreach.
  pose proof (init_caller_object _ _ _ _ _ _ _ _ _ _ _ _ _ Hinit)
    as (H0 & Hg0 & Hlen).
  pose proof (init_cost_inv _ _ _ _ _ _ _ _ _ _ _ _ _ Hinit) as Hinv.
  destruct (rtc_step_extends s0 s Hreach (proj1 Hinv))
    as (_ & _ & _ & Hold & _).
  destruct (rtc_step_invs g s0 s Hwf Hinv
              (init_best_inv _ _ _ _ _ _ _ _ _ _ _ _ _ Hinit) Hreach)
    as [(_ & Hn & Ha & _) _].
  split; [|split; [done|split; [done|by apply rtc_step_cfg]]].
  rewrite Hold; [done | congruence | done].
Qed.

(** ** The effect of one ant step *)

Lemma argmin_Ok_lt (l : list Z) (k : nat) :
  argmin l = Ok k → (k < length l)%nat.
Proof.
  intros Hk. destruct (argmin_spec l) as (k' & Hk' & v & Hv & _).
  { by destruct l. }
  rewrite Hk in Hk'. injection Hk' as <-. by eapply lookup_lt_Some.
Qed.

Lemma change_to_best_range (g g' : Graph) (nc : Z) (ant : node) (o2 : bool) :
  change_to_best g nc ant o2 = Ok g' →
  ∃ c, g' = recolor g ant c ∧ 0 ≤ c < nc.
Proof.
  intros H. unfold change_to_best in H. inv_ok.
  match goal with Ht : try_colors _ _ _ _ _ = Ok ?p |- _ =>
    destruct p as [g1 ks]; apply try_colors_Ok in Ht as [Hlen Hg1] end.
  simpl in H. inv_ok.
  match goal with Ha : argmin _ = Ok ?b |- _ =>
    apply argmin_Ok_lt in Ha; rename b into best end.
  rewrite Hlen, length_arange in *.
  apply set_color_Ok in H as [-> _].
  exists (Z.of_nat best). split; [|lia].
  destruct Hg1 as [->|[c' ->]]; [done | apply recolor_recolor].
Qed.

Lemma change_to_random_range (g g' : Graph) (nc : Z) (ant : node)
    (r r' : RNG) :
  change_to_random g nc ant r = Ok (g', r') →
  ∃ c, g' = recolor g ant c ∧ 0 ≤ c < nc.
Proof.
  intros H. unfold change_to_random in H. inv_ok.
  match goal with Hc : choice _ _ = Ok (?c, _) |- _ =>
    apply choice_Ok in Hc as [Hin _]; exists c end.
  match goal with Hs : set_color _ _ _ = _ |- _ =>
    apply set_color_Ok in Hs as [-> _] end.
  split; [done | by apply arange_elem_of].
Qed.

Lemma worst_adjacent_node_table (g : Graph) (o2 : bool) (nbrs : list node)
    (tbl : list (node * Z)) :
  mapM (λ nei, c ← (if o2 then local_potential g nei else get_cost g nei);
               mret (nei, c)) nbrs = Ok tbl →
  tbl.*1 = nbrs
  ∧ (int64_rows g o2 nbrs → np_array2 tbl = tbl).
Proof.
  intros H%mapM_res_Ok.
  assert (tbl.*1 = nbrs
          ∧ (int64_rows g o2 nbrs → Forall int64 tbl.*2)) as [H1 H2].
  { induction H as [|nei row nbrs tbl Hrow _ [IH1 IH2]]; [done|].
    apply res_bind_Ok in Hrow as (c & Hc & Hrow).
    change (Ok (nei, c) = Ok row) in Hrow. injection Hrow as <-.
    rewrite !fmap_cons. simpl. split; [by rewrite IH1|].
    intros Hfit. constructor.
    - destruct (Hfit nei) as [_ Hfc]; [by left|]. by apply Hfc.
    - apply IH2. intros m Hm. apply Hfit. by right. }
  split; [done|]. intros Hfit. apply np_array2_int64; [|by apply H2].
  unfold node in *. rewrite H1. apply Forall_forall. intros m Hm. by apply Hfit.
Qed.

Lemma worst_adjacent_node_Ok (g : Graph) (n0 n1 : node) (o2 : bool) :
  worst_adjacent_node g n0 o2 = Ok n1 →
  ∃ nbrs, adj g !! n0 = Some nbrs
          ∧ (int64_rows g o2 nbrs → n1 ∈ nbrs).
Proof.
  intros H. unfold worst_adjacent_node, neighbors in H.
  destruct (adj g !! n0) as [nbrs|] eqn:Hadj; [|done].
  rewrite res_bind_ok_l in H. inv_ok.
  match goal with Hm : mapM _ _ = Ok ?rows |- _ =>
    destruct (worst_adjacent_node_table _ _ _ _ Hm) as [Hfst Hexact];
    rename rows into tbl end.
  exists nbrs. split; [done|]. intros Hfit.
  cbv zeta in H. rewrite (Hexact Hfit) in H.
  destruct tbl as [|row0 tbl'] eqn:Hr; [done|]. rewrite <- Hr in *.
  inv_ok.
  match type of H with context [tbl !! ?k] =>
    destruct (tbl !! k) as [row|] eqn:Hk; [|done];
    injection H as <-; rewrite <- Hfst; apply list_elem_of_lookup; exists k;
    unfold node in *; by rewrite list_lookup_fmap, Hk end.
Qed.

Lemma move_and_color_target (c : Config) (g g' : Graph) (n0 n1 : node)
    (r r' : RNG) :
  move_and_color c g n0 r = Ok ((n1, g'), r') →
  ∃ nbrs0 col,
    adj g !! n0 = Some nbrs0
    ∧ (int64_rows g (order_2 c) nbrs0 → n1 ∈ nbrs0)
    ∧ int64 n1
    ∧ 0 ≤ col < n_colors c
    ∧ color g' = <[n1:=col]> (color g).
Proof.
  intros H.
  pose proof (move_and_color_Ok _ _ _ _ _ _ _ H)
    as (col0 & nbrs1 & _ & _ & _ & Hcol0 & _).
  unfold move_and_color in H. inv_ok.
  match goal with Hs : setitem_int64 ?v = Ok ?w |- _ =>
    apply setitem_int64_Ok in Hs as [-> Hint]; rename v into n1 end.
  match goal with Hm : (if Qltb _ (pc c) then _ else _) _ = Ok _ |- _ =>
    assert (∃ nbrs0, adj g !! n0 = Some nbrs0
                     ∧ (int64_rows g (order_2 c) nbrs0 → n1 ∈ nbrs0))
      as (nbrs0 & Hadj0 & Hin0);
    [destruct (Qltb _ (pc c)); inv_ok;
       [by eapply worst_adjacent_node_Ok|]
    | clear Hm] end.
  { match goal with Hn : neighbors g n0 = Ok ?l |- _ =>
      unfold neighbors in Hn; destruct (adj g !! n0) as [l0|]; [|done];
      injection Hn as -> end.
    match goal with Hc : choice _ _ = Ok _ |- _ =>
      apply choice_Ok in Hc as [Hin _] end.
    eexists. split; [done|]. intros Hfit.
    rewrite np_array_int64 in Hin; [done|].
    apply Forall_forall. intros m Hm. by apply Hfit. }
  match goal with Hc : (if Qltb _ (pn c) then _ else _) _ = Ok (?g1, _) |- _ =>
    assert (∃ col, g1 = recolor g n1 col ∧ 0 ≤ col < n_colors c)
      as (col & -> & Hrange);
    [destruct (Qltb _ (pn c)); inv_ok;
       [by eapply change_to_best_range | by eapply change_to_random_range]
    | clear Hc] end.
  exists nbrs0, col. do 4 (split; [done|]).
  match goal with Hk : conflict_level _ _ = Ok _ |- _ => clear Hk end.
  match goal with Hs : set_cost _ _ _ = Ok ?g2 |- _ =>
    apply set_cost_Ok in Hs as (_ & _ & Hc2 & _) end.
  match goal with Hr : refresh_costs _ _ = Ok _ |- _ =>
    apply refresh_costs_Ok in Hr as (_ & _ & Hc3 & _) end.
  by rewrite Hc3, Hc2.
Qed.

Lemma ant_step_recolours (s s' : AntSolver) (ant : nat) (r r' : RNG) :
  (self_g s < length (heap s))%nat →
  ant_step s ant r = Ok (s', r') →
  ∃ n1 col,
    0 ≤ col < n_colors (cfg s)
    ∧ color (live s') = <[n1:=col]> (color (live s))
    ∧ is_Some (adj (live s) !! n1)
    ∧ self_ants s' = <[ant:=n1]> (self_ants s)
    ∧ adj (live s') = adj (live s)
    ∧ nodes (live s') = nodes (live s)
    ∧ (∀ m, is_Some (cost (live s) !! m) → is_Some (cost (live s') !! m)).
Proof.
  intros Hg (n0 & n1 & g' & Hant & Hmove & ->)%ant_step_Ok.
  assert (live (set_ant_i
             (set_live (set_ants s (<[ant:=n1]> (self_ants s))) g')
             (self_ant_i s + 1)) = g') as ->.
  { unfold live. simpl. by apply list_lookup_total_insert_eq. }
  destruct (move_and_color_target _ _ _ _ _ _ _ Hmove)
    as (nbrs0 & col & _ & _ & _ & Hrange & Hcol).
  destruct (move_and_color_Ok _ _ _ _ _ _ _ Hmove)
    as (_ & nbrs1 & Hadj1 & Hn & Ha & _ & Hin & Hout).
  exists n1, col. rewrite Hadj1. repeat split; try done; try lia.
  intros m Hm. destruct (decide (m ∈ n1 :: nbrs1)) as [Hnear|Hfar].
  - by rewrite (Hin m Hnear).
  - by rewrite (Hout m Hfar).
Qed.

(** X12.  One ant step moves the ant along an edge and recolours where it
    lands.  When the names of the neighbours of the ant's node and their
    cost metrics fit in int64, a successful step puts the ant on one of
    these neighbours, [n1], a name that fits in int64; the other ants stay
    where they are, only the colour of [n1] is written, with a colour of
    [0, n_colors), the graph keeps its nodes and edges, the cached costs of
    [n1] and of its neighbours are right afterwards, and no other cached
    cost is written. *)
Theorem X12_ant_step_effect (s s' : AntSolver) (ant : nat) (r r' : RNG)
    (n0 : node) (nbrs0 : list node) :
  (self_g s < length (heap s))%nat →
  self_ants s !! ant = Some n0 →
  adj (live s) !! n0 = Some nbrs0 →
  int64_rows (live s) (order_2 (cfg s)) nbrs0 →
  ant_step s ant r = Ok (s', r') →
  ∃ n1 nbrs1 col,
    n1 ∈ nbrs0 ∧ int64 n1
    ∧ self_ants s' = <[ant:=n1]> (self_ants s)
    ∧ 0 ≤ col < n_colors (cfg s)
    ∧ color (live s') = <[n1:=col]> (color (live s))
    ∧ nodes (live s') = nodes (live s) ∧ adj (live s') = adj (live s)
    ∧ adj (live s) !! n1 = Some nbrs1
    ∧ (∀ m, m ∈ n1 :: nbrs1 →
            cost (live s') !! m = Some (conflicts (live s') m))
    ∧ (∀ m, m ∉ n1 :: nbrs1 → cost (live s') !! m = cost (live s) !! m).
Proof.
  intros Hg Hant0 Hadj Hfit (n0' & n1 & g' & Hant & Hmove & ->)%ant_step_Ok.
  rewrite Hant0 in Hant. injection Hant as <-.
  assert (live (set_ant_i
             (set_live (set_ants s (<[ant:=n1]> (self_ants s))) g')
             (self_ant_i s + 1)) = g') as ->.
  { unfold live. simpl. by apply list_lookup_total_insert_eq. }
  destruct (move_and_color_target _ _ _ _ _ _ _ Hmove)
    as (nbrs0' & col & Hadj0 & Hin0 & Hint & Hrange & Hcol).
  rewrite Hadj in Hadj0. injection Hadj0 as <-.
  destruct (move_and_color_Ok _ _ _ _ _ _ _ Hmove)
    as (col' & nbrs1 & Hadj1 & Hn & Ha & _ & Hin & Hout).
  exists n1, nbrs1, col.
  split; [by apply Hin0|]. split; [done|]. repeat split; try done; lia.
Qed.

(** ** Invariants of a run *)

(** A property kept by the scalar assignments, by recording a strictly
    better best and by every ant step holds in every reachable state. *)
Lemma rtc_step_preserves (P : AntSolver → Prop) :
  (∀ s k, P s → P (set_i s k)) →
  (∀ s k, P s → P (set_ant_i s k)) →
  (∀ s c, P s → P (set_curr_cost s c)) →
  (∀ s c, P s → c < self_cost_best s → total_cost (live s) = Ok c →
          P (record_best s c)) →
  (∀ s ant r s' r', P s → ant_step s ant r = Ok (s', r') → P s') →
  ∀ s s', rtc step s s' → P s → P s'.
Proof.
  intros Hi Hai Hcc Hrb Hant.
  assert (∀ rng s r s' r', P s → for_ants s rng r = Ok (s', r') → P s')
    as Hfor.
  { induction rng as [|ant rng IH]; intros s r s' r' HP H.
    - simpl in H. by inv_ok.
    - simpl in H. inv_ok. eapply IH; [|done]. by eapply Hant. }
  assert (∀ s s', step s s' → P s → P s') as Hstep.
  { intros s s' Hs HP.
    destruct Hs as [s|s|s s' ant r r' Ha|s s' r r' Hsw].
    - by apply Hi.
    - by apply Hai.
    - by eapply Hant.
    - apply sweep_Ok in Hsw as (s1 & c & Hants & Htot & ->).
      apply Hfor in Hants; [|by apply Hai].
      case_decide; [|by apply Hcc].
      apply Hrb; [by apply Hcc | done | done]. }
  intros s s' Hreach. induction Hreach as [s|s s1 s2 Hs _ IH]; [done|].
  intros HP. apply IH. by eapply Hstep.
Qed.

Lemma colours_in_range_reachable (g : Graph) (nc : Z) (s s' : AntSolver) :
  rtc step s s' → colours_in_range g nc s → colours_in_range g nc s'.
Proof.
  apply (rtc_step_preserves (colours_in_range g nc)).
  - done.
  - done.
  - done.
  - intros s0 c (Hg & Hnc & Hcol) _ _. split; [|split; [done|]].
    + simpl. rewrite length_app. simpl. lia.
    + by rewrite live_record_best.
  - intros s0 ant r s1 r1 (Hg & Hnc & Hcol) Hstep.
    pose proof (ant_step_frame _ _ _ _ _ Hstep)
      as (Hcfg & Hg1 & _ & _ & _ & _ & Hlen & _).
    destruct (ant_step_recolours s0 s1 ant r r1 Hg Hstep)
      as (n1 & col & Hrange & Hc1 & _).
    split; [by rewrite Hg1, Hlen|]. split; [by rewrite Hcfg|].
    intros n Hn. rewrite Hc1.
    destruct (decide (n = n1)) as [->|Hne].
    + exists col. rewrite lookup_insert_eq. split; [done|lia].
    + rewrite lookup_insert_ne by done. by apply Hcol.
Qed.

Lemma random_node_coloring_colours (g g' : Graph) (n : option Z)
    (r r' : RNG) :
  random_node_coloring g n r = Ok (g', r') →
  ∃ d, py_max (degree_values g) = Ok d
       ∧ ∀ v, v ∈ nodes g →
              ∃ c, color g' !! v = Some c ∧ 0 ≤ c < palette d n.
Proof.
  intros H. unfold random_node_coloring in H. inv_ok.
  match goal with Hd : py_max _ = Ok ?d |- _ => exists d end.
  split; [done|].
  apply color_nodes_Ok in H as (_ & _ & _ & Hcol & _).
  intros v Hv. destruct (Hcol v Hv) as (c & Hc & Hin).
  exists c. split; [done|]. by apply arange_elem_of.
Qed.

Lemma palette_le (d k : Z) : palette d (Some k) ≤ k.
Proof. simpl. case_decide; lia. Qed.

(** X13.  The colours stay in range.  After construction with
    [pre_colored = False], or with [pre_colored = True] on a graph whose
    nodes all have a colour of [0, n_colors), every node has a colour of
    [0, n_colors) in every reachable state. *)
Theorem X13_colours_stay_in_range (g : Graph) (nc : option Z) (na : Z)
    (pre : bool) (p_c p_n : Q) (mi : Z) (mt : Q) (o2 vb : bool)
    (r0 r1 : RNG) (s0 s : AntSolver) :
  __init__ g nc na pre p_c p_n mi mt o2 vb r0 = Ok (s0, r1) →
  (pre = true →
   ∀ n, n ∈ nodes g →
        ∃ c, color g !! n = Some c ∧ 0 ≤ c < n_colors (cfg s0)) →
  rtc step s0 s →
  ∀ n, n ∈ nodes g →
       ∃ c, color (live s) !! n = Some c ∧ 0 ≤ c < n_colors (cfg s).
Proof.
  intros Hinit Hpre Hreach.
  assert (colours_in_range g (n_colors (cfg s0)) s0) as Hinv.
  { apply init_Ok in Hinit
      as (d & g1 & g2 & c & Hd & Hg1 & Href & _ & _ & Hcfg & Hlive & _ & Hv
          & _).
    split; [apply Hv|]. split; [done|].
    apply refresh_costs_Ok in Href as (_ & _ & Hc2 & _).
    rewrite Hlive, Hc2.
    destruct pre.
    - subst g1. by apply Hpre.
    - destruct Hg1 as [r' Hg1].
      apply random_node_coloring_colours in Hg1 as (d' & Hd' & Hcol).
      rewrite Hd in Hd'. injection Hd' as <-.
      intros n Hn. destruct (Hcol n Hn) as (c0 & Hc0 & Hrange).
      exists c0. split; [done|]. rewrite Hcfg. simpl.
      pose proof (palette_le d (default (d + 1) nc)). lia. }
  destruct (colours_in_range_reachable g _ s0 s Hreach Hinv)
    as (_ & Hnc & Hcol).
  rewrite Hnc. done.
Qed.

Lemma init_ants_places (g : Graph) (nc : option Z) (na : Z) (pre : bool)
    (p_c p_n : Q) (mi : Z) (mt : Q) (o2 vb : bool) (r r' : RNG)
    (s : AntSolver) :
  __init__ g nc na pre p_c p_n mi mt o2 vb r = Ok (s, r') →
  n_ants (cfg s) ≤ number_of_nodes g
  ∧ self_ants s ≡ₚ arange (n_ants (cfg s)).
Proof.
  intros (d & g1 & g2 & c & _ & _ & _ & _ & [r0 Hants] & Hcfg & _)%init_Ok.
  rewrite Hcfg. simpl. split; [lia|].
  set (n := Z.min na (number_of_nodes g)) in *.
  destruct (decide (1 ≤ n)) as [Hn|Hn].
  - destruct (choice_no_replace_arange n r0 Hn) as (l & r1 & Hl & Hperm).
    rewrite Hl in Hants. by injection Hants as <- <-.
  - unfold choice_no_replace in Hants.
    replace (arange n) with (@nil Z) in Hants; [done|].
    by rewrite arange_nonpos by lia.
Qed.

Lemma ants_on_nodes_reachable (g : Graph) (s s' : AntSolver) :
  rtc step s s' → ants_on_nodes g s → ants_on_nodes g s'.
Proof.
  apply (rtc_step_preserves (ants_on_nodes g)).
  - done.
  - done.
  - done.
  - intros s0 c (Hg & Ha & Hlen & Hall) _ _. split; [|split; [|done]].
    + simpl. rewrite length_app. simpl. lia.
    + by rewrite live_record_best.
  - intros s0 ant r s1 r1 (Hg & Ha & Hlen & Hall) Hstep.
    pose proof (ant_step_frame _ _ _ _ _ Hstep)
      as (Hcfg & Hg1 & _ & _ & _ & _ & Hlen1 & _).
    destruct (ant_step_recolours s0 s1 ant r r1 Hg Hstep)
      as (n1 & col & _ & _ & Hn1 & Hants & Ha1 & _).
    split; [by rewrite Hg1, Hlen1|]. split; [congruence|].
    rewrite Hants, Hcfg, length_insert. split; [done|].
    rewrite Ha in Hn1.
    by apply Forall_insert.
Qed.

(** X14.  On a graph whose nodes are named [0 .. N-1] the ants never leave the
    graph: in every reachable state there are [n_ants] ants, each on a node
    of the graph. *)
Theorem X14_ants_stay_on_nodes (g : Graph) (nc : option Z) (na : Z)
    (pre : bool) (p_c p_n : Q) (mi : Z) (mt : Q) (o2 vb : bool)
    (r0 r1 : RNG) (s0 s : AntSolver) :
  well_formed g →
  (∀ i, 0 ≤ i < number_of_nodes g → i ∈ nodes g) →
  __init__ g nc na pre p_c p_n mi mt o2 vb r0 = Ok (s0, r1) →
  rtc step s0 s →
  length (self_ants s) = Z.to_nat (n_ants (cfg s))
  ∧ Forall (λ a, a ∈ nodes g) (self_ants s).
Proof.
  intros Hwf Hdense Hinit Hreach.
  assert (ants_on_nodes g s0) as Hinv.
  { pose proof (init_cost_inv _ _ _ _ _ _ _ _ _ _ _ _ _ Hinit)
      as ((Hg & _) & _ & Ha & _).
    destruct (init_ants_places _ _ _ _ _ _ _ _ _ _ _ _ _ Hinit)
      as (Hn & Hperm).
    split; [done|]. split; [done|]. split.
    - rewrite Hperm, length_arange. done.
    - apply Forall_forall. intros a Hin. rewrite Hperm in Hin.
      apply arange_elem_of in Hin. apply well_formed_node; [done|].
      apply Hdense. lia. }
  destruct (ants_on_nodes_reachable g s0 s Hreach Hinv)
    as (_ & _ & Hlen & Hall).
  split; [done|]. eapply Forall_impl; [done|].
  intros a Ha. by apply well_formed_node.
Qed.

(** ** A run on a sound input raises nothing *)


Lemma subgraph_adj_lookup (g : Graph) (nbunch : list node) (x : node)
    (l : list node) :
  adj g !! x = Some l → x ∈ nbunch →
  adj (subgraph g nbunch) !! x = Some (filter (λ m, m ∈ nbunch) l).
Proof.
  intros Hadj Hx. unfold subgraph. simpl. rewrite lookup_fmap.
  by rewrite (map_lookup_filter_Some_2 _ (adj g) x l Hadj).
Qed.
















Lemma M_bind_lift_ok {A B} (x : res A) (f : A → M B) (r : RNG) (a : A) :
  x = Ok a → (lift x ≫= f) r = f a r.
Proof. intros ->. done. Qed.















(** ** Which exceptions a run can raise *)

Lemma res_raises_weaken {A} (P Q : exn → Prop) (m : res A) :
  (∀ e, P e → Q e) → res_raises P m → res_raises Q m.
Proof. intros HPQ Hm e He. by apply HPQ, Hm. Qed.

Lemma M_raises_weaken {A} (P Q : exn → Prop) (m : M A) :
  (∀ e, P e → Q e) → M_raises P m → M_raises Q m.
Proof. intros HPQ Hm r e He. by eapply HPQ, Hm. Qed.

Lemma library_step_error (e : exn) : library_error e → step_error e.
Proof. unfold library_error, step_error. tauto. Qed.

Lemma res_raises_library {A} (m : res A) :
  res_raises library_error m → res_raises step_error m.
Proof. apply res_raises_weaken, library_step_error. Qed.

Lemma local_potential_raises (g : Graph) (n : node) :
  res_raises library_error (local_potential g n).
Proof.
  unfold local_potential. apply res_raises_bind; [apply neighbors_raises|].
  intros nbrs. apply res_raises_bind.
  { apply res_raises_mapM. intros m. apply conflict_level_raises. }
  intros ls. apply res_raises_bind; [apply conflict_level_raises|].
  intros own. apply res_raises_ok.
Qed.

Lemma worst_adjacent_node_raises (g : Graph) (n : node) (o2 : bool) :
  res_raises step_error (worst_adjacent_node g n o2).
Proof.
  unfold worst_adjacent_node.
  apply res_raises_bind; [apply res_raises_library, neighbors_raises|].
  intros nbrs. apply res_raises_bind.
  { apply res_raises_mapM. intros nei. apply res_raises_bind.
    - apply res_raises_library.
      destruct o2; [apply local_potential_raises | apply get_cost_raises].
    - intros c. apply res_raises_ok. }
  intros tbl. cbv zeta. destruct (np_array2 tbl) as [|row tbl'].
  { apply res_raises_raise. unfold step_error. tauto. }
  apply res_raises_bind; [apply res_raises_ok|].
  intros k. destruct (_ !! k).
  - apply res_raises_ok.
  - apply res_raises_raise. unfold step_error. tauto.
Qed.

Lemma try_colors_raises (cs : list Z) (g : Graph) (nbunch : list node)
    (ant : node) (o2 : bool) :
  res_raises library_error (try_colors g nbunch ant o2 cs).
Proof.
  revert g. induction cs as [|c cs IH]; intros g.
  - apply res_raises_ok.
  - rewrite try_colors_cons.
    apply res_raises_bind; [apply set_color_raises|]. intros g1.
    apply res_raises_bind.
    { destruct o2; [apply local_potential_raises|apply conflict_level_raises]. }
    intros k. apply res_raises_bind; [apply IH|].
    intros [g2 ks]. apply res_raises_ok.
Qed.

Lemma change_to_best_raises (g : Graph) (nc : Z) (ant : node) (o2 : bool) :
  res_raises library_error (change_to_best g nc ant o2).
Proof.
  unfold change_to_best.
  apply res_raises_bind; [apply neighbors_raises|]. intros nbrs.
  apply res_raises_bind; [apply try_colors_raises|]. intros [g' ks].
  apply res_raises_bind; [|intros best; apply set_color_raises].
  unfold argmin. destruct ks.
  - apply res_raises_raise. unfold library_error. tauto.
  - apply res_raises_ok.
Qed.

Lemma change_to_random_raises (g : Graph) (nc : Z) (ant : node) :
  M_raises library_error (change_to_random g nc ant).
Proof.
  unfold change_to_random.
  apply M_raises_bind; [apply choice_raises|]. intros c.
  apply M_raises_lift, set_color_raises.
Qed.

Lemma random_raises (P : exn → Prop) : M_raises P random.
Proof. by intros r e. Qed.

Lemma move_and_color_raises (c : Config) (g : Graph) (n0 : node) :
  M_raises step_error (move_and_color c g n0).
Proof.
  unfold move_and_color.
  apply M_raises_bind; [apply random_raises|]. intros u.
  apply M_raises_bind.
  { destruct (Qltb u (pc c)).
    - apply M_raises_lift, worst_adjacent_node_raises.
    - apply (M_raises_weaken library_error); [apply library_step_error|].
      apply M_raises_bind; [apply M_raises_lift, neighbors_raises|].
      intros nbrs. apply choice_raises. }
  intros n1. apply M_raises_bind.
  { apply M_raises_lift. intros e. unfold setitem_int64.
    case_decide; [done|]. intros [= <-]. unfold step_error. tauto. }
  intros n1'. apply M_raises_bind; [apply random_raises|]. intros v.
  apply (M_raises_weaken library_error); [apply library_step_error|].
  apply M_raises_bind.
  { destruct (Qltb v (pn c)).
    - apply M_raises_lift, change_to_best_raises.
    - apply change_to_random_raises. }
  intros g1.
  apply M_raises_bind; [apply M_raises_lift, conflict_level_raises|].
  intros k.
  apply M_raises_bind; [apply M_raises_lift, set_cost_raises|].
  intros g2.
  apply M_raises_bind; [apply M_raises_lift, neighbors_raises|].
  intros nbrs.
  apply M_raises_bind; [apply M_raises_lift, refresh_costs_raises|].
  intros g3. apply M_raises_ret.
Qed.

Lemma ant_step_raises (s : AntSolver) (ant : nat) :
  self_first_best s ≠ 0 → M_raises step_error (ant_step s ant).
Proof.
  intros Hfb. unfold ant_step.
  apply M_raises_bind.
  { apply M_raises_lift. destruct (verbose (cfg s)); [|apply res_raises_ok].
    unfold print_status. rewrite decide_False by done. apply res_raises_ok. }
  intros _. apply M_raises_bind.
  { apply M_raises_lift. destruct (self_ants s !! ant); simpl.
    - apply res_raises_ok.
    - apply res_raises_raise. unfold step_error. tauto. }
  intros n0. apply M_raises_bind; [apply move_and_color_raises|].
  intros [n1 g']. apply M_raises_ret.
Qed.

Lemma for_ants_raises (rng : list nat) (s : AntSolver) :
  self_first_best s ≠ 0 → M_raises step_error (for_ants s rng).
Proof.
  revert s. induction rng as [|ant rng IH]; intros s Hfb.
  - apply M_raises_ret.
  - intros r e. simpl. unfold mbind, M_bind.
    destruct (ant_step s ant r) as [[s1 r1]|e'] eqn:Hs1.
    + apply IH. apply ant_step_frame in Hs1 as (_ & _ & _ & _ & _ & -> & _).
      done.
    + intros [= <-]. by eapply ant_step_raises.
Qed.

Lemma sweep_raises (s : AntSolver) :
  self_first_best s ≠ 0 → M_raises step_error (sweep s).
Proof.
  intros Hfb. unfold sweep.
  apply M_raises_bind; [by apply for_ants_raises|]. intros s1.
  apply M_raises_bind.
  { apply M_raises_lift, res_raises_library, total_cost_raises. }
  intros c. apply M_raises_ret.
Qed.

Lemma first_best_bound_reachable (s s' : AntSolver) :
  rtc step s s' → self_cost_best s ≤ self_first_best s →
  self_cost_best s' ≤ self_first_best s'.
Proof.
  apply (rtc_step_preserves (λ s, self_cost_best s ≤ self_first_best s)).
  - done.
  - done.
  - done.
  - intros s0 c Hle Hlt _. simpl. lia.
  - intros s0 ant r s1 r1 Hle
      (_ & _ & _ & _ & -> & -> & _)%ant_step_frame. done.
Qed.

Lemma solve_loop_raises (fuel : nat) (tic : Q) (s : AntSolver) (r : RNG)
    (k : Clock) (e : exn) :
  self_cost_best s ≤ self_first_best s →
  (solve_loop fuel tic s r k).2 = Raised e → step_error e.
Proof.
  revert s r k. induction fuel as [|fuel IH]; intros s r k Hle; [done|].
  simpl.
  destruct (bool_decide (self_cost_best s > 0)) eqn:Hc; simpl; [|done].
  apply bool_decide_eq_true in Hc.
  destruct (negb (bool_decide (self_i s < max_iters (cfg s)))); [done|].
  destruct (negb (Qltb _ _)); [done|].
  destruct (sweep s r) as [[s1 r1]|e'] eqn:Hs1.
  - destruct (bool_decide (self_cost_best s1 = 0)); [done|].
    destruct (Qltb _ _); [done|].
    assert (self_cost_best s1 ≤ self_first_best s1) as Hle1.
    { eapply first_best_bound_reachable; [|done].
      apply rtc_once. by eapply step_sweep. }
    specialize (IH s1 r1 {| ticks := ticks k; cpos := S (S (cpos k)) |} Hle1).
    destruct (solve_loop fuel tic s1 r1 _) as [tr o]. done.
  - simpl. intros [= <-]. eapply (sweep_raises s); [lia | done].
Qed.

(** X16.  A run on a constructed solver can only end with the exception of a
    library call, of an index or of the conversion of a node name for the
    int64 array of ants: a ValueError, a KeyError, an IndexError, a
    NetworkXError or an OverflowError.  In particular the division in
    [print_status] never fails inside [solve], and no ConfigurationError or
    InvalidGraphError is ever raised. *)
Theorem X16_solve_exceptions (g : Graph) (nc : option Z) (na : Z)
    (pre : bool) (p_c p_n : Q) (mi : Z) (mt : Q) (o2 vb : bool)
    (r0 r1 r : RNG) (s : AntSolver) (fuel : nat) (k : Clock) (e : exn) :
  __init__ g nc na pre p_c p_n mi mt o2 vb r0 = Ok (s, r1) →
  (solve fuel s r k).2 = Raised e →
  e = ValueError ∨ e = KeyError ∨ e = IndexError ∨ e = NetworkXError
  ∨ e = OverflowError.
Proof.
  intros Hinit Hraise.
  apply init_Ok in Hinit
    as (d & g1 & g2 & c & _ & _ & _ & _ & _ & _ & _ & _ & _ & _ & Hcb & _
        & Hfb).
  unfold solve in Hraise. simpl in Hraise.
  eapply solve_loop_raises; [|done]. simpl. lia.
Qed.

(** ** Order-2 mode and the choice of the best colour *)

Lemma filter_split_at {A} `{EqDecision A} (P : A → Prop)
    `{∀ x, Decision (P x)} (a : A) (l : list A) :
  NoDup l → a ∈ l →
  length (filter P l)
  = ((if decide (P a) then 1 else 0)
     + length (filter (λ x, x ≠ a ∧ P x) l))%nat.
Proof.
  induction l as [|y l IH]; intros Hnd Hin; [by apply elem_of_nil in Hin|].
  apply NoDup_cons in Hnd as [Hy Hnd].
  destruct (decide (y = a)) as [->|Hne].
  - rewrite (filter_cons_False (λ x, x ≠ a ∧ P x)) by tauto.
    assert (filter P l = filter (λ x, x ≠ a ∧ P x) l) as Hl.
    { apply filter_ext_elem. intros x Hx. split; [|tauto].
      intros HP. split; [by intros ->|done]. }
    destruct (decide (P a)).
    + rewrite filter_cons_True by done. simpl. by rewrite Hl.
    + rewrite filter_cons_False by done. by rewrite Hl.
  - apply elem_of_cons in Hin as [->|Hin]; [done|].
    specialize (IH Hnd Hin).
    destruct (decide (P y)) as [HP|HP].
    + rewrite filter_cons_True by done.
      rewrite (filter_cons_True (λ x, x ≠ a ∧ P x)) by done.
      simpl. rewrite IH. lia.
    + rewrite filter_cons_False by done.
      rewrite (filter_cons_False (λ x, x ≠ a ∧ P x)) by tauto.
      done.
Qed.

Lemma conflict_level_trial_nbr (g : Graph) (ant m : node)
    (nbrs : list node) (c : Z) :
  well_formed g →
  adj g !! ant = Some nbrs →
  ant ∉ nbrs →
  (∀ y, y ∈ nbrs → is_Some (color g !! y)) →
  m ∈ nbrs →
  conflict_level (subgraph (recolor g ant c) (ant :: nbrs)) m
  = Ok ((if decide (color g !! m = Some c) then 1 else 0)
        + Z.of_nat (length
            (filter (λ x, x ∈ nbrs ∧ color g !! x = color g !! m)
                    (nb g m)))).
Proof.
  intros Hwf Hadj Hself Hcol Hm.
  destruct (well_formed_sym g ant m nbrs Hwf Hadj Hm) as (lm & Hlm & Hant).
  assert (m ≠ ant) as Hne by (intros ->; done).
  set (g1 := recolor g ant c).
  assert (adj (subgraph g1 (ant :: nbrs)) !! m
          = Some (filter (λ x, x ∈ ant :: nbrs) lm)) as Hsub.
  { apply subgraph_adj_lookup; [done | by right]. }
  rewrite (conflict_level_total _ m _ Hsub).
  - f_equal. unfold conflicts. rewrite Hsub. simpl default.
    rewrite list_filter_filter.
    rewrite (filter_split_at _ ant lm);
      [|by eapply well_formed_nbrs_NoDup|done].
    rewrite Nat2Z.inj_add. unfold nb. rewrite Hlm. simpl default.
    f_equal.
    + simpl. rewrite lookup_insert_eq, lookup_insert_ne by done.
      destruct (decide (color g !! m = Some c)) as [Hc|Hc].
      * rewrite decide_True; [done|]. split; [done | by left].
      * rewrite decide_False; [done|]. intros [Heq _]. congruence.
    + do 2 f_equal. apply filter_ext_elem. intros x Hx. simpl.
      rewrite (lookup_insert_ne (color g) ant m c) by done.
      split.
      * intros (Hxa & Hxc & Hxb). rewrite lookup_insert_ne in Hxc by done.
        apply elem_of_cons in Hxb as [->|Hxb]; done.
      * intros (Hxb & Hxc).
        assert (x ≠ ant) as Hxa by (intros ->; done).
        rewrite lookup_insert_ne by done.
        split; [done|]. split; [done | by right].
  - intros _. simpl. rewrite lookup_insert_ne by done. by apply Hcol.
  - intros x Hx. apply list_elem_of_filter in Hx as [Hx _]. simpl.
    apply elem_of_cons in Hx as [->|Hx].
    + by rewrite lookup_insert_eq.
    + rewrite lookup_insert_ne by (intros ->; done). by apply Hcol.
Qed.

Lemma local_potential_trial (g : Graph) (ant : node) (nbrs : list node)
    (c : Z) :
  well_formed g →
  adj g !! ant = Some nbrs →
  ant ∉ nbrs →
  (∀ y, y ∈ nbrs → is_Some (color g !! y)) →
  local_potential (subgraph (recolor g ant c) (ant :: nbrs)) ant
  = Ok (2 * colored_with g nbrs c + conflicts_among g nbrs).
Proof.
  intros Hwf Hadj Hself Hcol.
  unfold local_potential, neighbors.
  rewrite (subgraph_adj_self (recolor g ant c) ant nbrs Hadj).
  rewrite res_bind_ok_l.
  rewrite (mapM_res_total _
    (λ m, (if decide (color g !! m = Some c) then 1 else 0)
          + Z.of_nat (length
              (filter (λ x, x ∈ nbrs ∧ color g !! x = color g !! m)
                      (nb g m)))))
    by (intros m Hm; by apply conflict_level_trial_nbr).
  rewrite res_bind_ok_l, conflict_level_trial by done.
  rewrite res_bind_ok_l. unfold mret, res_ret. f_equal.
  rewrite (zsum_plus
    (λ m, if decide (color g !! m = Some c) then 1 else 0)
    (λ m, Z.of_nat (length
       (filter (λ x, x ∈ nbrs ∧ color g !! x = color g !! m) (nb g m))))).
  rewrite zsum_indicator. unfold colored_with, conflicts_among. lia.
Qed.

Lemma conflicts_among_recolor (g : Graph) (ant : node) (nbrs : list node)
    (c : Z) :
  ant ∉ nbrs →
  conflicts_among (recolor g ant c) nbrs = conflicts_among g nbrs.
Proof.
  intros Hself. unfold conflicts_among. f_equal.
  apply list_fmap_ext. intros _ m Hm%list_elem_of_lookup_2.
  do 2 f_equal. unfold nb. simpl adj.
  apply filter_ext_elem. intros x Hx. simpl.
  rewrite (lookup_insert_ne (color g) ant m c) by (intros ->; done).
  split; intros [Hxb Hxc]; (split; [done|]).
  - by rewrite lookup_insert_ne in Hxc by (intros ->; done).
  - by rewrite lookup_insert_ne by (intros ->; done).
Qed.

Lemma try_colors_potentials (g : Graph) (ant : node) (nbrs : list node)
    (c0 : Z) (cs : list Z) :
  well_formed g →
  adj g !! ant = Some nbrs →
  ant ∉ nbrs →
  (∀ m, m ∈ nbrs → is_Some (color g !! m)) →
  try_colors g (ant :: nbrs) ant true (c0 :: cs)
  = Ok (recolor g ant (List.last cs c0),
        (λ c, 2 * colored_with g nbrs c + conflicts_among g nbrs)
        <$> (c0 :: cs)).
Proof.
  revert g c0. induction cs as [|c1 cs IH]; intros g c0 Hwf Hadj Hself Hcol.
  - rewrite try_colors_cons, set_color_recolor by (by rewrite Hadj).
    rewrite res_bind_ok_l, local_potential_trial by done. done.
  - rewrite try_colors_cons, set_color_recolor by (by rewrite Hadj).
    rewrite res_bind_ok_l, local_potential_trial by done.
    rewrite res_bind_ok_l, IH; [| by apply (well_formed_ext g) | done | done |].
    + rewrite res_bind_ok_l. unfold mret, res_ret.
      rewrite recolor_recolor, last_cons_default. do 2 f_equal.
      rewrite !fmap_cons. f_equal.
      rewrite colored_with_recolor, conflicts_among_recolor by done. f_equal.
      apply list_fmap_ext. intros _ c _.
      by rewrite colored_with_recolor.
    + intros m Hm. simpl. rewrite lookup_insert_ne by (intros ->; done).
      by apply Hcol.
Qed.

Lemma argmin_from_affine (K : Z) (l : list Z) (bi i : nat) (b : Z) :
  argmin_from bi (2 * b + K) i ((λ v, 2 * v + K) <$> l)
  = argmin_from bi b i l.
Proof.
  revert bi i b. induction l as [|x l IH]; intros bi i b; [done|].
  rewrite fmap_cons. simpl.
  destruct (decide (x < b)).
  - rewrite decide_True by lia. apply IH.
  - rewrite decide_False by lia. apply IH.
Qed.

Lemma argmin_affine (K : Z) (l : list Z) :
  argmin ((λ v, 2 * v + K) <$> l) = argmin l.
Proof.
  destruct l as [|x l]; [done|]. rewrite fmap_cons. simpl.
  by rewrite argmin_from_affine.
Qed.

(** X17.  In [change_to_best] the order-2 mode changes nothing: on a well-formed
    graph, for a node that is not its own neighbour and whose neighbours
    are coloured, the local potential in the induced subgraph is twice the
    node's conflicts plus a term that does not depend on the trial colour,
    so both modes pick the same colour (and both fail when there is no
    colour to pick). *)
Theorem X17_change_to_best_order_2_same (g : Graph) (n_colors : Z)
    (ant : node) (nbrs : list node) :
  well_formed g →
  adj g !! ant = Some nbrs →
  ant ∉ nbrs →
  (∀ m, m ∈ nbrs → is_Some (color g !! m)) →
  change_to_best g n_colors ant true = change_to_best g n_colors ant false.
Proof.
  intros Hwf Hadj Hself Hcol.
  unfold change_to_best, neighbors. rewrite Hadj, !res_bind_ok_l.
  destruct (decide (1 ≤ n_colors)) as [Hn|Hn].
  - rewrite arange_cons by done.
    rewrite try_colors_potentials, try_colors_conflicts by done.
    rewrite !res_bind_ok_l. cbv beta iota.
    rewrite (list_fmap_compose (colored_with g nbrs)
               (λ v, 2 * v + conflicts_among g nbrs)).
    by rewrite argmin_affine.
  - by rewrite arange_nonpos by lia.
Qed.

(** ** Colours at construction *)

Lemma refresh_costs_levels (ns : list node) (g g' : Graph) :
  refresh_costs g ns = Ok g' →
  ∀ n, n ∈ ns → ∃ k, conflict_level g n = Ok k.
Proof.
  revert g. induction ns as [|x ns IH]; intros g H n Hn.
  - by apply elem_of_nil in Hn.
  - simpl in H. inv_ok.
    match goal with Hs : set_cost _ _ _ = Ok ?g1 |- _ =>
      apply set_cost_Ok in Hs as (_ & Ha & Hc & _) end.
    apply elem_of_cons in Hn as [->|Hn]; [by eexists|].
    destruct (IH _ H n Hn) as [k Hk]. exists k.
    rewrite <- Hk. symmetry. by apply conflict_level_ext.
Qed.

Lemma conflict_level_raises_KeyError (g : Graph) (n : node) :
  is_Some (adj g !! n) → res_raises (λ e, e = KeyError) (conflict_level g n).
Proof.
  intros [l Hl]. unfold conflict_level, neighbors. rewrite Hl, res_bind_ok_l.
  apply res_raises_bind; [|intros; apply res_raises_ok].
  apply res_raises_mapM. intros m. unfold same_color, get_color.
  destruct (color g !! n); [|by apply res_raises_raise].
  destruct (color g !! m); [apply res_raises_ok|by apply res_raises_raise].
Qed.

Lemma refresh_costs_raises_KeyError (ns : list node) (g : Graph) :
  (∀ n, n ∈ ns → is_Some (adj g !! n)) →
  res_raises (λ e, e = KeyError) (refresh_costs g ns).
Proof.
  revert g. induction ns as [|x ns IH]; intros g Hadj; simpl.
  - apply res_raises_ok.
  - apply res_raises_bind.
    { apply conflict_level_raises_KeyError, Hadj. by left. }
    intros k. unfold set_cost.
    destruct (Hadj x) as [l Hl]; [by left|]. rewrite Hl, res_bind_ok_l.
    apply IH. intros n Hn. simpl. apply Hadj. by right.
Qed.

(** X18.  Construction with [pre_colored = True] needs the colours: on a
    well-formed graph with [n_ants >= 1], if some node that has a neighbour
    carries no colour, construction fails with a KeyError. *)
Theorem X18_pre_colored_missing_colour (g : Graph) (nc : option Z) (na : Z)
    (p_c p_n : Q) (mi : Z) (mt : Q) (o2 vb : bool) (r : RNG)
    (n m : node) (l : list node) :
  well_formed g →
  1 ≤ na →
  adj g !! n = Some (m :: l) →
  color g !! n = None →
  __init__ g nc na true p_c p_n mi mt o2 vb r = Raise KeyError.
Proof.
  intros Hwf Hna Hadj Hc.
  assert (n ∈ nodes g) as Hn by (apply well_formed_node; [done|by rewrite Hadj]).
  destruct (py_max_total (degree_values g)) as [d Hd].
  { apply degree_values_nonempty. intros Hnil. rewrite Hnil in Hn.
    by apply elem_of_nil in Hn. }
  assert (1 ≤ Z.min na (number_of_nodes g)) as Hants.
  { unfold number_of_nodes. destruct (nodes g); [by apply elem_of_nil in Hn|].
    simpl length. lia. }
  destruct (choice_no_replace_arange _ r Hants) as (ants & r' & Hch & _).
  destruct (refresh_costs g (nodes g)) as [g'|e] eqn:Href.
  { destruct (refresh_costs_levels _ _ _ Href n Hn) as [k Hk].
    unfold conflict_level, neighbors in Hk. rewrite Hadj in Hk. simpl in Hk.
    unfold same_color, get_color in Hk. by rewrite Hc in Hk. }
  assert (e = KeyError) as ->.
  { eapply (refresh_costs_raises_KeyError (nodes g) g); [|done].
    intros x Hx. by apply well_formed_node. }
  unfold __init__, copy.
  rewrite (M_bind_lift_ok _ _ _ _ Hd). simpl.
  unfold init_solver, mbind, M_bind, mret, M_ret, lift, live. simpl.
  rewrite Hch. simpl. by rewrite Href.
Qed.

(** X19.  [random_node_coloring] draws the colour of every node from
    [0, p), where [p] is [n] capped at max degree + 1 (max degree + 1 when
    [n] is None), and writes nothing but colours; when [p] is not positive
    it fails with a ValueError on the first node. *)
Theorem X19_random_node_coloring_palette (g : Graph) (n : option Z) (d : Z)
    (r : RNG) :
  well_formed g →
  py_max (degree_values g) = Ok d →
  (1 ≤ palette d n →
   ∃ g' r',
     random_node_coloring g n r = Ok (g', r')
     ∧ nodes g' = nodes g ∧ adj g' = adj g ∧ cost g' = cost g
     ∧ ∀ v, v ∈ nodes g →
            ∃ c, color g' !! v = Some c ∧ 0 ≤ c < palette d n)
  ∧ (palette d n ≤ 0 → random_node_coloring g n r = Raise ValueError).
Proof.
  intros Hwf Hd. split.
  - intros Hp. by apply random_node_coloring_total.
  - intros Hp. unfold random_node_coloring.
    rewrite (M_bind_lift_ok _ _ _ _ Hd).
    change (match n with
            | Some k => if decide (k > d + 1) then d + 1 else k
            | None => d + 1
            end) with (palette d n).
    rewrite arange_nonpos by done.
    destruct (nodes g) as [|v vs] eqn:Hv; [|done].
    unfold degree_values in Hd. by rewrite Hv in Hd.
Qed.

(** ** The initial ants *)

(** X20.  A constructed solver has min(n_ants, number of nodes) ants, and their
    positions are the integers below that number, each exactly once, in the
    order drawn from the generator. *)
Theorem X20_initial_ants (g : Graph) (nc : option Z) (na : Z) (pre : bool)
    (p_c p_n : Q) (mi : Z) (mt : Q) (o2 vb : bool) (r r' : RNG)
    (s : AntSolver) :
  __init__ g nc na pre p_c p_n mi mt o2 vb r = Ok (s, r') →
  n_ants (cfg s) = Z.min na (number_of_nodes g)
  ∧ self_ants s ≡ₚ arange (n_ants (cfg s))
  ∧ NoDup (self_ants s)
  ∧ length (self_ants s) = Z.to_nat (n_ants (cfg s)).
Proof.
  intros H. destruct (init_ants_permutation _ _ _ _ _ _ _ _ _ _ _ _ _ H)
    as (Hn & Hperm & Hnd).
  repeat split; try done.
  rewrite Hperm. unfold arange. by rewrite length_fmap, length_seq.
Qed.

(** ** The further properties at concrete inputs *)

Lemma triangle_dense :
  ∀ i, 0 ≤ i < number_of_nodes triangle → i ∈ nodes triangle.
Proof.
  intros i Hi. unfold number_of_nodes in Hi. simpl in Hi.
  assert (i = 0 ∨ i = 1 ∨ i = 2) as [-> | [-> | ->]] by lia; simpl.
  - by left.
  - right. by left.
  - right. right. by left.
Defined.


Lemma X1_witness :
  ∃ nbrs, adj triangle !! 0 = Some nbrs ∧ 0 ≤ 1 ≤ Z.of_nat (length nbrs).
Proof.
  apply (X1_conflict_level_bounds triangle 0 1). reflexivity.
Defined.

Lemma X2_witness :
  conflict_level lonely 5 = Raise NetworkXError
  ∧ conflict_level lonely 0 = Ok 0
  ∧ conflict_level lonely 1 = Raise KeyError
  ∧ conflict_level lonely 2 = Raise KeyError.
Proof.
  split; [|split; [|split]].
  - apply (proj1 (X2_conflict_level_edge_cases lonely 5)). reflexivity.
  - apply (proj1 (proj2 (X2_conflict_level_edge_cases lonely 0))).
    reflexivity.
  - apply (proj1 (proj2 (proj2 (X2_conflict_level_edge_cases lonely 1)))
             2 []); reflexivity.
  - apply (proj2 (proj2 (proj2 (X2_conflict_level_edge_cases lonely 2)))
             1 []); reflexivity.
Defined.

Lemma X3_witness : 2 * 1 ≤ 2.
Proof.
  apply (X3_local_potential_lower_bound triangle 0 2 1).
  - apply triangle_simple.
  - reflexivity.
  - reflexivity.
Defined.

Lemma X4_witness :
  change_to_best triangle 0 0 true = Raise ValueError
  ∧ change_to_random triangle 0 0 rng0 = Raise ValueError.
Proof.
  apply (X4_empty_palette_ValueError triangle 0 0 true rng0).
  - lia.
  - by eexists.
Defined.

Lemma X5_witness :
  (adj (live stranded) !! 0 = Some [] →
   ant_step stranded 0 rng0
   = Raise (if Qltb (first_uniform rng0) (pc (cfg stranded)) then IndexError
            else ValueError))
  ∧ (adj (live stranded) !! 0 = None →
     ant_step stranded 0 rng0 = Raise NetworkXError).
Proof.
  apply (X5_ant_step_without_neighbours stranded 0 0 rng0).
  - reflexivity.
  - discriminate.
Defined.

Lemma X6_witness :
  __init__ (mk_graph [] [] []) (Some 2) 2 true (4 # 5) (4 # 5) 1 (5 # 1)
           false true rng0 = Raise ValueError.
Proof.
  apply (X6_empty_graph_ValueError (mk_graph [] [] [])). reflexivity.
Defined.

Lemma X7_witness :
  solve 1 triangle_solver triangle_rng (clock_every 10)
  = ([], Returned (set_i triangle_solver 0)).
Proof.
  apply (X7_solve_no_sweep 0 triangle_solver triangle_rng (clock_every 10)).
  right. right. vm_compute. discriminate.
Defined.

Lemma X8_witness :
  ∃ s, self_cost_best s = 0
       ∧ solve 1 s rng0 (clock_every 1) = ([], Returned (set_i s 0)).
Proof.
  eexists.
  eapply (X8_edgeless_graph_converged two_isolated (Some 2) 2 true (4 # 5)
            (4 # 5) 1 (5 # 1) false true rng0 _ rng0 _ 0 (clock_every 1)).
  - change (map_Forall (λ _ l, l = []) (adj two_isolated)).
    apply (bool_decide_unpack _). vm_compute. exact I.
  - vm_compute. reflexivity.
Defined.

Lemma X9_witness :
  let tr := (solve 10 triangle_solver triangle_rng (clock_every 1)).1 in
  let o := (solve 10 triangle_solver triangle_rng (clock_every 1)).2 in
  (tr ≠ [] → 0 < self_cost_best triangle_solver)
  ∧ (∀ j sj, tr !! j = Some sj → (S j < length tr)%nat →
             0 < self_cost_best sj)
  ∧ (∀ s', o = Returned s' → s' = List.last tr (set_i triangle_solver 0)).
Proof.
  apply (X9_zero_cost_is_terminal 10 triangle_solver triangle_rng
           (clock_every 1)).
  apply surjective_pairing.
Defined.

Lemma X10_witness :
  total_cost (snapshot triangle_swept) = Ok (self_cost_best triangle_swept)
  ∧ self_cost_best triangle_swept
    = 2 * conflicting_edges (snapshot triangle_swept)
  ∧ (∀ n, n ∈ nodes (snapshot triangle_swept) →
          cost (snapshot triangle_swept) !! n
          = Some (conflicts (snapshot triangle_swept) n)).
Proof.
  apply (X10_cost_best_is_cost_of_best triangle (Some 2) 2 true (4 # 5)
           (4 # 5) 1 (5 # 1) false true rng0 triangle_rng triangle_solver
           triangle_swept).
  - apply triangle_simple.
  - apply triangle_init_Ok.
  - apply triangle_swept_reachable.
Defined.

Lemma X11_witness :
  heap triangle_swept !!! 0%nat = triangle
  ∧ nodes (live triangle_swept) = nodes triangle
  ∧ adj (live triangle_swept) = adj triangle
  ∧ cfg triangle_swept = cfg triangle_solver.
Proof.
  apply (X11_caller_graph_untouched triangle (Some 2) 2 true (4 # 5)
           (4 # 5) 1 (5 # 1) false true rng0 triangle_rng triangle_solver
           triangle_swept).
  - apply triangle_simple.
  - apply triangle_init_Ok.
  - apply triangle_swept_reachable.
Defined.

Lemma X12_witness :
  ∃ s' n1 nbrs1 col,
    n1 ∈ [1; 2] ∧ int64 n1
    ∧ self_ants s' = <[0%nat:=n1]> (self_ants triangle_solver)
    ∧ 0 ≤ col < n_colors (cfg triangle_solver)
    ∧ color (live s') = <[n1:=col]> (color (live triangle_solver))
    ∧ nodes (live s') = nodes (live triangle_solver)
    ∧ adj (live s') = adj (live triangle_solver)
    ∧ adj (live triangle_solver) !! n1 = Some nbrs1
    ∧ (∀ m, m ∈ n1 :: nbrs1 →
            cost (live s') !! m = Some (conflicts (live s') m))
    ∧ (∀ m, m ∉ n1 :: nbrs1 →
            cost (live s') !! m = cost (live triangle_solver) !! m).
Proof.
  eexists.
  eapply (X12_ant_step_effect triangle_solver _ 0 triangle_rng _ 0 [1; 2]).
  - vm_compute. lia.
  - vm_compute. reflexivity.
  - vm_compute. reflexivity.
  - intros m Hm.
    apply elem_of_cons in Hm as [-> | Hm].
    { split; [by vm_compute|]. intros c Hc. vm_compute in Hc.
      injection Hc as <-. by vm_compute. }
    apply elem_of_cons in Hm as [-> | Hm].
    { split; [by vm_compute|]. intros c Hc. vm_compute in Hc.
      injection Hc as <-. by vm_compute. }
    by apply elem_of_nil in Hm.
  - vm_compute. reflexivity.
Defined.

Lemma X13_witness :
  ∃ c, color (live triangle_swept) !! 0 = Some c
       ∧ 0 ≤ c < n_colors (cfg triangle_swept).
Proof.
  apply (X13_colours_stay_in_range triangle (Some 2) 2 true (4 # 5) (4 # 5)
           1 (5 # 1) false true rng0 triangle_rng triangle_solver
           triangle_swept).
  - apply triangle_init_Ok.
  - intros _ n Hn.
    apply elem_of_cons in Hn as [-> | Hn]; [exists 0; by vm_compute|].
    apply elem_of_cons in Hn as [-> | Hn]; [exists 0; by vm_compute|].
    apply elem_of_cons in Hn as [-> | Hn]; [exists 1; by vm_compute|].
    by apply elem_of_nil in Hn.
  - apply triangle_swept_reachable.
  - by left.
Defined.

Lemma X14_witness :
  length (self_ants triangle_swept)
  = Z.to_nat (n_ants (cfg triangle_swept))
  ∧ Forall (λ a, a ∈ nodes triangle) (self_ants triangle_swept).
Proof.
  apply (X14_ants_stay_on_nodes triangle (Some 2) 2 true (4 # 5) (4 # 5)
           1 (5 # 1) false true rng0 triangle_rng triangle_solver
           triangle_swept).
  - apply triangle_simple.
  - apply triangle_dense.
  - apply triangle_init_Ok.
  - apply triangle_swept_reachable.
Defined.


(** A node named 2^63 cannot be stored in the int64 array of ants: on the
    graph [big_name] the first ant step of [solve] ends with an
    OverflowError. *)
Example big_name_OverflowError :
  ∃ s r,
    __init__ big_name (Some 2) 1 true (4 # 5) (4 # 5) 1 (5 # 1) false true
             rng0 = Ok (s, r)
    ∧ (solve 10 s r (clock_every 1)).2 = Raised OverflowError.
Proof.
  eexists _, _. split; [vm_compute; reflexivity|]. by vm_compute.
Qed.

Lemma X16_witness :
  OverflowError = ValueError ∨ OverflowError = KeyError
  ∨ OverflowError = IndexError ∨ OverflowError = NetworkXError
  ∨ OverflowError = OverflowError.
Proof.
  eapply (X16_solve_exceptions big_name (Some 2) 1 true (4 # 5) (4 # 5) 1
            (5 # 1) false true rng0 _ rng0 _ 10 (clock_every 1)
            OverflowError).
  - vm_compute. reflexivity.
  - vm_compute. reflexivity.
Defined.

Lemma X17_witness :
  change_to_best triangle 2 0 true = change_to_best triangle 2 0 false.
Proof.
  apply (X17_change_to_best_order_2_same triangle 2 0 [1; 2]).
  - apply triangle_simple.
  - reflexivity.
  - apply (bool_decide_unpack _). vm_compute. exact I.
  - intros m Hm.
    apply elem_of_cons in Hm as [-> | Hm]; [by eexists|].
    apply elem_of_cons in Hm as [-> | Hm]; [by eexists|].
    by apply elem_of_nil in Hm.
Defined.

Lemma X18_witness :
  __init__ lonely (Some 2) 2 true (4 # 5) (4 # 5) 1 (5 # 1) false true rng0
  = Raise KeyError.
Proof.
  apply (X18_pre_colored_missing_colour lonely (Some 2) 2 (4 # 5) (4 # 5) 1
           (5 # 1) false true rng0 1 2 []).
  - apply (bool_decide_unpack _). vm_compute. exact I.
  - lia.
  - reflexivity.
  - reflexivity.
Defined.

Lemma X19_witness :
  (1 ≤ palette 2 None →
   ∃ g' r',
     random_node_coloring triangle None rng0 = Ok (g', r')
     ∧ nodes g' = nodes triangle ∧ adj g' = adj triangle
     ∧ cost g' = cost triangle
     ∧ ∀ v, v ∈ nodes triangle →
            ∃ c, color g' !! v = Some c ∧ 0 ≤ c < palette 2 None)
  ∧ (palette 2 None ≤ 0 →
     random_node_coloring triangle None rng0 = Raise ValueError).
Proof.
  apply (X19_random_node_coloring_palette triangle None 2 rng0).
  - apply triangle_simple.
  - reflexivity.
Defined.

Lemma X20_witness :
  n_ants (cfg triangle_solver) = Z.min 2 (number_of_nodes triangle)
  ∧ self_ants triangle_solver ≡ₚ arange (n_ants (cfg triangle_solver))
  ∧ NoDup (self_ants triangle_solver)
  ∧ length (self_ants triangle_solver)
    = Z.to_nat (n_ants (cfg triangle_solver)).
Proof.
  apply (X20_initial_ants triangle (Some 2) 2 true (4 # 5) (4 # 5) 1
           (5 # 1) false true rng0 triangle_rng triangle_solver).
  apply triangle_init_Ok.
Defined.
